(** * dj_set_processor: timeline segmentation and frame sampling

    A shallow embedding of the algorithmic core of

    - [modules/video_editor/video_editor.py]  (class [VideoEditor]) and
    - [modules/thumbnail_generator/thumbnail_generator.py]
      (class [ThumbnailGenerator]),

    followed by the properties of that code.

    Conventions of the embedding.

    - A finite Python [float] (a time in seconds, a score, a step) is the
      rational [Q] it denotes, and comparisons are the rational ones.
      The arithmetic on floats rounds to the nearest binary64 number
      ([Py.round64]): the differences [end_time - start_time], the steps
      [usable_frame_count / num_frames] and [len(top_frames) /
      num_frames], the products [i * step], the sums
      [start_frame + i * step] and the quotients [frame_idx / fps].
      Infinities and NaN are not modelled: a result beyond the largest
      float stays the rational it is.  The three bounds
      [int(frame_count * 0.05)], [int(frame_count * 0.95)] and
      [int(frame_count / 500)] are computed exactly; the binary64
      products and quotient truncate to the same integers for the frame
      counts of a video (lemma [bounds_binary64], up to [2 ^ 45]).
      [float(x)] is the identity on a float.
    - Python [int] values (frame indices and counts) are [Z]; [int(x)] on a
      float truncates toward zero.
    - A segment is the dictionary [{'start_time': s, 'end_time': e}]; it is
      a record with these two fields, so the "missing key" check of
      [_validate_segments] cannot fail in the model.
    - Dictionaries that are mutated in place live in an object store
      ([gmap loc Segment]); a Python list of such dictionaries is a list of
      references [list loc].
    - An exception is [None] (or a dedicated constructor) in the result. *)

From Stdlib Require Import QArith Qround Qabs Qpower Lqa ZArith Lia.
From Stdlib Require Import Sorting.Sorted Sorting.Permutation.
From stdpp Require Import base option list gmap.
From Stdlib Require Strings.String.
From Stdlib Require Floats.SpecFloat.

Local Open Scope Q_scope.

(** ** Python built-ins used by the code *)

Module Py.

(** [x < y] on floats. *)
Definition Qltb (x y : Q) : bool :=
  (Qnum x * QDen y <? Qnum y * QDen x)%Z.

(** [float(x)]: the model's numbers already are rationals. *)
Definition float (x : Q) : Q := x.

(** [int(x)] for a float [x]: truncation toward zero. *)
Definition int (x : Q) : Z :=
  if Qltb x 0 then Qceiling x else Qfloor x.

(** *** Binary64 arithmetic

    A finite float is the rational it denotes.  [round64 x] is the
    binary64 number nearest to [x], ties going to the even significand:
    53 significant bits, and the fixed spacing [2 ^ -1074] below
    [2 ^ -1022].  An arithmetic operation on floats is the exact
    operation followed by this rounding. *)

(** [floor(log2(x))] for [x > 0]. *)
Definition ilog2 (x : Q) : Z :=
  let d := (Z.log2 (Qnum x) - Z.log2 (Z.pos (Qden x)))%Z in
  if Qle_bool (2 ^ d) x then d else (d - 1)%Z.

(** The nearest integer, the even one of the two when [x] is halfway. *)
Definition round_half_even (x : Q) : Z :=
  let f := Qfloor x in
  match Qcompare (x - inject_Z f) (1 # 2) with
  | Lt => f
  | Eq => if Z.even f then f else (f + 1)%Z
  | Gt => (f + 1)%Z
  end.

(** [x] rounded to binary64: the multiple of the unit in the last place
    [2 ^ e] that is nearest to [x]. *)
Definition round64 (x : Q) : Q :=
  if Qeq_bool x 0 then 0
  else
    let e := Z.max (ilog2 (Qabs x) - 52) (-1074) in
    inject_Z (round_half_even (x / 2 ^ e)) * 2 ^ e.

(** [float(n)] for an [int], also where an [int] operand meets a float
    one. *)
Definition float_of_int (n : Z) : Q := round64 (inject_Z n).

(** [x + y], [x - y], [x * y] and [x / y] on floats ([y] not zero). *)
Definition fadd (x y : Q) : Q := round64 (x + y).
Definition fsub (x y : Q) : Q := round64 (x - y).
Definition fmul (x y : Q) : Q := round64 (x * y).
Definition fdiv (x y : Q) : Q := round64 (x / y).

(** [a / b] on two [int]s ([b] not zero): the quotient, rounded once. *)
Definition truediv (a b : Z) : Q := round64 (inject_Z a / inject_Z b).

(** [len(range(start, stop, step))] for [step > 0], as CPython computes
    it. *)
Definition range_len (start stop step : Z) : Z :=
  if (start <? stop)%Z then ((stop - start - 1) / step + 1)%Z else 0%Z.

(** [list(range(start, stop, step))] for [step > 0]. *)
Definition range3 (start stop step : Z) : list Z :=
  List.map (fun k => (start + Z.of_nat k * step)%Z)
           (seq 0 (Z.to_nat (range_len start stop step))).

(** [list(range(start, stop))]. *)
Definition range2 (start stop : Z) : list Z := range3 start stop 1.

(** [list(range(n))]. *)
Definition range (n : Z) : list Z := range2 0 n.

(** Insertion of [x] in front of the first element that [x] may precede;
    [x] only passes elements that must come strictly before it. *)
Fixpoint insert_by {A} (before : A -> A -> bool) (x : A) (l : list A)
  : list A :=
  match l with
  | [] => [x]
  | y :: r => if before x y then x :: y :: r else y :: insert_by before x r
  end.

(** A stable sort: [before a b] says that [a] may stand in front of [b]
    (a total preorder).  Elements that compare equal keep the order they
    have in the argument, which is what [sorted] and [list.sort]
    guarantee, also with [reverse=True]. *)
Fixpoint stable_sort {A} (before : A -> A -> bool) (l : list A) : list A :=
  match l with
  | [] => []
  | x :: r => insert_by before x (stable_sort before r)
  end.

(** [sorted(l, key=key)] with float keys. *)
Definition sorted_by_key {A} (key : A -> Q) (l : list A) : list A :=
  stable_sort (fun a b => negb (Qltb (key b) (key a))) l.

(** [l.sort(key=key, reverse=True)] with float keys. *)
Definition sort_by_key_reverse {A} (key : A -> Q) (l : list A) : list A :=
  stable_sort (fun a b => negb (Qltb (key a) (key b))) l.

End Py.

(** ** video_editor.py *)

Module VideoEditor.

Record Segment : Type := mkSegment { start_time : Q; end_time : Q }.

Definition set_start_time (s : Segment) (v : Q) : Segment :=
  {| start_time := v; end_time := end_time s |}.

Definition set_end_time (s : Segment) (v : Q) : Segment :=
  {| start_time := start_time s; end_time := v |}.

(** References to dictionary objects, and the object store. *)
Abbreviation loc := positive.

(** The body of the loop of [_validate_segments] on one dictionary:
    coercion of both fields, then the two clamps.  The last test of the
    loop body only writes a warning to the log. *)
Definition validate_segment (segment : Segment) (video_duration : Q)
  : Segment :=
  let segment := set_start_time segment (Py.float (start_time segment)) in
  let segment := set_end_time segment (Py.float (end_time segment)) in
  let segment :=
    if Py.Qltb (start_time segment) 0
    then set_start_time segment 0 else segment in
  let segment :=
    if Py.Qltb video_duration (end_time segment)
    then set_end_time segment video_duration else segment in
  segment.

(** The warnings [_validate_segments] logs: the indices of the segments
    reported as "zero or negative duration, skipping". *)
Definition reports_skipping (segment : Segment) : bool :=
  negb (Py.Qltb (start_time segment) (end_time segment)).

(** [_validate_segments(segments, video_duration)]: every dictionary of
    the list is updated in place.  [None] stands for a reference without
    an object, which Python cannot produce. *)
Fixpoint _validate_segments (segments : list loc) (video_duration : Q)
    (h : gmap loc Segment) : option (gmap loc Segment) :=
  match segments with
  | [] => Some h
  | r :: rest =>
      match h !! r with
      | None => None
      | Some segment =>
          _validate_segments rest video_duration
            (<[r := validate_segment segment video_duration]> h)
      end
  end.

(** The segments between two successive segments to remove: the loop
    [for i in range(len(segments_to_remove) - 1)]. *)
Fixpoint between (segments_to_remove : list Segment) : list Segment :=
  match segments_to_remove with
  | current :: ((next :: _) as rest) =>
      let current_end := end_time current in
      let next_start := start_time next in
      (if Py.Qltb current_end next_start
       then [ {| start_time := current_end; end_time := next_start |} ]
       else [])
      ++ between rest
  | _ => []
  end.

(** [_get_segments_to_keep(segments_to_remove, video_duration)]. *)
Definition _get_segments_to_keep (segments_to_remove : list Segment)
    (video_duration : Q) : list Segment :=
  match segments_to_remove with
  | [] => [ {| start_time := 0; end_time := video_duration |} ]
  | first :: _ =>
      let final := List.last segments_to_remove first in
      (if Py.Qltb 0 (start_time first)
       then [ {| start_time := 0; end_time := start_time first |} ]
       else [])
      ++ between segments_to_remove
      ++ (if Py.Qltb (end_time final) video_duration
          then [ {| start_time := end_time final;
                    end_time := video_duration |} ]
          else [])
  end.

(** [merged_segments[-1] = x]; [None] is the [IndexError] of an empty
    list. *)
Definition set_last {A} (l : list A) (x : A) : option (list A) :=
  match l with
  | [] => None
  | _ => Some (removelast l ++ [x])
  end.

(** The body of the loop [for segment in segments[1:]] of
    [_merge_short_segments], on the accumulator [merged_segments].  The
    two durations are float differences. *)
Definition merge_body (min_duration : Q) (merged_segments : list Segment)
    (segment : Segment) : option (list Segment) :=
  match last merged_segments with
  | None => None
  | Some last_segment =>
      if Py.Qltb (Py.fsub (end_time segment) (start_time segment))
                 min_duration
      then
        if Py.Qltb (Py.fsub (end_time last_segment)
                            (start_time last_segment))
                   min_duration
        then
          set_last merged_segments
            {| start_time := start_time last_segment;
               end_time := end_time segment |}
        else Some (merged_segments ++ [segment])
      else Some (merged_segments ++ [segment])
  end.

Fixpoint merge_loop (min_duration : Q) (merged_segments : list Segment)
    (segments : list Segment) : option (list Segment) :=
  match segments with
  | [] => Some merged_segments
  | segment :: rest =>
      match merge_body min_duration merged_segments segment with
      | None => None
      | Some merged_segments => merge_loop min_duration merged_segments rest
      end
  end.

(** [_merge_short_segments(segments)], with
    [self.config["min_segment_duration"]] as a parameter. *)
Definition _merge_short_segments (min_duration : Q)
    (segments : list Segment) : option (list Segment) :=
  match segments with
  | [] => Some []
  | [_] => Some segments
  | first :: rest => merge_loop min_duration [first] rest
  end.

(** [sorted(segments_to_remove, key=lambda x: x["start_time"])]: a new
    list of the same dictionary objects.  The keys are read in the
    store. *)
Definition sorted_by_start_time (h : gmap loc Segment)
    (segments : list loc) : option (list loc) :=
  keyed ← mapM (fun r => (fun s => (r, s)) <$> h !! r) segments;
  Some (fst <$> Py.sorted_by_key (fun p => start_time (snd p)) keyed).

(** The values of a list of dictionaries. *)
Definition deref (h : gmap loc Segment) (segments : list loc)
  : option (list Segment) :=
  mapM (fun r => h !! r) segments.

(** The first steps of [edit_video]: the caller's list is sorted and
    validated.  The result is the store after validation and the list
    that [edit_video] hands to [_get_segments_to_keep]. *)
Definition validated_remove_set (h : gmap loc Segment)
    (segments_to_remove : list loc) (video_duration : Q)
  : option (gmap loc Segment * list Segment) :=
  segments_to_remove ← sorted_by_start_time h segments_to_remove;
  h ← _validate_segments segments_to_remove video_duration h;
  removed ← deref h segments_to_remove;
  Some (h, removed).

(** How the segmentation part of [edit_video] ends: with the spans to
    extract, or with [ValueError("No segments remain after editing")]. *)
Inductive outcome : Type :=
| Clips (clips : list Segment)
| NoSegmentsRemain.

(** [edit_video(video_path, segments_to_remove, output_path)], from the
    sort of the segments to the list of spans handed to
    [video.subclip]; [video_duration] is [video.duration] and
    [min_segment_duration] the configuration entry.  Loading, cutting
    and writing the video are left to moviepy. *)
Definition edit_video (min_segment_duration : Q) (h : gmap loc Segment)
    (segments_to_remove : list loc) (video_duration : Q)
  : option (gmap loc Segment * outcome) :=
  '(h, removed) ← validated_remove_set h segments_to_remove video_duration;
  let segments_to_keep := _get_segments_to_keep removed video_duration in
  segments_to_keep ←
    (if Py.Qltb 0 min_segment_duration
     then _merge_short_segments min_segment_duration segments_to_keep
     else Some segments_to_keep);
  let clips :=
    List.filter (fun s => Py.Qltb (start_time s) (end_time s))
                segments_to_keep in
  Some (h, match clips with [] => NoSegmentsRemain | _ => Clips clips end).

End VideoEditor.

(** ** thumbnail_generator.py *)

Module ThumbnailGenerator.

(** The frame indices [_extract_uniform_frames] reads, in the order it
    reads them.  [None] is the [ZeroDivisionError] of
    [usable_frame_count / num_frames].  The quotient of the two [int]s is
    a float, [i * step] and [start_frame + i * step] are float
    operations with an [int] operand. *)
Definition uniform_frame_indices (num_frames frame_count : Z)
  : option (list Z) :=
  let start_frame := Py.int (inject_Z frame_count * 0.05) in
  let end_frame := Py.int (inject_Z frame_count * 0.95) in
  let usable_frame_count := (end_frame - start_frame)%Z in
  let '(start_frame, end_frame, usable_frame_count) :=
    if (usable_frame_count <=? 0)%Z
    then (0%Z, frame_count, frame_count)
    else (start_frame, end_frame, usable_frame_count) in
  if (usable_frame_count <=? num_frames)%Z
  then Some (Py.range2 start_frame end_frame)
  else
    if (num_frames =? 0)%Z then None
    else
      let step := Py.truediv usable_frame_count num_frames in
      Some (List.map
              (fun i => Py.int (Py.fadd (Py.float_of_int start_frame)
                                        (Py.fmul (Py.float_of_int i) step)))
              (Py.range num_frames)).

(** The two arguments of [random.sample] in [_extract_random_frames]: the
    population [range(start_frame, end_frame)] and the number of indices
    to draw. *)
Definition random_sample_args (num_frames frame_count : Z) : list Z * Z :=
  let start_frame := Py.int (inject_Z frame_count * 0.05) in
  let end_frame := Py.int (inject_Z frame_count * 0.95) in
  let usable_frame_count := (end_frame - start_frame)%Z in
  let '(start_frame, end_frame, usable_frame_count) :=
    if (usable_frame_count <=? 0)%Z
    then (0%Z, frame_count, frame_count)
    else (start_frame, end_frame, usable_frame_count) in
  (Py.range2 start_frame end_frame,
   Z.min (num_frames * 3) usable_frame_count).

(** [sample_rate] of [_extract_key_moment_frames]. *)
Definition key_moment_sample_rate (frame_count : Z) : Z :=
  Z.max 1 (Py.int (inject_Z frame_count / 500)).

(** The frame indices [_extract_key_moment_frames] probes:
    [range(start_frame, end_frame, sample_rate)]. *)
Definition key_moment_probes (frame_count : Z) : list Z :=
  let start_frame := Py.int (inject_Z frame_count * 0.05) in
  let end_frame := Py.int (inject_Z frame_count * 0.95) in
  let sample_rate := key_moment_sample_rate frame_count in
  Py.range3 start_frame end_frame sample_rate.

Section KeyMoments.

(** The decoder and OpenCV: [read i] is [video.set(POS_FRAMES, i)]
    followed by [video.read()], with [None] when the read fails;
    [cvtColor] is the conversion to grayscale; [diff_score gray prev] is
    [np.sum(cv2.absdiff(gray, prev)) / (rows * columns)]. *)
Context {Frame Gray : Type}.
Variable read : Z -> option Frame.
Variable cvtColor : Frame -> Gray.
Variable diff_score : Gray -> Gray -> Q.

(** The loop that fills [frame_diffs], on the indices still to probe and
    the current [prev_frame]. *)
Fixpoint probe_loop (indices : list Z) (prev_frame : option Gray)
  : list (Z * Q * Frame) :=
  match indices with
  | [] => []
  | frame_idx :: rest =>
      match read frame_idx with
      | None => probe_loop rest prev_frame
      | Some frame =>
          let gray := cvtColor frame in
          match prev_frame with
          | Some prev =>
              (frame_idx, diff_score gray prev, frame)
              :: probe_loop rest (Some gray)
          | None => probe_loop rest (Some gray)
          end
      end
  end.

(** [frame_diffs] when the loop ends. *)
Definition frame_diffs (frame_count : Z) : list (Z * Q * Frame) :=
  probe_loop (key_moment_probes frame_count) None.

(** [frame_diffs.sort(key=lambda x: x[1], reverse=True)]. *)
Definition ranked_frame_diffs (frame_count : Z) : list (Z * Q * Frame) :=
  Py.sort_by_key_reverse (fun x => snd (fst x)) (frame_diffs frame_count).

End KeyMoments.

End ThumbnailGenerator.

(** ** Vocabulary of the statements about sampling *)

Module Sampling.

(** The usable index range [[start, stop)] of a video of [frame_count]
    frames: the first and the last 5% are left out, and the whole range
    [[0, frame_count)] is used when nothing is left. *)
Definition usable_range (frame_count : Z) : Z * Z :=
  let start := Py.int (inject_Z frame_count * 0.05) in
  let stop := Py.int (inject_Z frame_count * 0.95) in
  if (stop - start <=? 0)%Z then (0%Z, frame_count) else (start, stop).

Definition usable_start (frame_count : Z) : Z :=
  fst (usable_range frame_count).

Definition usable_stop (frame_count : Z) : Z :=
  snd (usable_range frame_count).

Definition usable_count (frame_count : Z) : Z :=
  (usable_stop frame_count - usable_start frame_count)%Z.

(** The size of the restricted range, without the fall-back. *)
Definition restricted_count (frame_count : Z) : Z :=
  (Py.int (inject_Z frame_count * 0.95)
   - Py.int (inject_Z frame_count * 0.05))%Z.

(** Index number [i] of uniform sampling, as the specification writes
    it: [floor(start + i * step)] with [step = usable_count /
    target_count], in floating point. *)
Definition uniform_index (frame_count target_count i : Z) : Z :=
  let step := Py.truediv (usable_count frame_count) target_count in
  Qfloor (Py.fadd (Py.float_of_int (usable_start frame_count))
                  (Py.fmul (Py.float_of_int i) step)).

(** The indices of uniform sampling in exact arithmetic: those of
    [ThumbnailGenerator.uniform_frame_indices] when no operation on
    floats rounds.  [None] is the division by zero. *)
Definition exact_uniform_indices (num_frames frame_count : Z)
  : option (list Z) :=
  if (usable_count frame_count <=? num_frames)%Z
  then Some (Py.range2 (usable_start frame_count)
                       (usable_stop frame_count))
  else
    if (num_frames =? 0)%Z then None
    else
      let step :=
        inject_Z (usable_count frame_count) / inject_Z num_frames in
      Some (List.map
              (fun i =>
                 Py.int (inject_Z (usable_start frame_count)
                         + inject_Z i * step))
              (Py.range num_frames)).

(** The frame index [x[0]] and the change score [x[1]] of an entry of
    [frame_diffs]. *)
Definition frame_idx {Frame : Type} (x : Z * Q * Frame) : Z := fst (fst x).
Definition score {Frame : Type} (x : Z * Q * Frame) : Q := snd (fst x).

(** [p] stands somewhere in front of [q] in [l]. *)
Definition precedes {A : Type} (l : list A) (p q : A) : Prop :=
  exists l1 l2 l3, l = l1 ++ p :: l2 ++ q :: l3.

End Sampling.

(** ** Vocabulary of the statements about the timeline *)

Module Timeline.
Import VideoEditor.

(** Two half-open intervals share a point. *)
Definition overlap (a b : Segment) : bool :=
  Py.Qltb (start_time a) (end_time b) && Py.Qltb (start_time b) (end_time a).

Fixpoint sorted_by_start (l : list Segment) : bool :=
  match l with
  | a :: ((b :: _) as r) =>
      negb (Py.Qltb (start_time b) (start_time a)) && sorted_by_start r
  | _ => true
  end.

Fixpoint non_overlapping (l : list Segment) : bool :=
  match l with
  | [] => true
  | a :: r => forallb (fun b => negb (overlap a b)) r && non_overlapping r
  end.

Definition positive_duration (l : list Segment) : bool :=
  forallb (fun a => Py.Qltb (start_time a) (end_time a)) l.

(** Every interval lies in [[0, D)]: it starts at 0 or later and ends at
    [D] or earlier. *)
Definition within (D : Q) (l : list Segment) : bool :=
  forallb (fun a => negb (Py.Qltb (start_time a) 0)
                    && negb (Py.Qltb D (end_time a))) l.

(** [l], read from left to right, covers [[t, D)] piece by piece: each
    interval is non-empty and starts where the covered part ends (no gap,
    no overlap), and the last one ends at [D]. *)
Fixpoint tiles_from (t D : Q) (l : list Segment) : bool :=
  match l with
  | [] => Qeq_bool t D
  | a :: r =>
      Qeq_bool (start_time a) t
      && Py.Qltb (start_time a) (end_time a)
      && tiles_from (end_time a) D r
  end.

Definition tiles (D : Q) (l : list Segment) : bool := tiles_from 0 D l.

(** [a] starts no later than [b]. *)
Definition le_start (a b : Segment) : Prop := start_time a <= start_time b.

(** The keep set and the remove set put together, sorted by start. *)
Definition timeline (keep remove : list Segment) : list Segment :=
  Py.sorted_by_key start_time (keep ++ remove).

End Timeline.

(** ** The merge of short segments as the specification words it *)

Module MergeSpec.
Import VideoEditor.

(** A segment whose duration is below [min_duration]; the duration is
    the difference [end - start] of the two floats, itself a float. *)
Definition short (min_duration : Q) (s : Segment) : bool :=
  Py.Qltb (Py.fsub (end_time s) (start_time s)) min_duration.

(** The last interval of the accumulator with its [end] moved to the end
    of [s]: one interval spanning both. *)
Definition extend (last_interval s : Segment) : Segment :=
  {| start_time := start_time last_interval; end_time := end_time s |}.

(** The accumulator is the pair of its closed intervals and its last
    interval.  One step of the pass: merge when the interval and the last
    interval of the accumulator are both short, append otherwise. *)
Definition merge_short_step (min_duration : Q)
    (acc : list Segment * Segment) (s : Segment) : list Segment * Segment :=
  let (closed, last_interval) := acc in
  if short min_duration s && short min_duration last_interval
  then (closed, extend last_interval s)
  else (closed ++ [last_interval], s).

(** A single left-to-right pass, seeded with the first interval. *)
Definition merge_short (min_duration : Q) (first : Segment)
    (rest : list Segment) : list Segment :=
  let (closed, last_interval) :=
    fold_left (merge_short_step min_duration) rest ([], first) in
  closed ++ [last_interval].

(** No two neighbours are both short. *)
Fixpoint separated (min_duration : Q) (l : list Segment) : bool :=
  match l with
  | a :: ((b :: _) as r) =>
      negb (short min_duration a && short min_duration b)
      && separated min_duration r
  | _ => true
  end.

End MergeSpec.

(** ** Vocabulary of further statements about intervals *)

Module Intervals.
Import VideoEditor.

(** The sum of the durations of the intervals of [l]. *)
Definition total_duration (l : list Segment) : Q :=
  fold_right (fun s acc => (end_time s - start_time s) + acc) 0 l.

(** [l] is in chronological order from the time [t] on: every interval
    is non-empty and starts at or after the end of the one before it (at
    or after [t] for the first). *)
Fixpoint chronological_from (t : Q) (l : list Segment) : bool :=
  match l with
  | [] => true
  | a :: r =>
      negb (Py.Qltb (start_time a) t)
      && Py.Qltb (start_time a) (end_time a)
      && chronological_from (end_time a) r
  end.

Definition chronological (l : list Segment) : bool :=
  match l with
  | [] => true
  | a :: _ => chronological_from (start_time a) l
  end.

(** The interval [s] lies inside the interval [m]. *)
Definition inside (s m : Segment) : Prop :=
  start_time m <= start_time s /\ end_time s <= end_time m.

(** Every interval of the raw remove list reaches into [[0, D)]: it
    starts before [D] and ends after 0. *)
Definition reaches (D : Q) (l : list Segment) : bool :=
  forallb (fun a => Py.Qltb (start_time a) D && Py.Qltb 0 (end_time a)) l.

End Intervals.

(** ** video_editor.py: the tracklist entry point *)

Module Tracklist.
Import Strings.String.
Import VideoEditor.

(** The entries of a track that [edit_video_from_tracklist] reads.
    [None] is a missing key (for the times also the JSON value [null]);
    [compatibility] is the dictionary under that key, given by the value
    of its ['status'] entry.  Status values are strings and times are
    numbers. *)
Record Track : Type := mkTrack {
  status : option string;
  compatibility : option (option string);
  track_start_time : option Q;
  track_end_time : option Q
}.

(** [is_blocked] at the end of the tests on one track. *)
Definition is_blocked (track : Track) : bool :=
  match status track with
  | Some s => String.eqb s "blocked"
  | None =>
      match compatibility track with
      | Some c =>
          match c with
          | Some s => String.eqb s "blocked"
          | None => false
          end
      | None => false
      end
  end.

(** The segment that the loop appends for one track, if any. *)
Definition track_segment (track : Track) : list Segment :=
  if is_blocked track then
    match track_start_time track, track_end_time track with
    | Some start_time, Some end_time =>
        [ {| start_time := Py.float start_time;
             end_time := Py.float end_time |} ]
    | _, _ => []
    end
  else [].

(** [segments_to_remove] when the loop over the tracks ends. *)
Definition blocked_segments (tracks : list Track) : list Segment :=
  flat_map track_segment tracks.

(** The new dictionaries of [segments_to_remove] in the store: one new
    object per segment, at the locations [next], [next + 1], ... *)
Fixpoint alloc (next : loc) (segments : list Segment)
    (h : gmap loc Segment) : gmap loc Segment * list loc :=
  match segments with
  | [] => (h, [])
  | s :: rest =>
      let (h', refs) := alloc (Pos.succ next) rest (<[next := s]> h) in
      (h', next :: refs)
  end.

(** [edit_video_from_tracklist(video_path, tracklist_path, output_path)]
    on the tracks read from the file, down to the spans that [edit_video]
    extracts. *)
Definition edit_video_from_tracklist (min_segment_duration : Q)
    (tracks : list Track) (video_duration : Q) : option outcome :=
  let (h, segments_to_remove) :=
    alloc 1%positive (blocked_segments tracks) ∅ in
  snd <$> edit_video min_segment_duration h segments_to_remove
                     video_duration.

(** Status values for examples. *)
Definition blocked : string := "blocked".
Definition available : string := "available".

End Tracklist.

(** ** thumbnail_generator.py: the loops over the frames *)

Module FrameLoops.

(** [l[:k]] *)
Definition slice_to {A} (l : list A) (k : Z) : list A :=
  if (k <? 0)%Z
  then firstn (Z.to_nat (Z.of_nat (length l) + k)) l
  else firstn (Z.to_nat k) l.

(** [l[i]]; [None] is the [IndexError]. *)
Definition getitem {A} (l : list A) (i : Z) : option A :=
  if (i <? 0)%Z
  then
    if (Z.of_nat (length l) + i <? 0)%Z then None
    else l !! Z.to_nat (Z.of_nat (length l) + i)
  else l !! Z.to_nat i.

(** [[l[i] for i in indices]] *)
Fixpoint gather {A} (l : list A) (indices : list Z) : option (list A) :=
  match indices with
  | [] => Some []
  | i :: rest =>
      match getitem l i with
      | None => None
      | Some x =>
          match gather l rest with
          | None => None
          | Some xs => Some (x :: xs)
          end
      end
  end.

Section Loops.

(** The decoder and the quality gate: [read i] is
    [video.set(POS_FRAMES, i)] followed by [video.read()], with [None]
    when the read fails; [good frame] is [_is_good_quality_frame(frame)];
    [fps] is the frame rate of the video. *)
Context {Frame : Type}.
Variable read : Z -> option Frame.
Variable good : Frame -> bool.
Variable fps : Q.

(** [frame_idx / fps if fps > 0 else 0]: an [int] divided by a float. *)
Definition timestamp (frame_idx : Z) : Q :=
  if Py.Qltb 0 fps then Py.fdiv (Py.float_of_int frame_idx) fps else 0.

(** The loop [for frame_idx in frame_indices] of
    [_extract_uniform_frames]. *)
Fixpoint uniform_loop (frame_indices : list Z) : list (Frame * Q) :=
  match frame_indices with
  | [] => []
  | frame_idx :: rest =>
      match read frame_idx with
      | None => uniform_loop rest
      | Some frame =>
          if good frame
          then (frame, timestamp frame_idx) :: uniform_loop rest
          else uniform_loop rest
      end
  end.

(** The loop [for frame_idx in frame_indices] of
    [_extract_random_frames], with its [break], on the frames collected
    so far. *)
Fixpoint random_loop (num_frames : Z) (frame_indices : list Z)
    (frames : list (Frame * Q)) : list (Frame * Q) :=
  match frame_indices with
  | [] => frames
  | frame_idx :: rest =>
      match read frame_idx with
      | None => random_loop num_frames rest frames
      | Some frame =>
          if good frame
          then
            let frames := frames ++ [(frame, timestamp frame_idx)] in
            if (num_frames <=? Z.of_nat (length frames))%Z
            then frames
            else random_loop num_frames rest frames
          else random_loop num_frames rest frames
      end
  end.

(** [_extract_random_frames] once [random.sample] has drawn
    [frame_indices]. *)
Definition random_frames (num_frames : Z) (frame_indices : list Z)
  : list (Frame * Q) :=
  random_loop num_frames frame_indices [].

(** [top_frames] of [_extract_key_moment_frames] after the selection of
    evenly spaced entries, from [frame_diffs].  [None] is an
    [IndexError] or the [ZeroDivisionError] of
    [len(top_frames) / num_frames]. *)
Definition key_moment_top_frames (num_frames : Z)
    (frame_diffs : list (Z * Q * Frame)) : option (list (Z * Q * Frame)) :=
  let frame_diffs :=
    Py.sort_by_key_reverse (fun x => snd (fst x)) frame_diffs in
  let top_frames :=
    slice_to frame_diffs
             (Z.min (num_frames * 2) (Z.of_nat (length frame_diffs))) in
  let top_frames :=
    Py.sorted_by_key (fun x => inject_Z (fst (fst x))) top_frames in
  if (num_frames <? Z.of_nat (length top_frames))%Z
  then
    if (num_frames =? 0)%Z then None
    else
      let step := Py.truediv (Z.of_nat (length top_frames)) num_frames in
      let selected_indices :=
        List.map (fun i => Py.int (Py.fmul (Py.float_of_int i) step))
                 (Py.range num_frames) in
      gather top_frames selected_indices
  else Some top_frames.

(** The last loop of [_extract_key_moment_frames]. *)
Fixpoint key_moment_loop (top_frames : list (Z * Q * Frame))
  : list (Frame * Q) :=
  match top_frames with
  | [] => []
  | (frame_idx, _, frame) :: rest =>
      if good frame
      then (frame, timestamp frame_idx) :: key_moment_loop rest
      else key_moment_loop rest
  end.

End Loops.

End FrameLoops.

(** * Properties *)

(** ** Facts about the built-ins *)

Section PyFacts.

Lemma Qltb_lt (x y : Q) : Py.Qltb x y = true <-> x < y.
Proof. unfold Py.Qltb, Qlt. apply Z.ltb_lt. Qed.

Lemma Qltb_ge (x y : Q) : Py.Qltb x y = false <-> y <= x.
Proof. unfold Py.Qltb, Qle. rewrite Z.ltb_ge. reflexivity. Qed.

Lemma Qltb_spec (x y : Q) : reflect (x < y) (Py.Qltb x y).
Proof.
  destruct (Py.Qltb x y) eqn:E; constructor.
  - now apply Qltb_lt.
  - apply Qltb_ge in E. lra.
Qed.

End PyFacts.

(** ** Rounding to binary64 *)

Section Binary64.

Lemma pow2_pos (k : Z) : 0 < 2 ^ k.
Proof. apply Qpower_0_lt. reflexivity. Qed.

Lemma pow2_plus (a b : Z) : 2 ^ (a + b) == 2 ^ a * 2 ^ b.
Proof. apply Qpower_plus. discriminate. Qed.

Lemma pow2_le (a b : Z) : (a <= b)%Z -> 2 ^ a <= 2 ^ b.
Proof. intros H. apply Qpower_le_compat_l; [exact H | discriminate]. Qed.

Lemma pow2_lt (a b : Z) : (a < b)%Z -> 2 ^ a < 2 ^ b.
Proof. intros H. apply Qpower_lt_compat_l; [exact H | reflexivity]. Qed.

Lemma pow2_lt_inv (a b : Z) : 2 ^ a < 2 ^ b -> (a < b)%Z.
Proof. intros H. apply (Qpower_lt_compat_l_inv 2); [exact H | reflexivity]. Qed.

Lemma pow2_Z (n : Z) : (0 <= n)%Z -> inject_Z (2 ^ n) == 2 ^ n.
Proof. intros H. now rewrite Zpower_Qpower. Qed.

Lemma Qmake_div (a : Z) (b : positive) : a # b == inject_Z a / inject_Z (Z.pos b).
Proof. apply Qmake_Qdiv. Qed.

Lemma ilog2_spec (x : Q) :
  0 < x -> 2 ^ Py.ilog2 x <= x /\ x < 2 ^ (Py.ilog2 x + 1).
Proof.
  intros Hx. destruct x as [a b].
  assert (Ha : (0 < a)%Z) by (unfold Qlt in Hx; simpl in Hx; lia).
  unfold Py.ilog2. cbn [Qnum Qden].
  set (la := Z.log2 a). set (lb := Z.log2 (Z.pos b)).
  destruct (Z.log2_spec a Ha) as [Ha1 Ha2]. fold la in Ha1, Ha2.
  destruct (Z.log2_spec (Z.pos b) eq_refl) as [Hb1 Hb2]. fold lb in Hb1, Hb2.
  assert (Hla : (0 <= la)%Z) by apply Z.log2_nonneg.
  assert (Hlb : (0 <= lb)%Z) by apply Z.log2_nonneg.
  assert (Qa1 : 2 ^ la <= inject_Z a).
  { rewrite <- pow2_Z by exact Hla. rewrite <- Zle_Qle. exact Ha1. }
  assert (Qa2 : inject_Z a < 2 ^ (la + 1)).
  { rewrite <- pow2_Z by lia. rewrite <- Zlt_Qlt. exact Ha2. }
  assert (Qb1 : 2 ^ lb <= inject_Z (Z.pos b)).
  { rewrite <- pow2_Z by exact Hlb. rewrite <- Zle_Qle. exact Hb1. }
  assert (Qb2 : inject_Z (Z.pos b) < 2 ^ (lb + 1)).
  { rewrite <- pow2_Z by lia. rewrite <- Zlt_Qlt. exact Hb2. }
  assert (Qb : 0 < inject_Z (Z.pos b)) by reflexivity.
  assert (Hx' : a # b == inject_Z a / inject_Z (Z.pos b)) by apply Qmake_Qdiv.
  assert (Pa := pow2_pos la). assert (Pb := pow2_pos lb).
  destruct (Qle_bool (2 ^ (la - lb)) (a # b)) eqn:E.
  - apply Qle_bool_iff in E. split; [exact E |].
    rewrite Hx'. apply Qlt_shift_div_r; [exact Qb |].
    replace (la - lb + 1)%Z with ((la + 1) + - lb)%Z by lia.
    rewrite pow2_plus, Qpower_opp.
    assert (H1 : inject_Z a * 2 ^ lb < 2 ^ (la + 1) * inject_Z (Z.pos b)).
    { apply Qlt_le_trans with (2 ^ (la + 1) * 2 ^ lb).
      - apply Qmult_lt_compat_r; assumption.
      - apply Qmult_le_l; [apply pow2_pos | exact Qb1]. }
    apply Qlt_shift_div_l in H1; [| exact Pb].
    unfold Qdiv in H1. eapply Qlt_le_trans; [exact H1 |].
    apply Qle_lteq. right. ring.
  - assert (E' : ~ 2 ^ (la - lb) <= a # b).
    { intros H. apply Qle_bool_iff in H. congruence. }
    apply Qnot_le_lt in E'. split.
    + rewrite Hx'. apply Qle_shift_div_l; [exact Qb |].
      replace (la - lb - 1)%Z with (la + - (lb + 1))%Z by lia.
      rewrite pow2_plus, Qpower_opp.
      assert (H1 : 2 ^ la * inject_Z (Z.pos b) <= inject_Z a * 2 ^ (lb + 1)).
      { apply Qle_trans with (2 ^ la * 2 ^ (lb + 1)).
        - apply Qmult_le_l; [exact Pa | apply Qlt_le_weak; exact Qb2].
        - apply Qmult_le_compat_r; [exact Qa1 |]. apply Qlt_le_weak, pow2_pos. }
      apply Qle_shift_div_r in H1; [| apply pow2_pos].
      unfold Qdiv in H1. eapply Qle_trans; [| exact H1].
      apply Qle_lteq. right. ring.
    + replace (la - lb - 1 + 1)%Z with (la - lb)%Z by lia. exact E'.
Qed.

Lemma ilog2_unique (x : Q) (e : Z) :
  2 ^ e <= x -> x < 2 ^ (e + 1) -> Py.ilog2 x = e.
Proof.
  intros H1 H2.
  assert (Hx : 0 < x) by (eapply Qlt_le_trans; [apply (pow2_pos e) | exact H1]).
  destruct (ilog2_spec x Hx) as [H3 H4].
  assert (e < Py.ilog2 x + 1)%Z
    by (apply pow2_lt_inv; eapply Qle_lt_trans; eassumption).
  assert (Py.ilog2 x < e + 1)%Z
    by (apply pow2_lt_inv; eapply Qle_lt_trans; eassumption).
  lia.
Qed.

Lemma ilog2_mono (x y : Q) : 0 < x -> x <= y -> (Py.ilog2 x <= Py.ilog2 y)%Z.
Proof.
  intros Hx Hxy.
  assert (Hy : 0 < y) by (eapply Qlt_le_trans; eassumption).
  destruct (ilog2_spec x Hx) as [H1 _]. destruct (ilog2_spec y Hy) as [_ H2].
  assert (Py.ilog2 x < Py.ilog2 y + 1)%Z; [| lia].
  apply pow2_lt_inv. eapply Qle_lt_trans; [exact H1 |].
  eapply Qle_lt_trans; eassumption.
Qed.


Lemma round_half_even_comp (x y : Q) :
  x == y -> Py.round_half_even x = Py.round_half_even y.
Proof.
  intros H. unfold Py.round_half_even. rewrite (Qfloor_comp _ _ H).
  assert (E : Qcompare (x - inject_Z (Qfloor y)) (1 # 2)
              = Qcompare (y - inject_Z (Qfloor y)) (1 # 2)).
  { apply Qcompare_comp; [| reflexivity]. rewrite H. reflexivity. }
  now rewrite E.
Qed.

Lemma round_half_even_Z (z : Z) : Py.round_half_even (inject_Z z) = z.
Proof.
  unfold Py.round_half_even. rewrite Qfloor_Z.
  destruct (Qcompare_spec (inject_Z z - inject_Z z) (1 # 2)) as [H | H | H];
    solve [reflexivity | exfalso; lra].
Qed.

Lemma floor_bounds (x : Q) :
  inject_Z (Qfloor x) <= x /\ x < inject_Z (Qfloor x) + 1.
Proof.
  split; [apply Qfloor_le |].
  generalize (Qlt_floor x). rewrite inject_Z_plus. tauto.
Qed.

Lemma round_half_even_bounds (x : Q) :
  x - (1 # 2) <= inject_Z (Py.round_half_even x)
  /\ inject_Z (Py.round_half_even x) <= x + (1 # 2).
Proof.
  unfold Py.round_half_even. destruct (floor_bounds x) as [H1 H2].
  destruct (Qcompare_spec (x - inject_Z (Qfloor x)) (1 # 2)) as [H | H | H];
    [destruct (Z.even (Qfloor x)) | |];
    rewrite ?inject_Z_plus; change (inject_Z 1) with 1; lra.
Qed.

Lemma round_half_even_mono (x y : Q) :
  x <= y -> (Py.round_half_even x <= Py.round_half_even y)%Z.
Proof.
  intros Hxy.
  assert (Hf : (Qfloor x <= Qfloor y)%Z) by now apply Qfloor_resp_le.
  destruct (floor_bounds x) as [X1 X2]. destruct (floor_bounds y) as [Y1 Y2].
  assert (Hx : (Qfloor x <= Py.round_half_even x <= Qfloor x + 1)%Z).
  { unfold Py.round_half_even.
    destruct (Qcompare (x - inject_Z (Qfloor x)) (1 # 2));
      [destruct (Z.even (Qfloor x)) | |]; lia. }
  assert (Hy : (Qfloor y <= Py.round_half_even y <= Qfloor y + 1)%Z).
  { unfold Py.round_half_even.
    destruct (Qcompare (y - inject_Z (Qfloor y)) (1 # 2));
      [destruct (Z.even (Qfloor y)) | |]; lia. }
  destruct (Z.eq_dec (Qfloor x) (Qfloor y)) as [E | E]; [| lia].
  unfold Py.round_half_even in *. rewrite E in *.
  destruct (Qcompare_spec (x - inject_Z (Qfloor y)) (1 # 2)) as [H | H | H];
    destruct (Qcompare_spec (y - inject_Z (Qfloor y)) (1 # 2)) as [H' | H' | H'];
    try (exfalso; lra); destruct (Z.even (Qfloor y)); lia.
Qed.

(** The exponent of the last place of a positive [x]. *)
Definition ulp_exponent (x : Q) : Z := Z.max (Py.ilog2 x - 52) (-1074).

Lemma round64_pos (x : Q) :
  0 < x ->
  Py.round64 x
  = inject_Z (Py.round_half_even (x / 2 ^ ulp_exponent x)) * 2 ^ ulp_exponent x.
Proof.
  intros Hx. unfold Py.round64.
  destruct (Qeq_bool x 0) eqn:E.
  - apply Qeq_bool_iff in E. exfalso. lra.
  - destruct x as [a b]. assert (Ha : (0 < a)%Z) by (unfold Qlt in Hx; simpl in Hx; lia).
    unfold Qabs. rewrite (Z.abs_eq a) by lia. reflexivity.
Qed.

Lemma round64_0 (x : Q) : x == 0 -> Py.round64 x = 0.
Proof.
  intros H. unfold Py.round64. apply Qeq_bool_iff in H. now rewrite H.
Qed.

Lemma ulp_exponent_comp (x y : Q) :
  0 < x -> x == y -> ulp_exponent x = ulp_exponent y.
Proof.
  intros Hx H. unfold ulp_exponent. f_equal. f_equal.
  destruct (ilog2_spec x Hx) as [H1 H2].
  symmetry. apply ilog2_unique; rewrite <- H; assumption.
Qed.

Lemma round64_nonneg_comp (x y : Q) :
  0 <= x -> x == y -> Py.round64 x == Py.round64 y.
Proof.
  intros Hx H. destruct (Qle_lt_or_eq _ _ Hx) as [Hpos | H0].
  - rewrite !round64_pos by lra.
    rewrite <- (ulp_exponent_comp x y Hpos H).
    rewrite (round_half_even_comp (x / 2 ^ ulp_exponent x) (y / 2 ^ ulp_exponent x)).
    + reflexivity.
    + unfold Qdiv. apply Qmult_comp; [exact H | reflexivity].
  - rewrite (round64_0 x) by (symmetry; exact H0).
    rewrite (round64_0 y) by (rewrite <- H; symmetry; exact H0). reflexivity.
Qed.

(** A positive multiple of [2 ^ k] is kept by the rounding to the grid of
    step [2 ^ k]. *)
Lemma grid_exact (m k : Z) (x : Q) :
  x == inject_Z m * 2 ^ k ->
  inject_Z (Py.round_half_even (x / 2 ^ k)) * 2 ^ k == x.
Proof.
  intros H.
  rewrite (round_half_even_comp (x / 2 ^ k) (inject_Z m)).
  - rewrite round_half_even_Z. now rewrite H.
  - rewrite H. field. apply Qpower_not_0. discriminate.
Qed.

Lemma grid_mono (k : Z) (x y : Q) :
  x <= y ->
  inject_Z (Py.round_half_even (x / 2 ^ k)) * 2 ^ k
  <= inject_Z (Py.round_half_even (y / 2 ^ k)) * 2 ^ k.
Proof.
  intros H. apply Qmult_le_compat_r; [| apply Qlt_le_weak, pow2_pos].
  rewrite <- Zle_Qle. apply round_half_even_mono.
  apply Qmult_le_compat_r; [exact H |].
  apply Qlt_le_weak, Qinv_lt_0_compat, pow2_pos.
Qed.

Lemma pow2_multiple (a k : Z) :
  (k <= a)%Z -> 2 ^ a == inject_Z (2 ^ (a - k)) * 2 ^ k.
Proof.
  intros H. rewrite pow2_Z by lia. rewrite <- pow2_plus.
  now replace (a - k + k)%Z with a by lia.
Qed.

Lemma round64_mono (x y : Q) :
  0 <= x -> x <= y -> Py.round64 x <= Py.round64 y.
Proof.
  intros Hx Hxy. destruct (Qle_lt_or_eq _ _ Hx) as [Hpos | H0].
  - assert (Hy : 0 < y) by lra.
    rewrite (round64_pos x Hpos), (round64_pos y Hy).
    assert (He := ilog2_mono x y Hpos Hxy).
    destruct (Z.eq_dec (ulp_exponent x) (ulp_exponent y)) as [E | E].
    + rewrite E. now apply grid_mono.
    + unfold ulp_exponent in *.
      set (ex := Py.ilog2 x) in *. set (ey := Py.ilog2 y) in *.
      destruct (ilog2_spec x Hpos) as [_ X2]. destruct (ilog2_spec y Hy) as [Y1 _].
      fold ex in X2. fold ey in Y1.
      assert (Hlt : (ex < ey)%Z) by lia.
      assert (HB : x <= 2 ^ ey).
      { apply Qlt_le_weak. eapply Qlt_le_trans; [exact X2 |]. apply pow2_le. lia. }
      apply Qle_trans with (2 ^ ey).
      * eapply Qle_trans; [apply grid_mono; exact HB |].
        apply Qle_lteq. right.
        apply (grid_exact (2 ^ (ey - Z.max (ex - 52) (-1074)))).
        apply pow2_multiple. lia.
      * eapply Qle_trans; [| apply grid_mono; exact Y1].
        apply Qle_lteq. right. symmetry.
        apply (grid_exact (2 ^ (ey - Z.max (ey - 52) (-1074)))).
        apply pow2_multiple. lia.
  - rewrite (round64_0 x) by (symmetry; exact H0).
    destruct (Qle_lt_or_eq _ _ (Qle_trans _ _ _ Hx Hxy)) as [Hy | Hy].
    + rewrite (round64_pos y Hy).
      apply Qmult_le_0_compat; [| apply Qlt_le_weak, pow2_pos].
      change 0 with (inject_Z 0). rewrite <- Zle_Qle.
      rewrite <- (round_half_even_Z 0). apply round_half_even_mono.
      apply Qle_shift_div_l; [apply pow2_pos |].
      rewrite Qmult_0_l. lra.
    + rewrite (round64_0 y) by (symmetry; exact Hy). lra.
Qed.


(** Half a unit in the last place, relative to the value: [2 ^ -53]. *)
Definition eps : Q := 2 ^ (-53).

Lemma eps_pos : 0 < eps.
Proof. reflexivity. Qed.

Lemma round64_int (z : Z) :
  (0 <= z <= 2 ^ 53)%Z -> Py.round64 (inject_Z z) == inject_Z z.
Proof.
  intros Hz. destruct (Z.eq_dec z 0%Z) as [-> | Hne]; [reflexivity |].
  assert (Hpos : 0 < inject_Z z) by (change 0 with (inject_Z 0); rewrite <- Zlt_Qlt; lia).
  rewrite (round64_pos _ Hpos). unfold ulp_exponent.
  destruct (ilog2_spec _ Hpos) as [H1 H2].
  set (e := Py.ilog2 (inject_Z z)) in *.
  assert (Hz53 : inject_Z z <= 2 ^ 53).
  { rewrite <- pow2_Z by lia. rewrite <- Zle_Qle. lia. }
  assert (He : (e <= 53)%Z).
  { assert (e < 54)%Z; [| lia]. apply pow2_lt_inv.
    eapply Qle_lt_trans; [exact H1 |]. eapply Qle_lt_trans; [exact Hz53 |].
    reflexivity. }
  destruct (Z.eq_dec e 53%Z) as [E | E].
  - assert (Hz' : z = (2 ^ 53)%Z).
    { apply Z.le_antisymm; [lia |]. rewrite Zle_Qle, pow2_Z by lia.
      now rewrite E in H1. }
    rewrite E. apply (grid_exact (2 ^ 52)). rewrite Hz'. reflexivity.
  - set (k := Z.max (e - 52) (-1074)). assert (Hk : (k <= 0)%Z) by lia.
    apply (grid_exact (z * 2 ^ (- k))).
    rewrite inject_Z_mult, pow2_Z by lia.
    rewrite <- Qmult_assoc, <- pow2_plus.
    replace (- k + k)%Z with 0%Z by lia. ring.
Qed.

Lemma round64_error (x : Q) :
  2 ^ (-1022) <= x ->
  x * (1 - eps) <= Py.round64 x /\ Py.round64 x <= x * (1 + eps).
Proof.
  intros Hx.
  assert (Hpos : 0 < x) by (eapply Qlt_le_trans; [| exact Hx]; reflexivity).
  rewrite (round64_pos _ Hpos). unfold ulp_exponent.
  destruct (ilog2_spec _ Hpos) as [H1 H2].
  set (e := Py.ilog2 x) in *.
  assert (He : (-1022 <= e)%Z).
  { assert (-1022 < e + 1)%Z; [| lia]. apply pow2_lt_inv.
    eapply Qle_lt_trans; eassumption. }
  replace (Z.max (e - 52) (-1074)) with (e - 52)%Z by lia.
  set (k := (e - 52)%Z).
  destruct (round_half_even_bounds (x / 2 ^ k)) as [B1 B2].
  set (r := inject_Z (Py.round_half_even (x / 2 ^ k))) in *.
  assert (Pk := pow2_pos k).
  assert (Hm : x / 2 ^ k * 2 ^ k == x).
  { field. apply Qpower_not_0. discriminate. }
  assert (Hhalf : (1 # 2) * 2 ^ k <= x * eps).
  { unfold eps. apply Qle_trans with (2 ^ e * 2 ^ (-53)).
    - apply Qle_lteq. right. unfold k.
      replace (e - 52)%Z with (e + -53 + 1)%Z by lia.
      rewrite !pow2_plus. change (2 ^ 1) with 2. ring.
    - apply Qmult_le_compat_r; [exact H1 | discriminate]. }
  assert (L : (x / 2 ^ k - (1 # 2)) * 2 ^ k <= r * 2 ^ k)
    by (apply Qmult_le_compat_r; [exact B1 | lra]).
  assert (U : r * 2 ^ k <= (x / 2 ^ k + (1 # 2)) * 2 ^ k)
    by (apply Qmult_le_compat_r; [exact B2 | lra]).
  assert (L' : (x / 2 ^ k - (1 # 2)) * 2 ^ k == x - (1 # 2) * 2 ^ k)
    by (rewrite <- Hm at 2; ring).
  assert (U' : (x / 2 ^ k + (1 # 2)) * 2 ^ k == x + (1 # 2) * 2 ^ k)
    by (rewrite <- Hm at 2; ring).
  rewrite L' in L. rewrite U' in U.
  set (h := (1 # 2) * 2 ^ k) in *. set (xe := x * eps) in *.
  split.
  - apply Qle_trans with (x - xe); [| lra].
    apply Qle_lteq. right. unfold xe. ring.
  - apply Qle_trans with (x + xe); [lra |].
    apply Qle_lteq. right. unfold xe. ring.
Qed.

End Binary64.

(** ** The rounding against the reference implementation

    [SpecFloat] is the specification of IEEE 754 arithmetic of the
    Standard Library, on binary floats [m * 2 ^ e].  The operations of
    [Py] give the values of its binary64 operations; they are compared
    here on the operations of the code at inputs where the rounding
    matters, on ties and on a subnormal number. *)

Section Reference.

(** The value of a finite float. *)
Definition SF2Q (f : SpecFloat.spec_float) : Q :=
  match f with
  | SpecFloat.S754_finite s m e =>
      (if s then -1 else 1) * inject_Z (Z.pos m) * 2 ^ e
  | _ => 0
  end.

(** The binary64 float of an integer, and the four operations. *)
Definition Z2SF (n : Z) : SpecFloat.spec_float :=
  SpecFloat.binary_normalize 53 1024 n 0 false.

Definition SFadd64 := SpecFloat.SFadd 53 1024.
Definition SFsub64 := SpecFloat.SFsub 53 1024.
Definition SFmul64 := SpecFloat.SFmul 53 1024.
Definition SFdiv64 := SpecFloat.SFdiv 53 1024.

Lemma round64_reference :
  (* the step, the product and the sum of an index of the uniform
     strategy: 22 indices from 33 frames, index number 11 *)
  SF2Q (SFdiv64 (Z2SF 30) (Z2SF 22)) == Py.truediv 30 22
  /\ SF2Q (SFmul64 (Z2SF 11) (SFdiv64 (Z2SF 30) (Z2SF 22)))
     == Py.fmul (Py.float_of_int 11) (Py.truediv 30 22)
  /\ SF2Q (SFadd64 (Z2SF 1)
                   (SFmul64 (Z2SF 11) (SFdiv64 (Z2SF 30) (Z2SF 22))))
     == Py.fadd (Py.float_of_int 1)
                (Py.fmul (Py.float_of_int 11) (Py.truediv 30 22))
  (* a duration that rounds up: 5 - 2^-60 *)
  /\ SF2Q (SFsub64 (Z2SF 5) (SFdiv64 (Z2SF 1) (Z2SF (2 ^ 60))))
     == Py.fsub 5 (1 # 2 ^ 60)
  (* a negative difference of two floats that are not integers *)
  /\ SF2Q (SFsub64 (SFdiv64 (Z2SF 1) (Z2SF 10)) (SFdiv64 (Z2SF 3) (Z2SF 10)))
     == Py.fsub (Py.truediv 1 10) (Py.truediv 3 10)
  (* a timestamp *)
  /\ SF2Q (SFdiv64 (Z2SF 21) (SFdiv64 (Z2SF 2997) (Z2SF 100)))
     == Py.fdiv (Py.float_of_int 21) (Py.truediv 2997 100)
  (* ties go to the even significand *)
  /\ SF2Q (Z2SF (2 ^ 53 + 1)) == Py.float_of_int (2 ^ 53 + 1)
  /\ SF2Q (Z2SF (2 ^ 53 + 3)) == Py.float_of_int (2 ^ 53 + 3)
  (* a subnormal quotient *)
  /\ SF2Q (SFdiv64 (Z2SF 3) (Z2SF (2 ^ 1023) ))
     == Py.truediv 3 (2 ^ 1023)
  /\ SF2Q (SFdiv64 (SFdiv64 (Z2SF 3) (Z2SF (2 ^ 1023))) (Z2SF (2 ^ 51 + 1)))
     == Py.fdiv (Py.truediv 3 (2 ^ 1023)) (Py.float_of_int (2 ^ 51 + 1)).
Proof.
  repeat split; apply Qeq_bool_iff; vm_compute; reflexivity.
Qed.

End Reference.

(** Case analysis on every float comparison of the goal. *)
Ltac cmp_cases :=
  repeat match goal with
         | |- context [Py.Qltb ?a ?b] =>
             let E := fresh "E" in destruct (Qltb_spec a b) as [E | E]
         end.

Section StableSort.

Context {A : Type} (before : A -> A -> bool).

Lemma insert_by_perm (x : A) (l : list A) :
  Permutation (Py.insert_by before x l) (x :: l).
Proof.
  induction l as [| y r IH]; simpl.
  - reflexivity.
  - destruct (before x y).
    + reflexivity.
    + rewrite IH. apply perm_swap.
Qed.

Lemma stable_sort_perm (l : list A) :
  Permutation (Py.stable_sort before l) l.
Proof.
  induction l as [| x r IH]; simpl.
  - reflexivity.
  - rewrite insert_by_perm. now constructor.
Qed.

Hypothesis before_total : forall a b, before a b = true \/ before b a = true.
Hypothesis before_trans :
  forall a b c, before a b = true -> before b c = true -> before a c = true.

(** The order of the result: [a] stands in front of [b] only if it may,
    and if [b] might as well stand in front of [a], the two are in their
    original order [R0]. *)
Definition ranked_by (R0 : A -> A -> Prop) (a b : A) : Prop :=
  before a b = true /\ (before b a = true -> R0 a b).

Lemma insert_by_ranked (R0 : A -> A -> Prop) (x : A) (l : list A) :
  Forall (R0 x) l ->
  StronglySorted (ranked_by R0) l ->
  StronglySorted (ranked_by R0) (Py.insert_by before x l).
Proof.
  intros Hx Hs. induction Hs as [| y r Hs IH Hy]; simpl.
  - repeat constructor.
  - apply Forall_cons_1 in Hx as [Hxy Hxr].
    destruct (before x y) eqn:E.
    + constructor; [now constructor |].
      constructor; [split; auto |].
      clear IH Hs. induction Hy as [| z r' [Hyz _] _ IHr]; constructor.
      * split; [eauto |]. intros _. now apply Forall_cons_1 in Hxr as [? _].
      * apply IHr. now apply Forall_cons_1 in Hxr as [_ ?].
    + constructor; [auto |].
      apply (Permutation_Forall (Permutation_sym (insert_by_perm x r))).
      constructor; [| exact Hy].
      split; [| congruence].
      destruct (before_total x y); congruence.
Qed.

Lemma stable_sort_ranked (R0 : A -> A -> Prop) (l : list A) :
  StronglySorted R0 l ->
  StronglySorted (ranked_by R0) (Py.stable_sort before l).
Proof.
  induction 1 as [| x r Hs IH Hx]; simpl.
  - constructor.
  - apply insert_by_ranked; [| exact IH].
    now apply (Permutation_Forall (Permutation_sym (stable_sort_perm r))).
Qed.

Lemma StronglySorted_weaken (R R' : A -> A -> Prop) (l : list A) :
  (forall a b, R a b -> R' a b) ->
  StronglySorted R l -> StronglySorted R' l.
Proof.
  intros HR. induction 1 as [| x r _ IH Hx]; constructor; [exact IH |].
  eapply List.Forall_impl; [| exact Hx]. intros b. apply HR.
Qed.

Lemma stable_sort_sorted (l : list A) :
  StronglySorted (fun a b => before a b = true) (Py.stable_sort before l).
Proof.
  assert (H0 : StronglySorted (fun _ _ : A => True) l).
  { induction l; constructor; auto. now apply Forall_forall. }
  apply (stable_sort_ranked _ _) in H0.
  eapply StronglySorted_weaken; [| exact H0]. now intros a b [? _].
Qed.

End StableSort.

(** ** The complement of the remove set *)

Section Complement.
Import VideoEditor Timeline.

(** The keep set computed from a cursor [t]: what is left of [[t, D)]
    once the intervals of [r] are taken out. *)
Fixpoint gaps_from (t : Q) (r : list Segment) (D : Q) : list Segment :=
  match r with
  | [] =>
      if Py.Qltb t D then [ {| start_time := t; end_time := D |} ] else []
  | x :: r' =>
      (if Py.Qltb t (start_time x)
       then [ {| start_time := t; end_time := start_time x |} ] else [])
      ++ gaps_from (end_time x) r' D
  end.

Lemma last_cons_default {A} (y : A) (r : list A) (d d' : A) :
  List.last (y :: r) d = List.last (y :: r) d'.
Proof.
  revert y. induction r as [| z r IH]; intros y; [reflexivity |].
  change (List.last (z :: r) d = List.last (z :: r) d'). apply IH.
Qed.

Lemma between_gaps (x : Segment) (r : list Segment) (D : Q) :
  between (x :: r)
  ++ (if Py.Qltb (end_time (List.last (x :: r) x)) D
      then [ {| start_time := end_time (List.last (x :: r) x);
                end_time := D |} ]
      else [])
  = gaps_from (end_time x) r D.
Proof.
  revert x. induction r as [| y r IH]; intros x.
  - reflexivity.
  - change (between (x :: y :: r))
      with ((if Py.Qltb (end_time x) (start_time y)
             then [ {| start_time := end_time x;
                       end_time := start_time y |} ] else [])
            ++ between (y :: r)).
    rewrite <- app_assoc. simpl gaps_from. f_equal.
    rewrite <- (IH y).
    change (List.last (x :: y :: r) x) with (List.last (y :: r) x).
    now rewrite (last_cons_default y r x y).
Qed.

Lemma keep_gaps (x : Segment) (r : list Segment) (D : Q) :
  _get_segments_to_keep (x :: r) D = gaps_from 0 (x :: r) D.
Proof.
  unfold _get_segments_to_keep. cbv zeta.
  rewrite between_gaps. reflexivity.
Qed.

(** The remove set as a chain from [t] to [D]: each interval is
    non-empty, starts at or after the end of the one before it (at or
    after [t] for the first), and the last one ends at or before [D]. *)
Fixpoint chain (t : Q) (r : list Segment) (D : Q) : Prop :=
  match r with
  | [] => t <= D
  | x :: r' =>
      t <= start_time x /\ start_time x < end_time x
      /\ chain (end_time x) r' D
  end.

Lemma chain_intro (D : Q) (r : list Segment) :
  sorted_by_start r = true ->
  non_overlapping r = true ->
  positive_duration r = true ->
  within D r = true ->
  forall t, t <= D -> (forall x, head r = Some x -> t <= start_time x) ->
  chain t r D.
Proof.
  induction r as [| x r IH]; intros Hs Hn Hp Hw t HtD Ht.
  - exact HtD.
  - simpl in Hn, Hp, Hw.
    apply andb_true_iff in Hn as [Hnx Hn].
    apply andb_true_iff in Hp as [Hpx Hp].
    apply andb_true_iff in Hw as [Hwx Hw].
    apply andb_true_iff in Hwx as [Hw0 HwD].
    apply Qltb_lt in Hpx.
    apply negb_true_iff, Qltb_ge in Hw0, HwD.
    simpl. split; [now apply Ht | split; [exact Hpx |]].
    apply IH; auto.
    + destruct r; [reflexivity |]. simpl in Hs.
      now apply andb_true_iff in Hs as [_ Hs].
    + intros y Hy. destruct r as [| y' r]; [discriminate |].
      injection Hy as ->.
      simpl in Hs, Hnx, Hp.
      apply andb_true_iff in Hs as [Hxy _].
      apply andb_true_iff in Hnx as [Hxy' _].
      apply andb_true_iff in Hp as [Hpy _].
      apply negb_true_iff, Qltb_ge in Hxy.
      apply Qltb_lt in Hpy.
      unfold overlap in Hxy'.
      apply negb_true_iff, andb_false_iff in Hxy' as [Hxy' | Hxy'];
        apply Qltb_ge in Hxy'; lra.
Qed.

Lemma gaps_from_lower (D : Q) (r : list Segment) (t : Q) :
  chain t r D ->
  Forall (fun a => t <= start_time a) (gaps_from t r D ++ r).
Proof.
  revert t. induction r as [| x r IH]; intros t Hc; simpl in *.
  - cmp_cases; repeat constructor; simpl; lra.
  - destruct Hc as (Htx & Hx & Hc).
    assert (Hr : Forall (fun a => t <= start_time a)
                        (gaps_from (end_time x) r D ++ r)).
    { eapply List.Forall_impl; [| exact (IH _ Hc)].
      intros a Ha. simpl in Ha. lra. }
    apply Forall_app in Hr as [Hr1 Hr2].
    rewrite <- app_assoc. apply Forall_app. split.
    + cmp_cases; repeat constructor; simpl; lra.
    + apply Forall_app. split; [exact Hr1 |]. constructor; [exact Htx | exact Hr2].
Qed.

(** In a list sorted by start, an element that starts strictly before
    all the others stands first. *)
Lemma sorted_head (l : list Segment) (a : Segment) (m : list Segment) :
  StronglySorted le_start l ->
  Permutation l (a :: m) ->
  Forall (fun b => start_time a < start_time b) m ->
  exists l', l = a :: l' /\ Permutation l' m.
Proof.
  intros Hs Hp Hm.
  destruct l as [| h l'].
  { apply Permutation_nil_cons in Hp. contradiction. }
  assert (Hh : In h (a :: m)).
  { apply (Permutation_in h Hp). now left. }
  destruct Hh as [-> | Hh].
  - exists l'. split; [reflexivity |]. now apply Permutation_cons_inv in Hp.
  - exfalso.
    apply (proj1 (List.Forall_forall _ _) Hm) in Hh.
    assert (Ha : In a (h :: l')).
    { apply (Permutation_in a (Permutation_sym Hp)). now left. }
    apply StronglySorted_inv in Hs as [_ Hs].
    destruct Ha as [-> | Ha].
    + lra.
    + apply (proj1 (List.Forall_forall _ _) Hs) in Ha.
      unfold le_start in Ha. lra.
Qed.

Lemma Qeq_bool_refl (q : Q) : Qeq_bool q q = true.
Proof. apply Qeq_bool_iff. reflexivity. Qed.

(** Any arrangement by start of the keep set and the remove set tiles
    [[t, D)]. *)
Lemma gaps_tile (D : Q) (r : list Segment) :
  forall (t : Q) (l : list Segment),
    chain t r D ->
    Permutation l (gaps_from t r D ++ r) ->
    StronglySorted le_start l ->
    tiles_from t D l = true.
Proof.
  induction r as [| x r IH]; intros t l Hc Hp Hs.
  - simpl in Hc, Hp. rewrite app_nil_r in Hp.
    destruct (Qltb_spec t D) as [E | E].
    + apply Permutation_sym, Permutation_length_1_inv in Hp as ->.
      simpl. rewrite !Qeq_bool_refl.
      now rewrite (proj2 (Qltb_lt t D) E).
    + apply Permutation_sym, Permutation_nil in Hp as ->.
      simpl. apply Qeq_bool_iff. lra.
  - destruct Hc as (Htx & Hx & Hc).
    pose proof (gaps_from_lower D r (end_time x) Hc) as Hlow.
    assert (Hx_first : forall l1,
               StronglySorted le_start l1 ->
               Permutation l1 (gaps_from (end_time x) r D ++ x :: r) ->
               exists l2, l1 = x :: l2 /\ tiles_from (end_time x) D l2 = true).
    { intros l1 Hs1 Hp1.
      rewrite <- Permutation_middle in Hp1.
      destruct (sorted_head l1 x _ Hs1 Hp1) as (l2 & -> & Hp2).
      - eapply List.Forall_impl; [| exact Hlow]. intros a Ha. simpl in Ha. lra.
      - exists l2. split; [reflexivity |].
        apply IH; auto. now apply StronglySorted_inv in Hs1 as [? _]. }
    simpl in Hp. destruct (Qltb_spec t (start_time x)) as [E | E].
    + simpl in Hp.
      destruct (sorted_head l _ _ Hs Hp) as (l1 & -> & Hp1).
      { apply Forall_app. split.
        - apply Forall_app in Hlow as [Hlow _].
          eapply List.Forall_impl; [| exact Hlow].
          intros a Ha. simpl in *. lra.
        - constructor; [simpl; lra |].
          apply Forall_app in Hlow as [_ Hlow].
          eapply List.Forall_impl; [| exact Hlow].
          intros a Ha. simpl in *. lra. }
      apply StronglySorted_inv in Hs as [Hs1 _].
      destruct (Hx_first l1 Hs1 Hp1) as (l2 & -> & Ht).
      simpl. rewrite !Qeq_bool_refl, Ht.
      rewrite (proj2 (Qltb_lt _ _) E), (proj2 (Qltb_lt _ _) Hx).
      reflexivity.
    + simpl in Hp.
      destruct (Hx_first l Hs Hp) as (l2 & -> & Ht).
      simpl. rewrite Ht, (proj2 (Qltb_lt _ _) Hx).
      assert (Heq : start_time x == t) by lra.
      apply Qeq_bool_iff in Heq. now rewrite Heq.
Qed.

Lemma timeline_sorted (keep remove : list Segment) :
  StronglySorted le_start (timeline keep remove).
Proof.
  unfold timeline, Py.sorted_by_key.
  eapply StronglySorted_weaken; [| apply stable_sort_sorted].
  - intros a b Hab. apply negb_true_iff, Qltb_ge in Hab. exact Hab.
  - intros a b.
    destruct (Qltb_spec (start_time b) (start_time a));
      destruct (Qltb_spec (start_time a) (start_time b)); simpl; auto; lra.
  - intros a b c Hab Hbc.
    apply negb_true_iff, Qltb_ge in Hab, Hbc.
    apply negb_true_iff, Qltb_ge. lra.
Qed.

(** C1.  For a duration [D > 0]: the complement of the empty remove set
    is the single interval [[0, D)]; and for a non-empty remove set that
    is sorted by start, pairwise non-overlapping, of positive durations
    and contained in [[0, D)], the intervals of
    [_get_segments_to_keep remove D] and of [remove], taken together and
    sorted by start, tile [[0, D)]: the first starts at 0, each next one
    starts where the one before it ends, and the last ends at [D]. *)
Theorem complement_tiles (D : Q) (remove : list Segment) :
  0 < D ->
  _get_segments_to_keep [] D = [ {| start_time := 0; end_time := D |} ]
  /\ (remove <> [] ->
      sorted_by_start remove = true ->
      non_overlapping remove = true ->
      positive_duration remove = true ->
      within D remove = true ->
      tiles D (timeline (_get_segments_to_keep remove D) remove) = true).
Proof.
  intros HD. split; [reflexivity |].
  intros Hne Hs Hn Hp Hw.
  destruct remove as [| x r]; [contradiction |].
  rewrite keep_gaps. unfold tiles.
  apply (gaps_tile D (x :: r)).
  - apply chain_intro; auto; [lra |].
    intros y Hy. injection Hy as <-.
    simpl in Hw. apply andb_true_iff in Hw as [Hw _].
    apply andb_true_iff in Hw as [Hw _].
    now apply negb_true_iff, Qltb_ge in Hw.
  - apply stable_sort_perm.
  - apply timeline_sorted.
Qed.

Lemma complement_tiles_witness :
  let remove := [ {| start_time := 6; end_time := 12 |};
                  {| start_time := 18; end_time := 24 |} ] in
  _get_segments_to_keep remove 30
  = [ {| start_time := 0; end_time := 6 |};
      {| start_time := 12; end_time := 18 |};
      {| start_time := 24; end_time := 30 |} ]
  /\ tiles 30 (timeline (_get_segments_to_keep remove 30) remove) = true.
Proof.
  split; [reflexivity |].
  apply (complement_tiles 30); [reflexivity | discriminate | | | |];
    reflexivity.
Defined.

End Complement.

(** ** Merging short segments *)

Section MergeShort.
Import VideoEditor MergeSpec.

Variable min_duration : Q.

Lemma set_last_snoc {A} (l : list A) (x y : A) :
  set_last (l ++ [x]) y = Some (l ++ [y]).
Proof.
  unfold set_last. rewrite removelast_last.
  destruct l; reflexivity.
Qed.

(** One iteration of the loop, on an accumulator whose last element is
    [l]. *)
Lemma merge_body_snoc (closed : list Segment) (l segment : Segment) :
  merge_body min_duration (closed ++ [l]) segment
  = Some (if short min_duration segment && short min_duration l
          then closed ++ [extend l segment]
          else closed ++ [l; segment]).
Proof.
  unfold merge_body. rewrite last_snoc. fold (short min_duration segment).
  fold (short min_duration l).
  destruct (short min_duration segment), (short min_duration l); simpl;
    rewrite <- ?app_assoc; try reflexivity.
  now rewrite set_last_snoc.
Qed.

Lemma merge_loop_spec (rest : list Segment) :
  forall (closed : list Segment) (l : Segment),
    merge_loop min_duration (closed ++ [l]) rest
    = Some (let (c, l') :=
              fold_left (merge_short_step min_duration) rest (closed, l) in
            c ++ [l']).
Proof.
  induction rest as [| s rest IH]; intros closed l.
  - reflexivity.
  - simpl merge_loop. rewrite merge_body_snoc.
    change (fold_left (merge_short_step min_duration) (s :: rest) (closed, l))
      with (fold_left (merge_short_step min_duration) rest
              (merge_short_step min_duration (closed, l) s)).
    unfold merge_short_step at 2.
    destruct (short min_duration s && short min_duration l).
    + apply IH.
    + change (closed ++ [l; s]) with (closed ++ [l] ++ [s]).
      rewrite app_assoc. apply IH.
Qed.

Lemma merge_short_refines (first : Segment) (rest : list Segment) :
  _merge_short_segments min_duration (first :: rest)
  = Some (merge_short min_duration first rest).
Proof.
  destruct rest as [| s rest]; [reflexivity |].
  unfold _merge_short_segments, merge_short.
  apply (merge_loop_spec (s :: rest) [] first).
Qed.

Lemma separated_cons (a b : Segment) (r : list Segment) :
  separated min_duration (a :: b :: r)
  = negb (short min_duration a && short min_duration b)
    && separated min_duration (b :: r).
Proof. reflexivity. Qed.

(** The last element of a separated list may be replaced by anything
    when it is short: the element in front of it is long. *)
Lemma separated_replace_last (closed : list Segment) (l x : Segment) :
  separated min_duration (closed ++ [l]) = true ->
  short min_duration l = true ->
  separated min_duration (closed ++ [x]) = true.
Proof.
  intros Hs Hl. induction closed as [| a [| b c] IH].
  - reflexivity.
  - simpl in *. rewrite Hl in Hs.
    destruct (short min_duration a); [discriminate | reflexivity].
  - change ((a :: b :: c) ++ [l]) with (a :: b :: (c ++ [l])) in Hs.
    change ((a :: b :: c) ++ [x]) with (a :: b :: (c ++ [x])).
    rewrite separated_cons in *.
    apply andb_true_iff in Hs as [Hab Hs]. rewrite Hab. now apply IH.
Qed.

Lemma separated_snoc (closed : list Segment) (l s : Segment) :
  separated min_duration (closed ++ [l]) = true ->
  short min_duration s && short min_duration l = false ->
  separated min_duration (closed ++ [l; s]) = true.
Proof.
  intros Hs Hl. induction closed as [| a [| b c] IH].
  - simpl. rewrite andb_comm in Hl. now rewrite Hl.
  - simpl in *. rewrite andb_comm in Hl. rewrite Hl.
    now rewrite andb_true_r in *.
  - change ((a :: b :: c) ++ [l]) with (a :: b :: (c ++ [l])) in Hs.
    change ((a :: b :: c) ++ [l; s]) with (a :: b :: (c ++ [l; s])).
    rewrite separated_cons in *.
    apply andb_true_iff in Hs as [Hab Hs]. rewrite Hab. now apply IH.
Qed.

Lemma separated_middle (closed : list Segment) (l s : Segment)
    (rest : list Segment) :
  separated min_duration (closed ++ l :: s :: rest) = true ->
  short min_duration s && short min_duration l = false.
Proof.
  induction closed as [| a [| b c] IH]; intros Hs.
  - simpl in Hs. apply andb_true_iff in Hs as [Hs _].
    apply negb_true_iff in Hs. now rewrite andb_comm.
  - simpl in Hs. apply andb_true_iff in Hs as [_ Hs].
    apply andb_true_iff in Hs as [Hs _].
    apply negb_true_iff in Hs. now rewrite andb_comm.
  - change ((a :: b :: c) ++ l :: s :: rest)
      with (a :: b :: (c ++ l :: s :: rest)) in Hs.
    rewrite separated_cons in Hs.
    apply andb_true_iff in Hs as [_ Hs]. now apply IH.
Qed.

(** The pass keeps the accumulator separated. *)
Lemma merge_short_separated (rest : list Segment) :
  forall (closed : list Segment) (l : Segment),
    separated min_duration (closed ++ [l]) = true ->
    separated min_duration
      (let (c, l') :=
         fold_left (merge_short_step min_duration) rest (closed, l) in
       c ++ [l']) = true.
Proof.
  induction rest as [| s rest IH]; intros closed l Hs.
  - exact Hs.
  - change (fold_left (merge_short_step min_duration) (s :: rest) (closed, l))
      with (fold_left (merge_short_step min_duration) rest
              (merge_short_step min_duration (closed, l) s)).
    unfold merge_short_step at 2.
    destruct (short min_duration s && short min_duration l) eqn:E.
    + apply IH. apply andb_true_iff in E as [_ E].
      now apply (separated_replace_last closed l).
    + apply IH. rewrite <- app_assoc. now apply separated_snoc.
Qed.

(** On a separated list the pass changes nothing. *)
Lemma merge_loop_fixed (rest : list Segment) :
  forall (closed : list Segment) (l : Segment),
    separated min_duration (closed ++ l :: rest) = true ->
    merge_loop min_duration (closed ++ [l]) rest
    = Some (closed ++ l :: rest).
Proof.
  induction rest as [| s rest IH]; intros closed l Hs.
  - reflexivity.
  - simpl merge_loop. rewrite merge_body_snoc.
    rewrite (separated_middle _ _ _ _ Hs).
    change (closed ++ [l; s]) with (closed ++ [l] ++ [s]).
    rewrite app_assoc, IH.
    + now rewrite <- app_assoc.
    + now rewrite <- app_assoc.
Qed.

Lemma merge_short_fixed (l : list Segment) :
  separated min_duration l = true ->
  _merge_short_segments min_duration l = Some l.
Proof.
  intros Hs. destruct l as [| a [| b r]]; try reflexivity.
  apply (merge_loop_fixed (b :: r) [] a Hs).
Qed.

(** C2.  On a non-empty list, [_merge_short_segments] is one pass from
    left to right over the intervals after the first, on an accumulator
    seeded with the first.  In this pass an interval is merged into the
    last interval of the accumulator, whose end it extends, exactly when
    both its duration and that of the last interval are strictly below
    [min_duration]; in every other case it is appended as it is, so that
    a short interval behind a long one is never absorbed.  A duration is
    the difference [end_time - start_time] of two floats, computed in
    binary64 as the code computes it. *)
Theorem merge_short_policy (first : Segment) (rest : list Segment) :
  _merge_short_segments min_duration (first :: rest)
  = Some (merge_short min_duration first rest)
  /\ (forall (closed : list Segment) (l s : Segment),
         (merge_body min_duration (closed ++ [l]) s
          = Some (closed ++ [extend l s])
          <-> short min_duration s = true /\ short min_duration l = true)
         /\ (~ (short min_duration s = true /\ short min_duration l = true)
             -> merge_body min_duration (closed ++ [l]) s
                = Some (closed ++ [l; s]))
         /\ (short min_duration l = false
             -> merge_body min_duration (closed ++ [l]) s
                = Some (closed ++ [l; s]))).
Proof.
  split; [apply merge_short_refines |].
  intros closed l s. rewrite merge_body_snoc.
  assert (Hlen : Some (closed ++ [l; s]) <> Some (closed ++ [extend l s])).
  { intros H. injection H as H. apply (f_equal length) in H.
    rewrite !length_app in H. simpl in H. lia. }
  destruct (short min_duration s), (short min_duration l); simpl;
    (split; [split | split]); intros; try reflexivity; try discriminate;
    try tauto; try contradiction; try (split; reflexivity);
    match goal with H : _ /\ _ |- _ => destruct H; discriminate end.
Qed.

(** C8.  [_merge_short_segments] is idempotent: on every list of
    segments it returns a list, and on that list it returns the same
    list again. *)
Theorem merge_short_idempotent (segments : list Segment) :
  exists merged : list Segment,
    _merge_short_segments min_duration segments = Some merged
    /\ _merge_short_segments min_duration merged = Some merged.
Proof.
  destruct segments as [| first rest].
  - exists []. split; reflexivity.
  - exists (merge_short min_duration first rest).
    split; [apply merge_short_refines |].
    apply merge_short_fixed. unfold merge_short.
    apply (merge_short_separated rest [] first). reflexivity.
Qed.

End MergeShort.

Lemma merge_short_policy_witness :
  let a := VideoEditor.mkSegment 0 6 in
  let b := VideoEditor.mkSegment 12 18 in
  let c := VideoEditor.mkSegment 24 30 in
  VideoEditor._merge_short_segments 10 [a; b; c]
  = Some [VideoEditor.mkSegment 0 18; c]
  /\ VideoEditor.merge_body 10 [VideoEditor.mkSegment 0 18] c
     = Some [VideoEditor.mkSegment 0 18; c].
Proof.
  intros a b c. split.
  - rewrite (proj1 (merge_short_policy 10 a [b; c])). reflexivity.
  - apply (proj2 (proj2 (proj2 (merge_short_policy 10 a [b; c])
                           [] (VideoEditor.mkSegment 0 18) c))).
    reflexivity.
Defined.

(** The durations are float differences: the segment from [2 ^ -60] to
    5 is shorter than 5, but [5 - 2 ^ -60] rounds to [5.0], which is not
    below 5; the pass appends the next segment, as the code does. *)
Lemma merge_short_rounding :
  let a := VideoEditor.mkSegment (1 # 2 ^ 60) 5 in
  let b := VideoEditor.mkSegment 6 7 in
  VideoEditor.end_time a - VideoEditor.start_time a < 5
  /\ Py.fsub (VideoEditor.end_time a) (VideoEditor.start_time a) == 5
  /\ MergeSpec.short 5 a = false
  /\ VideoEditor._merge_short_segments 5 [a; b] = Some [a; b].
Proof.
  intros a b. split; [reflexivity |]. split; [reflexivity |].
  split; vm_compute; reflexivity.
Qed.

(** ** Validation of the segments to remove *)

Section Validation.
Import VideoEditor MergeSpec.

Variable video_duration : Q.

Lemma validate_segment_fields (s : Segment) :
  validate_segment s video_duration
  = {| start_time := if Py.Qltb (start_time s) 0 then 0 else start_time s;
       end_time := if Py.Qltb video_duration (end_time s)
                   then video_duration else end_time s |}.
Proof.
  destruct s as [a b].
  unfold validate_segment, Py.float, set_start_time, set_end_time. simpl.
  destruct (Py.Qltb a 0); simpl;
    destruct (Py.Qltb video_duration b); reflexivity.
Qed.

(** Validating twice is validating once: a dictionary that occurs twice
    in the list ends with the same fields. *)
Lemma validate_segment_idem (s : Segment) :
  validate_segment (validate_segment s video_duration) video_duration
  = validate_segment s video_duration.
Proof.
  rewrite !validate_segment_fields. destruct s as [a b]. simpl.
  f_equal.
  - destruct (Py.Qltb a 0) eqn:E; [reflexivity | now rewrite E].
  - destruct (Py.Qltb video_duration b) eqn:E; [| now rewrite E].
    destruct (Qltb_spec video_duration video_duration); [lra | reflexivity].
Qed.

Lemma validate_segments_store (segments : list loc) :
  forall h : gmap loc Segment,
    (forall r, In r segments -> is_Some (h !! r)) ->
    exists h',
      _validate_segments segments video_duration h = Some h'
      /\ (forall r, In r segments ->
                    h' !! r
                    = (fun s => validate_segment s video_duration)
                        <$> h !! r)
      /\ (forall r, ~ In r segments -> h' !! r = h !! r).
Proof.
  induction segments as [| r0 rest IH]; intros h Hdom.
  - exists h. split; [reflexivity |]. split; [intros r [] | reflexivity].
  - destruct (Hdom r0 (or_introl eq_refl)) as [s0 Hs0].
    simpl. rewrite Hs0.
    set (h1 := <[r0 := validate_segment s0 video_duration]> h).
    destruct (IH h1) as (h' & Hv & Hin & Hout).
    { intros r Hr. unfold h1. destruct (decide (r0 = r)) as [-> | Hne].
      - rewrite lookup_insert_eq. eauto.
      - rewrite lookup_insert_ne by exact Hne. apply Hdom. now right. }
    exists h'. split; [exact Hv |]. split.
    + intros r Hr.
      destruct (in_dec Pos.eq_dec r rest) as [Hr' | Hr'].
      * rewrite (Hin r Hr'). unfold h1.
        destruct (decide (r0 = r)) as [-> | Hne].
        -- rewrite lookup_insert_eq, Hs0. simpl.
           now rewrite validate_segment_idem.
        -- now rewrite lookup_insert_ne by exact Hne.
      * rewrite (Hout r Hr'). unfold h1.
        destruct Hr as [-> | Hr]; [| contradiction].
        now rewrite lookup_insert_eq, Hs0.
    + intros r Hr. rewrite Hout by (intros ?; apply Hr; now right).
      unfold h1. apply lookup_insert_ne. intros ->. apply Hr. now left.
Qed.

Lemma keyed_segments (h : gmap loc Segment) (segments : list loc) :
  (forall r, In r segments -> is_Some (h !! r)) ->
  exists keyed,
    mapM (fun r => (fun s => (r, s)) <$> h !! r) segments = Some keyed
    /\ fst <$> keyed = segments.
Proof.
  induction segments as [| r0 rest IH]; intros Hdom.
  - exists []. split; reflexivity.
  - destruct (Hdom r0 (or_introl eq_refl)) as [s0 Hs0].
    destruct IH as (keyed & Hk & Hfst).
    { intros r Hr. apply Hdom. now right. }
    exists ((r0, s0) :: keyed). simpl. rewrite Hs0. simpl. rewrite Hk. simpl.
    split; [reflexivity |]. f_equal. exact Hfst.
Qed.

Lemma sorted_by_start_time_perm (h : gmap loc Segment)
    (segments : list loc) :
  (forall r, In r segments -> is_Some (h !! r)) ->
  exists sorted,
    sorted_by_start_time h segments = Some sorted
    /\ Permutation sorted segments.
Proof.
  intros Hdom. destruct (keyed_segments h segments Hdom) as (keyed & Hk & Hf).
  unfold sorted_by_start_time. rewrite Hk. simpl.
  eexists. split; [reflexivity |].
  rewrite <- Hf. apply Permutation_map. apply stable_sort_perm.
Qed.

Lemma deref_total (h : gmap loc Segment) (segments : list loc) :
  (forall r, In r segments -> is_Some (h !! r)) ->
  exists values, deref h segments = Some values
                 /\ length values = length segments.
Proof.
  unfold deref. induction segments as [| r0 rest IH]; intros Hdom.
  - exists []. split; reflexivity.
  - destruct (Hdom r0 (or_introl eq_refl)) as [s0 Hs0].
    destruct IH as (values & Hv & Hl).
    { intros r Hr. apply Hdom. now right. }
    exists (s0 :: values). simpl. rewrite Hs0. simpl. rewrite Hv. simpl.
    split; [reflexivity | now rewrite Hl].
Qed.

(** The first steps of [edit_video] on the caller's list: the store
    after validation, and the list handed on, which has as many elements
    as the caller's list. *)
Lemma validated_remove_set_store (h : gmap loc Segment)
    (segments_to_remove : list loc) :
  (forall r, In r segments_to_remove -> is_Some (h !! r)) ->
  exists h' removed,
    validated_remove_set h segments_to_remove video_duration
    = Some (h', removed)
    /\ length removed = length segments_to_remove
    /\ (forall r, In r segments_to_remove ->
                  h' !! r
                  = (fun s => validate_segment s video_duration)
                      <$> h !! r)
    /\ (forall r, ~ In r segments_to_remove -> h' !! r = h !! r).
Proof.
  intros Hdom.
  destruct (sorted_by_start_time_perm h _ Hdom) as (sorted & Hsort & Hperm).
  assert (Hdom' : forall r, In r sorted -> is_Some (h !! r)).
  { intros r Hr. apply Hdom. now apply (Permutation_in r Hperm). }
  destruct (validate_segments_store sorted h Hdom')
    as (h' & Hv & Hin & Hout).
  destruct (deref_total h' sorted) as (removed & Hd & Hlen).
  { intros r Hr. rewrite (Hin r Hr).
    destruct (Hdom' r Hr) as [s ->]. simpl. eauto. }
  exists h', removed. unfold validated_remove_set.
  rewrite Hsort. simpl. rewrite Hv. simpl. rewrite Hd. simpl.
  split; [reflexivity |]. split.
  - rewrite Hlen. now apply Permutation_length.
  - split.
    + intros r Hr. apply Hin.
      now apply (Permutation_in r (Permutation_sym Hperm)).
    + intros r Hr. apply Hout. intros Hr'. apply Hr.
      now apply (Permutation_in r Hperm).
Qed.

Lemma keyed_segments_lookup (h : gmap loc Segment) (segments : list loc)
    (keyed : list (loc * Segment)) :
  mapM (fun r => (fun s => (r, s)) <$> h !! r) segments = Some keyed ->
  Forall (fun p => h !! fst p = Some (snd p)) keyed.
Proof.
  revert keyed. induction segments as [| r0 rest IH]; intros keyed Hk.
  - injection Hk as <-. constructor.
  - simpl in Hk. destruct (h !! r0) as [s0 |] eqn:Hs0; [| discriminate].
    simpl in Hk.
    destruct (mapM (fun r => (fun s => (r, s)) <$> h !! r) rest)
      as [keyed' |]; [| discriminate].
    injection Hk as <-. constructor; [exact Hs0 | now apply IH].
Qed.

Lemma deref_keyed (h h' : gmap loc Segment) (f : Segment -> Segment)
    (keyed : list (loc * Segment)) :
  Forall (fun p => h !! fst p = Some (snd p)) keyed ->
  (forall r, In r (fst <$> keyed) -> h' !! r = f <$> h !! r) ->
  deref h' (fst <$> keyed) = Some ((fun p => f (snd p)) <$> keyed).
Proof.
  unfold deref. induction 1 as [| [r s] keyed Hrs Hk IH]; intros Hh'.
  - reflexivity.
  - simpl in Hrs.
    assert (E : mapM (fun r => h' !! r) (fst <$> keyed)
                = Some ((fun p => f (snd p)) <$> keyed)).
    { apply IH. intros r' Hr'. apply Hh'. now right. }
    change (mapM (fun r => h' !! r) (r :: (fst <$> keyed))
            = Some (f s :: ((fun p => f (snd p)) <$> keyed))).
    change (mapM (fun r => h' !! r) (r :: (fst <$> keyed)))
      with (x ← h' !! r; k ← mapM (fun r => h' !! r) (fst <$> keyed);
            mret (x :: k)).
    rewrite E, (Hh' r (or_introl eq_refl)), Hrs. reflexivity.
Qed.

Lemma StronglySorted_fmap {A B} (R : A -> A -> Prop) (R' : B -> B -> Prop)
    (f : A -> B) (l : list A) :
  (forall a b, R a b -> R' (f a) (f b)) ->
  StronglySorted R l -> StronglySorted R' (f <$> l).
Proof.
  intros Hf. induction 1 as [| a l _ IH Ha]; csimpl; constructor.
  - exact IH.
  - clear IH. induction Ha as [| b l Hab _ IH]; csimpl; constructor; auto.
Qed.

Lemma validate_segment_mono (a b : Segment) :
  Timeline.le_start a b ->
  Timeline.le_start (validate_segment a video_duration)
                    (validate_segment b video_duration).
Proof.
  unfold Timeline.le_start. rewrite !validate_segment_fields. simpl.
  intros Hab. cmp_cases; lra.
Qed.

Lemma validate_segment_bounds (s : Segment) :
  0 <= start_time (validate_segment s video_duration)
  /\ end_time (validate_segment s video_duration) <= video_duration.
Proof.
  rewrite validate_segment_fields. simpl. split; cmp_cases; lra.
Qed.

(** What validation achieves on the list handed to
    [_get_segments_to_keep]: it is sorted by start, every start is at
    least 0 and every end at most [video_duration]; and what it does not:
    the list is as long as the caller's list. *)
Lemma validated_remove_set_values (h : gmap loc Segment)
    (segments_to_remove : list loc) :
  (forall r, In r segments_to_remove -> is_Some (h !! r)) ->
  exists h' removed,
    validated_remove_set h segments_to_remove video_duration
    = Some (h', removed)
    /\ length removed = length segments_to_remove
    /\ StronglySorted Timeline.le_start removed
    /\ Forall (fun s => 0 <= start_time s /\ end_time s <= video_duration)
              removed.
Proof.
  intros Hdom.
  destruct (keyed_segments h _ Hdom) as (keyed & Hk & Hfst).
  pose proof (keyed_segments_lookup h _ _ Hk) as Hlook.
  set (key := fun p : loc * Segment => start_time (snd p)).
  assert (Hperm : Permutation (Py.sorted_by_key key keyed) keyed)
    by apply stable_sort_perm.
  assert (Hlook' : Forall (fun p => h !! fst p = Some (snd p))
                          (Py.sorted_by_key key keyed)).
  { now apply (Permutation_Forall (Permutation_sym Hperm)). }
  assert (Hdom' : forall r, In r (fst <$> Py.sorted_by_key key keyed) ->
                            is_Some (h !! r)).
  { intros r Hr. apply Hdom. rewrite <- Hfst.
    apply list_elem_of_In. apply list_elem_of_In in Hr.
    now rewrite <- Hperm. }
  destruct (validate_segments_store _ h Hdom') as (h' & Hv & Hin & _).
  pose proof (deref_keyed h h' (fun s => validate_segment s video_duration)
                _ Hlook' Hin) as Hd.
  eexists h', _. unfold validated_remove_set, sorted_by_start_time.
  rewrite Hk. csimpl. fold key. rewrite Hv. csimpl. rewrite Hd. csimpl.
  split; [reflexivity |]. split; [| split].
  - rewrite length_fmap, (Permutation_length Hperm), <- Hfst.
    now rewrite length_fmap.
  - eapply StronglySorted_fmap;
      [| apply (stable_sort_sorted
                  (fun a b => negb (Py.Qltb (key b) (key a))))].
    + intros a b Hab. apply validate_segment_mono.
      apply negb_true_iff, Qltb_ge in Hab. exact Hab.
    + intros a b. cmp_cases; simpl; auto; lra.
    + intros a b c Hab Hbc.
      apply negb_true_iff, Qltb_ge in Hab, Hbc.
      apply negb_true_iff, Qltb_ge. lra.
  - apply List.Forall_forall. intros s Hs.
    apply list_elem_of_In, list_elem_of_fmap in Hs as (p & -> & _).
    apply validate_segment_bounds.
Qed.

Lemma merge_short_total (min_duration : Q) (l : list Segment) :
  is_Some (_merge_short_segments min_duration l).
Proof.
  destruct l as [| a r]; [eexists; reflexivity |].
  rewrite merge_short_refines. eauto.
Qed.

(** C10.  [edit_video] changes the caller's segment dictionaries in
    place.  The list it validates is a sorted copy of the caller's list,
    but the copy holds the same dictionary objects: after the call, every
    dictionary of the caller's list has its [start_time] raised to 0 when
    it was negative and its [end_time] lowered to [video_duration] when it
    was greater (so the one is at least 0 and the other at most
    [video_duration]); every other object of the store is untouched.
    This holds whether the call goes on to return its clips or to raise
    "No segments remain after editing". *)
Theorem edit_video_mutates_segments (min_segment_duration : Q)
    (h : gmap loc Segment) (segments_to_remove : list loc) :
  (forall r, In r segments_to_remove -> is_Some (h !! r)) ->
  exists h' out,
    edit_video min_segment_duration h segments_to_remove video_duration
    = Some (h', out)
    /\ (forall r s,
           In r segments_to_remove -> h !! r = Some s ->
           exists s',
             h' !! r = Some s'
             /\ start_time s'
                = (if Py.Qltb (start_time s) 0
                   then 0 else Py.float (start_time s))
             /\ end_time s'
                = (if Py.Qltb video_duration (end_time s)
                   then video_duration else Py.float (end_time s))
             /\ 0 <= start_time s' /\ end_time s' <= video_duration)
    /\ (forall r, ~ In r segments_to_remove -> h' !! r = h !! r).
Proof.
  intros Hdom.
  destruct (validated_remove_set_store h _ Hdom)
    as (h' & removed & Hv & _ & Hin & Hout).
  unfold edit_video. rewrite Hv. simpl.
  assert (Hm : exists keep,
             (if Py.Qltb 0 min_segment_duration
              then _merge_short_segments min_segment_duration
                     (_get_segments_to_keep removed video_duration)
              else Some (_get_segments_to_keep removed video_duration))
             = Some keep).
  { destruct (Py.Qltb 0 min_segment_duration); [| eauto].
    apply merge_short_total. }
  destruct Hm as (keep & ->). simpl.
  eexists _, _. split; [reflexivity |]. split; [| exact Hout].
  intros r s Hr Hs. rewrite (Hin r Hr), Hs. simpl.
  eexists. split; [reflexivity |].
  rewrite validate_segment_fields. unfold Py.float. simpl.
  repeat split; cmp_cases; lra.
Qed.

End Validation.

Lemma edit_video_mutates_segments_witness :
  let h : gmap VideoEditor.loc VideoEditor.Segment :=
    {[ 1%positive := VideoEditor.mkSegment 18 40;
       2%positive := VideoEditor.mkSegment (-3) 12 ]} in
  exists h' out,
    VideoEditor.edit_video 5 h [1%positive; 2%positive] 30 = Some (h', out)
    /\ h' !! 1%positive = Some (VideoEditor.mkSegment 18 30)
    /\ h' !! 2%positive = Some (VideoEditor.mkSegment 0 12)
    /\ h' !! 1%positive <> h !! 1%positive
    /\ h' !! 2%positive <> h !! 2%positive.
Proof.
  intros h.
  destruct (edit_video_mutates_segments 30 5 h [1%positive; 2%positive])
    as (h' & out & He & Hin & _).
  { intros r [<- | [<- | []]]; eexists; reflexivity. }
  pose proof (Hin 1%positive (VideoEditor.mkSegment 18 40)
                (or_introl eq_refl) eq_refl)
    as ([sa ea] & Ha & Hsa & Hea & _).
  pose proof (Hin 2%positive (VideoEditor.mkSegment (-3) 12)
                (or_intror (or_introl eq_refl)) eq_refl)
    as ([sb eb] & Hb & Hsb & Heb & _).
  simpl in Hsa, Hea, Hsb, Heb. subst sa ea sb eb.
  exists h', out. split; [exact He |]. split; [exact Ha |]. split; [exact Hb |].
  rewrite Ha, Hb. split; discriminate.
Defined.

(** C3.  Before the complement is computed, [edit_video] sorts the
    segments to remove and clamps them: the list it hands to
    [_get_segments_to_keep] is sorted by start, with every start at least
    0 and every end at most the duration.  But nothing is dropped from it:
    the list is as long as the caller's list, and the segments that
    [_validate_segments] reports as "zero or negative duration, skipping"
    stay in it.  For a video of 30 seconds and the single segment to
    remove [{40, 50}], the clamped segment [{40, 30}] is reported and
    still reaches the complement, whose result is then the span
    [{0, 40}], longer than the video. *)
Theorem degenerate_segment_not_dropped :
  (forall (video_duration : Q) (h : gmap VideoEditor.loc VideoEditor.Segment)
          (segments_to_remove : list VideoEditor.loc),
      (forall r, In r segments_to_remove -> is_Some (h !! r)) ->
      exists h' removed,
        VideoEditor.validated_remove_set h segments_to_remove video_duration
        = Some (h', removed)
        /\ length removed = length segments_to_remove
        /\ StronglySorted Timeline.le_start removed
        /\ Forall (fun s => 0 <= VideoEditor.start_time s
                            /\ VideoEditor.end_time s <= video_duration)
                  removed)
  /\ (let h : gmap VideoEditor.loc VideoEditor.Segment :=
        {[ 1%positive := VideoEditor.mkSegment 40 50 ]} in
      snd <$> VideoEditor.validated_remove_set h [1%positive] 30
      = Some [VideoEditor.mkSegment 40 30]
      /\ VideoEditor.reports_skipping (VideoEditor.mkSegment 40 30) = true
      /\ VideoEditor._get_segments_to_keep [VideoEditor.mkSegment 40 30] 30
         = [VideoEditor.mkSegment 0 40]
      /\ snd <$> VideoEditor.edit_video 5 h [1%positive] 30
         = Some (VideoEditor.Clips [VideoEditor.mkSegment 0 40])).
Proof.
  split.
  - intros video_duration h segments_to_remove.
    apply validated_remove_set_values.
  - repeat split; vm_compute; reflexivity.
Qed.

(** ** Ranges of frame indices *)

Section Ranges.

Local Open Scope Z_scope.

Lemma range_len_nonneg (start stop step : Z) :
  0 < step -> 0 <= Py.range_len start stop step.
Proof.
  intros Hstep. unfold Py.range_len.
  destruct (Z.ltb_spec start stop) as [H | H]; [| lia].
  assert (0 <= (stop - start - 1) / step) by (apply Z.div_pos; lia). lia.
Qed.

(** [k] counts an element of the range exactly when [start + k * step]
    is below [stop]. *)
Lemma range_len_lt (start stop step k : Z) :
  0 < step -> 0 <= k ->
  (k < Py.range_len start stop step <-> start + k * step < stop).
Proof.
  intros Hstep Hk. unfold Py.range_len.
  destruct (Z.ltb_spec start stop) as [H | H]; [| nia].
  pose proof (Z.mul_div_le (stop - start - 1) step Hstep) as Hle.
  pose proof (Z.mul_succ_div_gt (stop - start - 1) step Hstep) as Hgt.
  split; intros Hlt; nia.
Qed.

Lemma range3_In (start stop step p : Z) :
  0 < step ->
  (In p (Py.range3 start stop step)
   <-> start <= p < stop /\ (step | p - start)).
Proof.
  intros Hstep. unfold Py.range3. rewrite in_map_iff. split.
  - intros (k & <- & Hk). apply in_seq in Hk.
    assert (Hlt : Z.of_nat k < Py.range_len start stop step) by lia.
    apply range_len_lt in Hlt; [| lia | lia].
    split; [nia |]. exists (Z.of_nat k). lia.
  - intros ([Hlo Hhi] & (q & Hq)).
    assert (Hq0 : 0 <= q) by nia.
    exists (Z.to_nat q). split; [lia |].
    apply in_seq. split; [lia |]. simpl.
    assert (Hlt : q < Py.range_len start stop step).
    { apply range_len_lt; [lia | lia | nia]. }
    lia.
Qed.

Lemma range3_sorted (start stop step : Z) :
  0 < step -> StronglySorted Z.lt (Py.range3 start stop step).
Proof.
  intros Hstep. unfold Py.range3.
  generalize (Z.to_nat (Py.range_len start stop step)) as n.
  generalize 0%nat as a. intros a n. revert a.
  induction n as [| n IH]; intros a; simpl.
  - constructor.
  - constructor; [apply IH |].
    apply List.Forall_forall. intros p Hp.
    apply in_map_iff in Hp as (k & <- & Hk). apply in_seq in Hk. nia.
Qed.

Lemma range2_In (start stop p : Z) :
  In p (Py.range2 start stop) <-> start <= p < stop.
Proof.
  unfold Py.range2. rewrite range3_In by lia.
  split; [tauto |]. intros H. split; [exact H |]. apply Z.divide_1_l.
Qed.

Lemma range2_length (start stop : Z) :
  length (Py.range2 start stop) = Z.to_nat (stop - start).
Proof.
  unfold Py.range2, Py.range3. rewrite length_map, length_seq.
  unfold Py.range_len. rewrite Z.div_1_r.
  destruct (Z.ltb_spec start stop); lia.
Qed.

End Ranges.

(** ** Truncation *)

Section Truncation.

Lemma int_Qmake (a : Z) (b : positive) : Py.int (a # b) = (a ÷ Z.pos b)%Z.
Proof.
  unfold Py.int, Py.Qltb, Qceiling, Qfloor. simpl.
  rewrite Z.mul_1_r. change (0 * Z.pos b)%Z with 0%Z.
  destruct (Z.ltb_spec a 0) as [H | H].
  - replace (a ÷ Z.pos b)%Z with (- ((- a) ÷ Z.pos b))%Z
      by (rewrite Z.quot_opp_l by lia; lia).
    now rewrite Z.quot_div_nonneg by lia.
  - now rewrite Z.quot_div_nonneg by lia.
Qed.

Lemma int_nonneg (q : Q) : 0 <= q -> Py.int q = Qfloor q.
Proof.
  intros H. unfold Py.int.
  now rewrite (proj2 (Qltb_ge q 0) H).
Qed.

Lemma inject_Z_le (a b : Z) : (a <= b)%Z <-> inject_Z a <= inject_Z b.
Proof. unfold Qle. simpl. lia. Qed.

Lemma inject_Z_lt (a b : Z) : (a < b)%Z <-> inject_Z a < inject_Z b.
Proof. unfold Qlt. simpl. lia. Qed.

Lemma int_Qeq (x y : Q) : x == y -> Py.int x = Py.int y.
Proof.
  intros H. unfold Py.int.
  assert (Hlt : Py.Qltb x 0 = Py.Qltb y 0).
  { destruct (Qltb_spec x 0), (Qltb_spec y 0); auto; lra. }
  rewrite Hlt. unfold Qceiling.
  destruct (Py.Qltb y 0); now rewrite H.
Qed.

Lemma int_five_percent (n : Z) :
  Py.int (inject_Z n * 0.05) = (n * 5 ÷ 100)%Z.
Proof. apply (int_Qmake (n * 5) 100). Qed.

Lemma int_ninety_five_percent (n : Z) :
  Py.int (inject_Z n * 0.95) = (n * 95 ÷ 100)%Z.
Proof. apply (int_Qmake (n * 95) 100). Qed.

Lemma int_five_hundredth (n : Z) :
  Py.int (inject_Z n / 500) = (n ÷ 500)%Z.
Proof.
  change (inject_Z n / 500) with ((n * 1) # 500).
  rewrite int_Qmake. now rewrite Z.mul_1_r.
Qed.

End Truncation.

(** ** The evenly spaced positions in binary64 *)

Section Spacing.

Lemma round64_ge1 (x : Q) : 1 <= x -> 1 <= Py.round64 x.
Proof.
  intros H. rewrite <- (round64_int 1) at 1 by lia.
  apply round64_mono; [discriminate | exact H].
Qed.

Lemma round64_nonneg (x : Q) : 0 <= x -> 0 <= Py.round64 x.
Proof.
  intros H. change 0 with (Py.round64 0) at 1. now apply round64_mono.
Qed.

(** The relative error of a rounding, for the values met in the index
    arithmetic: 0 and the numbers from 1 on. *)
Lemma round64_error1 (x : Q) :
  x == 0 \/ 1 <= x ->
  x * (1 - eps) <= Py.round64 x /\ Py.round64 x <= x * (1 + eps).
Proof.
  intros [H | H].
  - rewrite (round64_0 x H), H. split; rewrite Qmult_0_l; apply Qle_refl.
  - apply round64_error. eapply Qle_trans; [| exact H]. discriminate.
Qed.

Lemma round64_error0 (x : Q) :
  x == 0 \/ 2 ^ (-1022) <= x ->
  x * (1 - eps) <= Py.round64 x /\ Py.round64 x <= x * (1 + eps).
Proof.
  intros [H | H].
  - rewrite (round64_0 x H), H. split; rewrite Qmult_0_l; apply Qle_refl.
  - now apply round64_error.
Qed.

Lemma float_of_int_exact (z : Z) :
  (0 <= z <= 2 ^ 53)%Z -> Py.float_of_int z == inject_Z z.
Proof. apply round64_int. Qed.


Lemma eps_square : (1 + eps) * (1 + eps) <= 1 + 3 * eps.
Proof. apply Qle_bool_iff. vm_compute. reflexivity. Qed.

Lemma eps_small : eps <= 1 # 1000.
Proof. apply Qle_bool_iff. vm_compute. reflexivity. Qed.

Lemma eps_square_lower : 1 - 2 * eps <= (1 - eps) * (1 - eps).
Proof. apply Qle_bool_iff. vm_compute. reflexivity. Qed.

Lemma scale_lower (a x y b c p : Q) :
  0 <= a -> 0 <= x -> 0 <= b -> c <= b * b ->
  x * b <= y -> a * y * b <= p -> a * x * c <= p.
Proof.
  intros Ha Hx Hb Hc Hy Hp.
  assert (H1 : 0 <= (a * x) * (b * b - c))
    by (apply Qmult_le_0_compat; [apply Qmult_le_0_compat; assumption | lra]).
  assert (H2 : 0 <= (a * b) * (y - x * b))
    by (apply Qmult_le_0_compat; [apply Qmult_le_0_compat; assumption | lra]).
  lra.
Qed.

Lemma scale_upper (a x y b c p : Q) :
  0 <= a -> 0 <= x -> 0 <= b -> b * b <= c ->
  y <= x * b -> p <= a * y * b -> p <= a * x * c.
Proof.
  intros Ha Hx Hb Hc Hy Hp.
  assert (H1 : 0 <= (a * x) * (c - b * b))
    by (apply Qmult_le_0_compat; [apply Qmult_le_0_compat; assumption | lra]).
  assert (H2 : 0 <= (a * b) * (x * b - y))
    by (apply Qmult_le_0_compat; [apply Qmult_le_0_compat; assumption | lra]).
  lra.
Qed.

Section Product.

Variables u n i : Z.
Hypothesis Hn : (0 < n)%Z.
Hypothesis Hnu : (n <= u)%Z.
Hypothesis Hu : (u <= 2 ^ 53)%Z.
Hypothesis Hi : (0 <= i < n)%Z.

Let st : Q := inject_Z u / inject_Z n.
Let X : Q := inject_Z i * st.
Let p : Q := Py.fmul (Py.float_of_int i) (Py.truediv u n).

Lemma step_exact : st * inject_Z n == inject_Z u.
Proof.
  unfold st. field. intros H.
  assert (0 < inject_Z n) by (change 0 with (inject_Z 0); rewrite <- Zlt_Qlt; lia).
  lra.
Qed.

Lemma step_ge1 : 1 <= st.
Proof.
  unfold st. apply Qle_shift_div_l.
  - change 0 with (inject_Z 0). rewrite <- Zlt_Qlt. lia.
  - rewrite Qmult_1_l. rewrite <- Zle_Qle. lia.
Qed.

Lemma product_error :
  X * (1 - 2 * eps) <= p /\ p <= X * (1 + 3 * eps) /\ (p == 0 \/ 1 <= p).
Proof.
  pose proof step_ge1 as Hst. pose proof eps_pos as He.
  pose proof eps_small as He'. pose proof eps_square as Hsq.
  destruct (round64_error1 st (or_intror Hst)) as [S1 S2].
  pose proof (round64_ge1 st Hst) as S3.
  change (Py.round64 st) with (Py.truediv u n) in S1, S2, S3.
  assert (Hfi : Py.float_of_int i == inject_Z i)
    by (apply float_of_int_exact; lia).
  assert (Qi : 0 <= inject_Z i)
    by (change 0 with (inject_Z 0); rewrite <- Zle_Qle; lia).
  set (step := Py.truediv u n) in *.
  assert (HP : Py.float_of_int i * step == inject_Z i * step)
    by (rewrite Hfi; reflexivity).
  assert (Hp : p == Py.round64 (inject_Z i * step)).
  { unfold p, Py.fmul. fold step. apply round64_nonneg_comp; [| exact HP].
    rewrite HP. apply Qmult_le_0_compat; lra. }
  destruct (Z.eq_dec i 0%Z) as [Hi0 | Hi0].
  - assert (Hz : inject_Z i * step == 0) by (rewrite Hi0; ring).
    rewrite (round64_0 _ Hz) in Hp.
    assert (HX : X == 0) by (unfold X; rewrite Hi0; ring).
    rewrite Hp, HX. repeat split; lra.
  - assert (Qi1 : 1 <= inject_Z i)
      by (change 1 with (inject_Z 1); rewrite <- Zle_Qle; lia).
    assert (HP1 : 1 <= inject_Z i * step).
    { assert (0 <= (inject_Z i - 1) * (step - 1))
        by (apply Qmult_le_0_compat; lra).
      lra. }
    destruct (round64_error1 _ (or_intror HP1)) as [P1 P2].
    pose proof (round64_ge1 _ HP1) as P3.
    rewrite <- Hp in P1, P2, P3. unfold X.
    split; [| split]; [| | now right].
    + apply (scale_lower _ st step (1 - eps)); try lra.
      apply eps_square_lower.
    + apply (scale_upper _ st step (1 + eps)); try lra.
Qed.

End Product.


Lemma eps_cube : (1 + 3 * eps) * (1 + eps) <= 1 + 5 * eps.
Proof. apply Qle_bool_iff. vm_compute. reflexivity. Qed.

Lemma eps_cube_lower : 1 - 3 * eps <= (1 - 2 * eps) * (1 - eps).
Proof. apply Qle_bool_iff. vm_compute. reflexivity. Qed.

Section Index.

Variables s u n i : Z.
Hypothesis Hs : (0 <= s <= 2 ^ 53)%Z.
Hypothesis Hn : (0 < n)%Z.
Hypothesis Hnu : (n <= u)%Z.
Hypothesis Hu : (u <= 2 ^ 53)%Z.
Hypothesis Hi : (0 <= i < n)%Z.

Let X : Q := inject_Z i * (inject_Z u / inject_Z n).
Let p : Q := Py.fmul (Py.float_of_int i) (Py.truediv u n).
Let q : Q := Py.fadd (Py.float_of_int s) p.

Lemma index_error :
  (inject_Z s + X) * (1 - 3 * eps) <= q
  /\ q <= (inject_Z s + X) * (1 + 5 * eps)
  /\ inject_Z s <= q.
Proof.
  pose proof eps_pos as He. pose proof eps_small as He'.
  destruct (product_error u n i Hn Hnu Hu Hi) as (P1 & P2 & P3).
  fold X in P1, P2. fold p in P1, P2, P3.
  assert (Qs : 0 <= inject_Z s)
    by (change 0 with (inject_Z 0); rewrite <- Zle_Qle; lia).
  assert (Hfs : Py.float_of_int s == inject_Z s)
    by (apply float_of_int_exact; lia).
  assert (Hp0 : 0 <= p) by (destruct P3; lra).
  assert (HX : 0 <= X).
  { unfold X. apply Qmult_le_0_compat.
    - change 0 with (inject_Z 0). rewrite <- Zle_Qle. lia.
    - pose proof (step_ge1 u n Hn Hnu). lra. }
  assert (Hq : q == Py.round64 (inject_Z s + p)).
  { unfold q, Py.fadd. apply round64_nonneg_comp; [lra |].
    rewrite Hfs. reflexivity. }
  assert (Hcase : inject_Z s + p == 0 \/ 1 <= inject_Z s + p).
  { destruct (Z.eq_dec s 0%Z) as [-> | Hs0].
    - change (inject_Z 0) with 0. destruct P3; [left | right]; lra.
    - right. assert (1 <= inject_Z s)
        by (change 1 with (inject_Z 1); rewrite <- Zle_Qle; lia).
      lra. }
  destruct (round64_error1 _ Hcase) as [Q1 Q2]. rewrite <- Hq in Q1, Q2.
  assert (Hmono : Py.round64 (inject_Z s) <= Py.round64 (inject_Z s + p))
    by (apply round64_mono; lra).
  rewrite round64_int in Hmono by lia. rewrite <- Hq in Hmono.
  pose proof eps_cube as C1. pose proof eps_cube_lower as C2.
  split; [| split]; [| | exact Hmono].
  - assert (H1 : 0 <= (inject_Z s + X) * ((1 - 2 * eps) * (1 - eps) - (1 - 3 * eps)))
      by (apply Qmult_le_0_compat; lra).
    assert (H2 : 0 <= (p - X * (1 - 2 * eps)) * (1 - eps))
      by (apply Qmult_le_0_compat; lra).
    assert (H3 : 0 <= inject_Z s * (2 * eps) * (1 - eps)).
    { apply Qmult_le_0_compat; [apply Qmult_le_0_compat |]; lra. }
    lra.
  - assert (H1 : 0 <= (inject_Z s + X) * (1 + 5 * eps - (1 + 3 * eps) * (1 + eps)))
      by (apply Qmult_le_0_compat; lra).
    assert (H2 : 0 <= (X * (1 + 3 * eps) - p) * (1 + eps))
      by (apply Qmult_le_0_compat; lra).
    assert (H3 : 0 <= inject_Z s * (3 * eps) * (1 + eps)).
    { apply Qmult_le_0_compat; [apply Qmult_le_0_compat |]; lra. }
    lra.
Qed.

End Index.


Lemma eps_value : eps == 1 # 9007199254740992.
Proof. reflexivity. Qed.

Lemma Qfloor_lt (x y : Q) : x + 1 <= y -> (Qfloor x < Qfloor y)%Z.
Proof.
  intros H. destruct (floor_bounds x) as [Hx _].
  destruct (floor_bounds y) as [_ Hy].
  rewrite Zlt_Qlt. apply Qlt_le_trans with (inject_Z (Qfloor y) + 1 - 1); [| lra].
  lra.
Qed.

(** The exact value [i * (u / n)] of an evenly spaced position. *)
Lemma exact_position (u n i : Z) :
  (0 < n)%Z -> (n <= u)%Z -> (0 <= i < n)%Z ->
  let st := inject_Z u / inject_Z n in
  1 <= st /\ 0 <= inject_Z i * st /\ inject_Z i * st + st <= inject_Z u.
Proof.
  intros Hn Hu Hi st.
  assert (Hst : 1 <= st) by (apply step_ge1; lia).
  assert (Hex : st * inject_Z n == inject_Z u) by (apply step_exact; lia).
  assert (Qi : 0 <= inject_Z i)
    by (change 0 with (inject_Z 0); rewrite <- Zle_Qle; lia).
  assert (Qin : inject_Z i + 1 <= inject_Z n).
  { change 1 with (inject_Z 1). rewrite <- inject_Z_plus, <- Zle_Qle. lia. }
  assert (H1 : 0 <= inject_Z i * st) by (apply Qmult_le_0_compat; lra).
  assert (H3 : 0 <= (inject_Z n - inject_Z i - 1) * st)
    by (apply Qmult_le_0_compat; lra).
  repeat split; lra.
Qed.

Lemma exact_gap (u n i j : Z) :
  (0 < n)%Z -> (n <= u)%Z -> (i < j)%Z ->
  let st := inject_Z u / inject_Z n in
  inject_Z i * st + st <= inject_Z j * st.
Proof.
  intros Hn Hu Hij st.
  assert (Hst : 1 <= st) by (apply step_ge1; lia).
  assert (Qij : inject_Z i + 1 <= inject_Z j).
  { change 1 with (inject_Z 1). rewrite <- inject_Z_plus, <- Zle_Qle. lia. }
  assert (H2 : 0 <= (inject_Z j - inject_Z i - 1) * st)
    by (apply Qmult_le_0_compat; lra).
  lra.
Qed.

(** With fewer positions than entries the step exceeds 1 by at least
    [1 / n]. *)
Lemma step_margin (u n b : Z) :
  (0 < n)%Z -> (n < u)%Z -> (n <= b)%Z ->
  1 <= (inject_Z u / inject_Z n - 1) * inject_Z b.
Proof.
  intros Hn Hu Hb. set (st := inject_Z u / inject_Z n).
  assert (Hst : 1 <= st) by (apply step_ge1; lia).
  assert (Hex : st * inject_Z n == inject_Z u) by (apply step_exact; lia).
  assert (Qnu : inject_Z n + 1 <= inject_Z u).
  { change 1 with (inject_Z 1). rewrite <- inject_Z_plus, <- Zle_Qle. lia. }
  assert (Qnb : inject_Z n <= inject_Z b) by (rewrite <- Zle_Qle; lia).
  assert (H : 0 <= (st - 1) * (inject_Z b - inject_Z n))
    by (apply Qmult_le_0_compat; lra).
  lra.
Qed.

Lemma index_nonneg (s u n i : Z) :
  (0 <= s)%Z -> (0 <= i)%Z -> (0 < n)%Z -> (0 <= u)%Z ->
  0 <= Py.fadd (Py.float_of_int s)
               (Py.fmul (Py.float_of_int i) (Py.truediv u n)).
Proof.
  intros Hs Hi Hn Hu.
  assert (Q0 : forall z, (0 <= z)%Z -> 0 <= inject_Z z)
    by (intros z Hz; change 0 with (inject_Z 0); rewrite <- Zle_Qle; lia).
  assert (Qn : 0 < inject_Z n)
    by (change 0 with (inject_Z 0); rewrite <- Zlt_Qlt; lia).
  apply round64_nonneg.
  assert (0 <= Py.float_of_int s) by (apply round64_nonneg; auto).
  assert (0 <= Py.fmul (Py.float_of_int i) (Py.truediv u n)).
  { apply round64_nonneg. apply Qmult_le_0_compat.
    - apply round64_nonneg; auto.
    - apply round64_nonneg. apply Qle_shift_div_l; [exact Qn |].
      rewrite Qmult_0_l. auto. }
  lra.
Qed.

(** The indices of the uniform strategy, in binary64: for up to [2 ^ 50]
    frames the float that is truncated lies in [[s, s + u)]. *)
Lemma binary64_index_bounds (s u n i : Z) :
  (0 <= s)%Z -> (0 < n)%Z -> (n < u)%Z -> (s + u <= 2 ^ 50)%Z ->
  (0 <= i < n)%Z ->
  let q := Py.fadd (Py.float_of_int s)
                   (Py.fmul (Py.float_of_int i) (Py.truediv u n)) in
  Py.int q = Qfloor q /\ (s <= Qfloor q < s + u)%Z.
Proof.
  intros Hs Hn Hu Hb Hi q.
  destruct (index_error s u n i) as (_ & E2 & E3); try lia.
  fold q in E2, E3.
  destruct (exact_position u n i) as (Hst & X0 & X1); try lia.
  set (X := inject_Z i * (inject_Z u / inject_Z n)) in *.
  set (st := inject_Z u / inject_Z n) in *.
  assert (Qs : 0 <= inject_Z s)
    by (change 0 with (inject_Z 0); rewrite <- Zle_Qle; lia).
  assert (Qb : inject_Z s + inject_Z u <= 2 ^ 50).
  { rewrite <- inject_Z_plus. change (2 ^ 50) with (inject_Z (2 ^ 50)).
    rewrite <- Zle_Qle. exact Hb. }
  pose proof eps_value as He.
  assert (Hprod : 0 <= (2 ^ 50 - (inject_Z s + X)) * (5 * eps))
    by (apply Qmult_le_0_compat; lra).
  change (2 ^ 50) with (1125899906842624 # 1) in *.
  assert (Hq : q < inject_Z s + inject_Z u) by lra.
  split; [apply int_nonneg; lra |]. split.
  - rewrite <- (Qfloor_Z s). now apply Qfloor_resp_le.
  - rewrite Zlt_Qlt, inject_Z_plus.
    eapply Qle_lt_trans; [apply Qfloor_le | exact Hq].
Qed.

Lemma binary64_index_increasing (s u n i j : Z) :
  (0 <= s)%Z -> (0 < n)%Z -> (n < u)%Z -> (s + u <= 2 ^ 25)%Z ->
  (0 <= i)%Z -> (i < j)%Z -> (j < n)%Z ->
  (Py.int (Py.fadd (Py.float_of_int s)
                   (Py.fmul (Py.float_of_int i) (Py.truediv u n)))
   < Py.int (Py.fadd (Py.float_of_int s)
                     (Py.fmul (Py.float_of_int j) (Py.truediv u n))))%Z.
Proof.
  intros Hs Hn Hu Hb Hi Hij Hj.
  destruct (binary64_index_bounds s u n i) as [-> _]; try lia.
  destruct (binary64_index_bounds s u n j) as [-> _]; try lia.
  apply Qfloor_lt.
  destruct (index_error s u n i) as (_ & I2 & _); try lia.
  destruct (index_error s u n j) as (J1 & _ & _); try lia.
  destruct (exact_position u n i) as (Hst & Xi0 & Xi1); try lia.
  destruct (exact_position u n j) as (_ & Xj0 & Xj1); try lia.
  pose proof (exact_gap u n i j) as Hgap. cbv zeta in Hgap.
  specialize (Hgap ltac:(lia) ltac:(lia) ltac:(lia)).
  pose proof (step_margin u n (2 ^ 25)) as Hm.
  specialize (Hm ltac:(lia) ltac:(lia) ltac:(lia)).
  set (st := inject_Z u / inject_Z n) in *.
  set (Xi := inject_Z i * st) in *. set (Xj := inject_Z j * st) in *.
  assert (Qs : 0 <= inject_Z s)
    by (change 0 with (inject_Z 0); rewrite <- Zle_Qle; lia).
  assert (Qb : inject_Z s + inject_Z u <= 2 ^ 25).
  { rewrite <- inject_Z_plus. change (2 ^ 25) with (inject_Z (2 ^ 25)).
    rewrite <- Zle_Qle. exact Hb. }
  pose proof eps_value as He.
  assert (Hpi : 0 <= (2 ^ 25 - (inject_Z s + Xi)) * (5 * eps))
    by (apply Qmult_le_0_compat; lra).
  assert (Hpj : 0 <= (2 ^ 25 - (inject_Z s + Xj)) * (3 * eps))
    by (apply Qmult_le_0_compat; lra).
  change (inject_Z (2 ^ 25)) with (33554432 # 1) in Hm.
  change (2 ^ 25) with (33554432 # 1) in *.
  lra.
Qed.

(** The positions [int(i * step)] of the key-moment selection, in
    binary64. *)
Lemma binary64_position_bounds (u n i : Z) :
  (0 < n)%Z -> (n < u)%Z -> (u <= 2 ^ 50)%Z -> (0 <= i < n)%Z ->
  let p := Py.fmul (Py.float_of_int i) (Py.truediv u n) in
  Py.int p = Qfloor p /\ (0 <= Qfloor p < u)%Z.
Proof.
  intros Hn Hu Hb Hi p.
  destruct (product_error u n i) as (_ & P2 & P3); try lia.
  fold p in P2, P3.
  destruct (exact_position u n i) as (Hst & X0 & X1); try lia.
  set (X := inject_Z i * (inject_Z u / inject_Z n)) in *.
  set (st := inject_Z u / inject_Z n) in *.
  assert (Qb : inject_Z u <= 2 ^ 50).
  { change (2 ^ 50) with (inject_Z (2 ^ 50)). rewrite <- Zle_Qle. exact Hb. }
  pose proof eps_value as He.
  assert (Hprod : 0 <= (2 ^ 50 - X) * (3 * eps))
    by (apply Qmult_le_0_compat; lra).
  change (2 ^ 50) with (1125899906842624 # 1) in *.
  assert (Hp0 : 0 <= p) by (destruct P3; lra).
  assert (Hp : p < inject_Z u) by lra.
  split; [apply int_nonneg; exact Hp0 |]. split.
  - rewrite <- (Qfloor_Z 0). now apply Qfloor_resp_le.
  - rewrite Zlt_Qlt. eapply Qle_lt_trans; [apply Qfloor_le | exact Hp].
Qed.

Lemma binary64_position_increasing (u n i j : Z) :
  (0 < n)%Z -> (n < u)%Z -> (u <= 2 ^ 25)%Z ->
  (0 <= i)%Z -> (i < j)%Z -> (j < n)%Z ->
  (Py.int (Py.fmul (Py.float_of_int i) (Py.truediv u n))
   < Py.int (Py.fmul (Py.float_of_int j) (Py.truediv u n)))%Z.
Proof.
  intros Hn Hu Hb Hi Hij Hj.
  destruct (binary64_position_bounds u n i) as [-> _]; try lia.
  destruct (binary64_position_bounds u n j) as [-> _]; try lia.
  apply Qfloor_lt.
  destruct (product_error u n i) as (_ & I2 & _); try lia.
  destruct (product_error u n j) as (J1 & _ & _); try lia.
  destruct (exact_position u n i) as (Hst & Xi0 & Xi1); try lia.
  destruct (exact_position u n j) as (_ & Xj0 & Xj1); try lia.
  pose proof (exact_gap u n i j) as Hgap. cbv zeta in Hgap.
  specialize (Hgap ltac:(lia) ltac:(lia) ltac:(lia)).
  pose proof (step_margin u n (2 ^ 25)) as Hm.
  specialize (Hm ltac:(lia) ltac:(lia) ltac:(lia)).
  set (st := inject_Z u / inject_Z n) in *.
  set (Xi := inject_Z i * st) in *. set (Xj := inject_Z j * st) in *.
  assert (Qb : inject_Z u <= 2 ^ 25).
  { change (2 ^ 25) with (inject_Z (2 ^ 25)). rewrite <- Zle_Qle. exact Hb. }
  pose proof eps_value as He.
  assert (Hpi : 0 <= (2 ^ 25 - Xi) * (3 * eps))
    by (apply Qmult_le_0_compat; lra).
  assert (Hpj : 0 <= (2 ^ 25 - Xj) * (2 * eps))
    by (apply Qmult_le_0_compat; lra).
  change (inject_Z (2 ^ 25)) with (33554432 # 1) in Hm.
  change (2 ^ 25) with (33554432 # 1) in *.
  lra.
Qed.

End Spacing.

(** ** The bounds of the strategies in binary64 *)

Section Bounds.

Lemma round_half_even_near (N : Z) (y : Q) :
  inject_Z N - (1 # 2) < y -> y <= inject_Z N -> Py.round_half_even y = N.
Proof.
  intros H1 H2. destruct (round_half_even_bounds y) as [B1 B2].
  assert (L : (N - 1 < Py.round_half_even y)%Z).
  { rewrite Zlt_Qlt. replace (N - 1)%Z with (N + -1)%Z by lia.
    rewrite inject_Z_plus. change (inject_Z (-1)) with (-1). lra. }
  assert (U : (Py.round_half_even y < N + 1)%Z).
  { rewrite Zlt_Qlt. rewrite inject_Z_plus. change (inject_Z 1) with 1. lra. }
  lia.
Qed.

(** A number a little below the integer [K], in the binade of [K], is
    rounded to [K]. *)
Lemma round64_near (K e : Z) (x : Q) :
  (0 <= e <= 52)%Z ->
  2 ^ e <= x -> x <= inject_Z K -> inject_Z K < 2 ^ (e + 1) ->
  (inject_Z K - x) * 2 ^ 52 < 2 ^ e * (1 # 2) ->
  Py.round64 x == inject_Z K.
Proof.
  intros He Hlo Hhi HK Hnear.
  assert (Hpos : 0 < x) by (eapply Qlt_le_trans; [apply (pow2_pos e) | exact Hlo]).
  assert (Hlog : Py.ilog2 x = e) by (apply ilog2_unique; [exact Hlo | lra]).
  rewrite (round64_pos x Hpos). unfold ulp_exponent. rewrite Hlog.
  replace (Z.max (e - 52) (-1074)) with (e - 52)%Z by lia.
  assert (HN : inject_Z (K * 2 ^ (52 - e)) == inject_Z K * 2 ^ (52 - e))
    by (rewrite inject_Z_mult, pow2_Z by lia; reflexivity).
  assert (HG : 2 ^ (e - 52) * 2 ^ (52 - e) == 1).
  { rewrite <- pow2_plus. now replace (e - 52 + (52 - e))%Z with 0%Z by lia. }
  assert (HP : 2 ^ (52 - e) * 2 ^ e == 2 ^ 52).
  { rewrite <- pow2_plus. now replace (52 - e + e)%Z with 52%Z by lia. }
  pose proof (pow2_pos e) as Pe. pose proof (pow2_pos (52 - e)) as Pr.
  pose proof (pow2_pos (e - 52)) as Pg.
  assert (Hy : x / 2 ^ (e - 52) == x * 2 ^ (52 - e)).
  { apply Qmult_inj_r with (2 ^ (e - 52)); [lra |].
    rewrite <- Qmult_assoc, (Qmult_comm (2 ^ (52 - e))), HG.
    field. lra. }
  rewrite (round_half_even_comp _ _ Hy).
  rewrite (round_half_even_near (K * 2 ^ (52 - e))).
  - rewrite HN, <- Qmult_assoc, (Qmult_comm (2 ^ (52 - e))), HG. ring.
  - rewrite HN.
    assert (Ht : (inject_Z K - x) * 2 ^ (52 - e) < 1 # 2).
    { apply (proj1 (Qmult_lt_r _ _ (2 ^ e) Pe)).
      rewrite <- Qmult_assoc, HP, (Qmult_comm (1 # 2)). exact Hnear. }
    lra.
  - rewrite HN. apply Qmult_le_compat_r; lra.
Qed.


Lemma int_round64 (x x' : Q) (k : Z) :
  (0 <= k <= 2 ^ 53)%Z ->
  x' == x -> inject_Z k <= x -> x * (1 + eps) < inject_Z k + 1 ->
  x == 0 \/ 2 ^ (-1022) <= x ->
  Py.int (Py.round64 x') = k.
Proof.
  intros Hk Hx' Hlo Hhi Hcase.
  assert (Qk : 0 <= inject_Z k)
    by (change 0 with (inject_Z 0); rewrite <- Zle_Qle; lia).
  assert (Hr : Py.round64 x' == Py.round64 x).
  { apply round64_nonneg_comp; [rewrite Hx'; lra | exact Hx']. }
  destruct (round64_error0 x Hcase) as [_ U].
  assert (L : inject_Z k <= Py.round64 x).
  { rewrite <- (round64_int k) by lia. apply round64_mono; lra. }
  rewrite int_nonneg by (rewrite Hr; lra).
  rewrite (Qfloor_comp _ _ Hr).
  apply Z.le_antisymm.
  - assert (Qfloor (Py.round64 x) < k + 1)%Z; [| lia].
    rewrite Zlt_Qlt, inject_Z_plus. change (inject_Z 1) with 1.
    eapply Qle_lt_trans; [apply Qfloor_le | lra].
  - rewrite <- (Qfloor_Z k). now apply Qfloor_resp_le.
Qed.

Lemma pow2_not_multiple_of_19 (e : Z) : (0 <= e)%Z -> (2 ^ e mod 19 <> 0)%Z.
Proof.
  intros He. pattern e. apply natlike_ind; [discriminate | | exact He].
  intros x Hx IH. rewrite Z.pow_succ_r by exact Hx.
  rewrite <- Z.mul_mod_idemp_r by discriminate.
  pose proof (Z.mod_pos_bound (2 ^ x) 19 eq_refl) as Hb.
  set (r := (2 ^ x mod 19)%Z) in *.
  assert (Hr : (1 <= r <= 18)%Z) by lia.
  clearbody r. intros H.
  assert (Hdiv : (2 * r = 19 * ((2 * r) / 19))%Z)
    by (apply Z.div_exact; [discriminate | exact H]).
  lia.
Qed.

Lemma small_cut : 2 ^ (-1022) <= 1 # 1000.
Proof. apply Qle_bool_iff. vm_compute. reflexivity. Qed.

Lemma literal_005 : Py.round64 0.05 == 3602879701896397 # 72057594037927936.
Proof. apply Qeq_bool_iff. vm_compute. reflexivity. Qed.

Lemma literal_095 : Py.round64 0.95 == 4278419646001971 # 4503599627370496.
Proof. apply Qeq_bool_iff. vm_compute. reflexivity. Qed.

(** The three bounds of the strategies, computed in binary64 as the code
    computes them, are the integers of the exact products and quotient,
    for up to [2 ^ 45] frames. *)
Lemma bounds_binary64 (n : Z) :
  (0 <= n <= 2 ^ 45)%Z ->
  Py.int (Py.fmul (Py.float_of_int n) (Py.round64 0.05))
  = Py.int (inject_Z n * 0.05)
  /\ Py.int (Py.fmul (Py.float_of_int n) (Py.round64 0.95))
     = Py.int (inject_Z n * 0.95)
  /\ Py.int (Py.truediv n 500) = Py.int (inject_Z n / 500).
Proof.
  intros Hn.
  assert (Hf : Py.float_of_int n == inject_Z n)
    by (apply float_of_int_exact; lia).
  assert (Qn0 : 0 <= inject_Z n)
    by (change 0 with (inject_Z 0); rewrite <- Zle_Qle; lia).
  assert (Qn : inject_Z n <= 35184372088832).
  { change 35184372088832 with (inject_Z (2 ^ 45)). rewrite <- Zle_Qle. lia. }
  assert (Qn1 : n <> 0%Z -> 1 <= inject_Z n).
  { intros H. change 1 with (inject_Z 1). rewrite <- Zle_Qle. lia. }
  pose proof small_cut as Hcut.
  assert (Hcase : forall c : Q, (1 # 1000) <= c ->
             inject_Z n * c == 0 \/ 2 ^ (-1022) <= inject_Z n * c).
  { intros c Hc. destruct (Z.eq_dec n 0%Z) as [-> | Hn0]; [left; ring | right].
    specialize (Qn1 Hn0).
    assert (0 <= (inject_Z n - 1) * c) by (apply Qmult_le_0_compat; lra).
    lra. }
  rewrite int_five_percent, int_ninety_five_percent, int_five_hundredth.
  rewrite !Z.quot_div_nonneg by lia.
  split; [| split].
  - pose proof literal_005 as Hc. set (c := Py.round64 0.05) in *.
    pose proof (Z.div_mod (n * 5) 100 ltac:(lia)) as Hdm.
    pose proof (Z.mod_pos_bound (n * 5) 100 eq_refl) as Hb.
    set (k := (n * 5 / 100)%Z) in *.
    assert (Qlo : 20 * inject_Z k <= inject_Z n).
    { change 20 with (inject_Z 20). rewrite <- inject_Z_mult, <- Zle_Qle. lia. }
    assert (Qhi : inject_Z n <= 20 * inject_Z k + 19).
    { change 20 with (inject_Z 20). change 19 with (inject_Z 19).
      rewrite <- inject_Z_mult, <- inject_Z_plus, <- Zle_Qle. lia. }
    apply (int_round64 (inject_Z n * c)); [lia | now rewrite Hf | | |].
    + rewrite Hc. lra.
    + rewrite Hc. unfold eps. change (2 ^ (-53)) with (1 # 9007199254740992).
      lra.
    + apply Hcase. rewrite Hc. lra.
  - pose proof literal_095 as Hc. set (c := Py.round64 0.95) in *.
    pose proof (Z.div_mod (n * 95) 100 ltac:(lia)) as Hdm.
    pose proof (Z.mod_pos_bound (n * 95) 100 eq_refl) as Hb.
    set (k := (n * 95 / 100)%Z) in *.
    assert (Qlo : 20 * inject_Z k <= 19 * inject_Z n).
    { change 20 with (inject_Z 20). change 19 with (inject_Z 19).
      rewrite <- !inject_Z_mult, <- Zle_Qle. lia. }
    assert (Qhi : 19 * inject_Z n <= 20 * inject_Z k + 19).
    { change 20 with (inject_Z 20). change 19 with (inject_Z 19).
      rewrite <- !inject_Z_mult, <- inject_Z_plus, <- Zle_Qle. lia. }
    destruct (Z.eq_dec (19 * n)%Z (20 * k)%Z) as [Hex | Hne].
    + (* the exact product is the integer [k]: the float product lies
         just below it and is rounded to it *)
      destruct (Z.eq_dec n 0%Z) as [Hn0 | Hn0].
      { assert (Hk0 : k = 0%Z) by lia. rewrite Hk0, Hn0. reflexivity. }
      assert (Hk : (19 <= k)%Z) by lia.
      assert (Qex : 19 * inject_Z n == 20 * inject_Z k).
      { change 20 with (inject_Z 20). change 19 with (inject_Z 19).
        rewrite <- !inject_Z_mult. now rewrite Hex. }
      destruct (Z.log2_spec k ltac:(lia)) as [L1 L2].
      set (e := Z.log2 k) in *.
      assert (He0 : (0 <= e)%Z) by apply Z.log2_nonneg.
      assert (He : (e <= 52)%Z).
      { assert (e < 53)%Z; [| lia].
        apply (Z.pow_lt_mono_r_iff 2); [lia | lia |]. lia. }
      assert (Hnot : k <> (2 ^ e)%Z).
      { intros Hp. apply (pow2_not_multiple_of_19 e He0).
        rewrite <- Hp. apply Z.mod_divide; [discriminate |].
        exists (n / 20)%Z.
        assert (Hdiv : (n = 20 * (n / 20))%Z).
        { apply Z.div_exact; [discriminate |].
          apply Z.mod_divide; [discriminate |].
          apply (Z.gauss 20 19 n); [exists k; lia | reflexivity]. }
        lia. }
      assert (Q1 : 2 ^ e + 1 <= inject_Z k).
      { rewrite <- pow2_Z by lia. change 1 with (inject_Z 1).
        rewrite <- inject_Z_plus, <- Zle_Qle. lia. }
      assert (Q2 : inject_Z k < 2 ^ (e + 1)).
      { rewrite <- pow2_Z by lia. rewrite <- Zlt_Qlt.
        now rewrite Z.add_1_r. }
      assert (Q3 : 2 ^ (e + 1) == 2 * 2 ^ e).
      { rewrite pow2_plus. change (2 ^ 1) with 2. ring. }
      assert (Hround : Py.round64 (inject_Z n * c) == inject_Z k).
      { apply (round64_near k e); [lia | | | exact Q2 |];
          rewrite Hc; change (2 ^ 52) with (4503599627370496 # 1); lra. }
      assert (Hfm : Py.fmul (Py.float_of_int n) c
                    == Py.round64 (inject_Z n * c)).
      { unfold Py.fmul. apply round64_nonneg_comp; [| now rewrite Hf].
        rewrite Hf, Hc. lra. }
      rewrite (int_Qeq _ (inject_Z k)) by (rewrite Hfm; exact Hround).
      rewrite int_nonneg by (change 0 with (inject_Z 0); rewrite <- Zle_Qle; lia).
      apply Qfloor_Z.
    + apply (int_round64 (inject_Z n * c)); [lia | now rewrite Hf | | |].
      * assert (Qstrict : 20 * inject_Z k + 1 <= 19 * inject_Z n).
        { change 20 with (inject_Z 20). change 19 with (inject_Z 19).
          change 1 with (inject_Z 1).
          rewrite <- !inject_Z_mult, <- inject_Z_plus, <- Zle_Qle. lia. }
        rewrite Hc. lra.
      * rewrite Hc. unfold eps. change (2 ^ (-53)) with (1 # 9007199254740992).
        lra.
      * apply Hcase. rewrite Hc. lra.
  - pose proof (Z.div_mod n 500 ltac:(lia)) as Hdm.
    pose proof (Z.mod_pos_bound n 500 eq_refl) as Hb.
    set (k := (n / 500)%Z) in *.
    assert (Qlo : 500 * inject_Z k <= inject_Z n).
    { change 500 with (inject_Z 500). rewrite <- inject_Z_mult, <- Zle_Qle. lia. }
    assert (Qhi : inject_Z n <= 500 * inject_Z k + 499).
    { change 500 with (inject_Z 500). change 499 with (inject_Z 499).
      rewrite <- inject_Z_mult, <- inject_Z_plus, <- Zle_Qle. lia. }
    unfold Py.truediv. change (inject_Z 500) with 500.
    apply (int_round64 (inject_Z n * (1 # 500))); [lia | | | |].
    + unfold Qdiv. reflexivity.
    + lra.
    + unfold eps. change (2 ^ (-53)) with (1 # 9007199254740992). lra.
    + apply Hcase. lra.
Qed.

End Bounds.

(** ** The key-moment strategy *)

Section KeyMomentStride.
Import ThumbnailGenerator Sampling.

Lemma key_moment_sample_rate_pos (frame_count : Z) :
  (0 < key_moment_sample_rate frame_count)%Z.
Proof. unfold key_moment_sample_rate. lia. Qed.

Lemma key_moment_probes_sorted (frame_count : Z) :
  StronglySorted Z.lt (key_moment_probes frame_count).
Proof.
  unfold key_moment_probes.
  apply range3_sorted, key_moment_sample_rate_pos.
Qed.

(** The stride is not computed from the size of the restricted range (at
    1000 frames it is 2, where the size 900 of the restricted range gives
    1), and more than 500 frames can be probed (900 of 999). *)
Lemma key_moment_stride_counterexample :
  key_moment_sample_rate 1000 = 2%Z
  /\ restricted_count 1000 = 900%Z
  /\ Z.max 1 (Py.int (inject_Z (restricted_count 1000) / 500)) = 1%Z
  /\ key_moment_sample_rate 1000
     <> Z.max 1 (Py.int (inject_Z (restricted_count 1000) / 500))
  /\ length (key_moment_probes 999) = 900%nat.
Proof. repeat split; try (vm_compute; reflexivity). vm_compute. discriminate. Qed.

(** C6, amended.  The key-moment strategy probes the frames of
    [[int(0.05 * frame_count), int(0.95 * frame_count))] at the stride
    [max(1, int(frame_count / 500))], computed from the total number of
    frames: the probes are the indices [start + k * stride] of that range,
    in ascending order. *)
Theorem key_moment_probes_stride (frame_count : Z) :
  let stride := key_moment_sample_rate frame_count in
  let start := Py.int (inject_Z frame_count * 0.05) in
  let stop := Py.int (inject_Z frame_count * 0.95) in
  stride = Z.max 1 (frame_count ÷ 500)
  /\ key_moment_probes frame_count
     = List.map (fun k => (start + Z.of_nat k * stride)%Z)
                (seq 0 (length (key_moment_probes frame_count)))
  /\ (forall p : Z,
         In p (key_moment_probes frame_count)
         <-> (start <= p < stop)%Z /\ (stride | p - start)%Z)
  /\ StronglySorted Z.lt (key_moment_probes frame_count).
Proof.
  intros stride start stop.
  pose proof (key_moment_sample_rate_pos frame_count) as Hpos.
  split; [| split; [| split]].
  - unfold stride, key_moment_sample_rate. now rewrite int_five_hundredth.
  - unfold key_moment_probes, Py.range3. fold start stop stride.
    now rewrite length_map, length_seq.
  - intros p. unfold key_moment_probes. now apply range3_In.
  - apply key_moment_probes_sorted.
Qed.

End KeyMomentStride.

(** ** The ranking of the probes by change score *)

Section Ranking.
Import ThumbnailGenerator Sampling.

Context {Frame Gray : Type}.
Variable read : Z -> option Frame.
Variable cvtColor : Frame -> Gray.
Variable diff_score : Gray -> Gray -> Q.

Lemma probe_loop_indices (indices : list Z) :
  forall prev x,
    In x (probe_loop read cvtColor diff_score indices prev) ->
    In (frame_idx x) indices.
Proof.
  induction indices as [| i rest IH]; intros prev x Hx; simpl in Hx.
  - contradiction.
  - destruct (read i) as [frame |].
    + destruct prev as [prev |].
      * destruct Hx as [<- | Hx]; [now left | right; eauto].
      * right; eauto.
    + right; eauto.
Qed.

(** The entries of [frame_diffs] are in the order of the probes. *)
Lemma probe_loop_sorted (indices : list Z) :
  StronglySorted Z.lt indices ->
  forall prev,
    StronglySorted (fun a b => (frame_idx a < frame_idx b)%Z)
                   (probe_loop read cvtColor diff_score indices prev).
Proof.
  induction 1 as [| i rest Hs IH Hi]; intros prev; simpl.
  - constructor.
  - destruct (read i) as [frame |]; [| apply IH].
    destruct prev as [prev |]; [| apply IH].
    constructor; [apply IH |].
    apply List.Forall_forall. intros x Hx.
    apply probe_loop_indices in Hx.
    apply (proj1 (List.Forall_forall _ _) Hi) in Hx. exact Hx.
Qed.

Lemma StronglySorted_precedes {A} (R : A -> A -> Prop) (l : list A) (p q : A) :
  StronglySorted R l -> precedes l p q -> R p q.
Proof.
  intros Hs (l1 & l2 & l3 & ->).
  induction l1 as [| a l1 IH]; simpl in Hs.
  - apply StronglySorted_inv in Hs as [_ Hs].
    apply (proj1 (List.Forall_forall _ _) Hs).
    apply in_or_app. right. now left.
  - apply StronglySorted_inv in Hs as [Hs _]. now apply IH.
Qed.

Lemma precedes_of_lt (l : list (Z * Q * Frame)) (p q : Z * Q * Frame) :
  StronglySorted (fun a b => (frame_idx a < frame_idx b)%Z) l ->
  In p l -> In q l -> (frame_idx p < frame_idx q)%Z ->
  precedes l p q.
Proof.
  intros Hs Hp Hq Hlt.
  apply in_split in Hp as (l1 & r & ->).
  assert (Hr : In q r).
  { apply in_app_or in Hq as [Hq | [-> | Hq]]; [| lia | exact Hq].
    assert (precedes (l1 ++ p :: r) q p) as Hqp.
    { apply in_split in Hq as (m1 & m2 & ->).
      exists m1, m2, r. now rewrite <- app_assoc. }
    apply (StronglySorted_precedes _ _ _ _ Hs) in Hqp. lia. }
  apply in_split in Hr as (l2 & l3 & ->). now exists l1, l2, l3.
Qed.

(** C9.  The ranking of the probes is a stable sort by descending score:
    the ranked list holds the same entries as [frame_diffs], with scores
    that never increase from left to right, and of two entries with equal
    scores the one in front has the lower frame index and stood in front
    in [frame_diffs], the list in probe order, as well. *)
Theorem ranking_is_stable (frame_count : Z) :
  let diffs := frame_diffs read cvtColor diff_score frame_count in
  let ranked := ranked_frame_diffs read cvtColor diff_score frame_count in
  Permutation ranked diffs
  /\ StronglySorted (fun a b => score b <= score a) ranked
  /\ (forall p q,
         precedes ranked p q -> score p == score q ->
         (frame_idx p < frame_idx q)%Z /\ precedes diffs p q).
Proof.
  intros diffs ranked.
  assert (Hperm : Permutation ranked diffs) by apply stable_sort_perm.
  assert (Hdiffs : StronglySorted
                     (fun a b => (frame_idx a < frame_idx b)%Z) diffs).
  { apply probe_loop_sorted, key_moment_probes_sorted. }
  assert (Hrank :
            StronglySorted
              (ranked_by (fun a b => negb (Py.Qltb (score a) (score b)))
                         (fun a b => (frame_idx a < frame_idx b)%Z))
              ranked).
  { apply stable_sort_ranked; [| | exact Hdiffs].
    - intros a b. cmp_cases; simpl; auto; lra.
    - intros a b c Hab Hbc.
      apply negb_true_iff, Qltb_ge in Hab, Hbc.
      apply negb_true_iff, Qltb_ge. lra. }
  split; [exact Hperm |]. split.
  - eapply StronglySorted_weaken; [| exact Hrank].
    intros a b [Hab _]. now apply negb_true_iff, Qltb_ge in Hab.
  - intros p q Hpq Heq.
    destruct (StronglySorted_precedes _ _ _ _ Hrank Hpq) as [_ Hlt].
    assert (Hidx : (frame_idx p < frame_idx q)%Z).
    { apply Hlt. apply negb_true_iff, Qltb_ge. lra. }
    split; [exact Hidx |].
    destruct Hpq as (l1 & l2 & l3 & Hr).
    apply precedes_of_lt; auto.
    + apply (Permutation_in p Hperm). rewrite Hr.
      apply in_or_app. right. now left.
    + apply (Permutation_in q Hperm). rewrite Hr.
      apply in_or_app. right. right. apply in_or_app. right. now left.
Qed.

End Ranking.

Lemma ranking_is_stable_witness :
  let read : Z -> option Z := fun i => Some i in
  let cvtColor : Z -> Z := fun frame => frame in
  let diff_score : Z -> Z -> Q :=
    fun gray _ => if Z.even (gray / 2) then 1 else 3 in
  let entry (i : Z) (s : Q) : Z * Q * Z := (i, s, i) in
  ThumbnailGenerator.ranked_frame_diffs read cvtColor diff_score 10
  = [ entry 2%Z 3; entry 3%Z 3; entry 6%Z 3; entry 7%Z 3;
      entry 1%Z 1; entry 4%Z 1; entry 5%Z 1; entry 8%Z 1 ]
  /\ Sampling.precedes
       (ThumbnailGenerator.frame_diffs read cvtColor diff_score 10)
              (entry 3%Z 3) (entry 6%Z 3).
Proof.
  intros read cvtColor diff_score entry.
  split; [vm_compute; reflexivity |].
  apply (proj2 (proj2 (ranking_is_stable read cvtColor diff_score 10))).
  - exists [entry 2%Z 3], [],
      [entry 7%Z 3; entry 1%Z 1; entry 4%Z 1; entry 5%Z 1; entry 8%Z 1].
    vm_compute. reflexivity.
  - reflexivity.
Defined.

(** ** The usable range and uniform sampling *)

Section Uniform.
Import ThumbnailGenerator Sampling.

Local Open Scope Z_scope.

Lemma usable_range_cases (frame_count : Z) :
  (restricted_count frame_count <= 0
   /\ usable_range frame_count = (0, frame_count))
  \/ (0 < restricted_count frame_count
      /\ 0 <= frame_count
      /\ usable_range frame_count
         = (Py.int (inject_Z frame_count * 0.05),
            Py.int (inject_Z frame_count * 0.95))).
Proof.
  unfold usable_range, restricted_count.
  destruct (Z.leb_spec (Py.int (inject_Z frame_count * 0.95)
                        - Py.int (inject_Z frame_count * 0.05)) 0)
    as [H | H]; [left; auto | right].
  split; [exact H |]. split; [| reflexivity].
  rewrite int_five_percent, int_ninety_five_percent in H.
  destruct (Z.le_gt_cases 0 frame_count) as [Hfc | Hfc]; [exact Hfc |].
  assert (frame_count * 95 ÷ 100 <= frame_count * 5 ÷ 100)
    by (apply Z.quot_le_mono; lia).
  lia.
Qed.

Lemma usable_start_nonneg (frame_count : Z) : 0 <= usable_start frame_count.
Proof.
  unfold usable_start.
  destruct (usable_range_cases frame_count) as [[_ ->] | (_ & Hfc & ->)];
    simpl; [lia |].
  rewrite int_five_percent. apply Z.quot_pos; lia.
Qed.

(** The bounds that [_extract_uniform_frames] and [_extract_random_frames]
    compute are those of the usable range. *)
Lemma extract_bounds (frame_count : Z) :
  (if Py.int (inject_Z frame_count * 0.95)
      - Py.int (inject_Z frame_count * 0.05) <=? 0
   then (0, frame_count, frame_count)
   else (Py.int (inject_Z frame_count * 0.05),
         Py.int (inject_Z frame_count * 0.95),
         Py.int (inject_Z frame_count * 0.95)
         - Py.int (inject_Z frame_count * 0.05)))
  = (usable_start frame_count, usable_stop frame_count,
     usable_count frame_count).
Proof.
  unfold usable_count, usable_stop, usable_start, usable_range. cbv zeta.
  destruct (Py.int (inject_Z frame_count * 0.95)
            - Py.int (inject_Z frame_count * 0.05) <=? 0); simpl.
  - now rewrite Z.sub_0_r.
  - reflexivity.
Qed.

Lemma uniform_frame_indices_eq (num_frames frame_count : Z) :
  uniform_frame_indices num_frames frame_count
  = if usable_count frame_count <=? num_frames
    then Some (Py.range2 (usable_start frame_count)
                         (usable_stop frame_count))
    else if num_frames =? 0 then None
         else Some (List.map
                      (fun i =>
                         Py.int
                           (Py.fadd
                              (Py.float_of_int (usable_start frame_count))
                              (Py.fmul
                                 (Py.float_of_int i)
                                 (Py.truediv (usable_count frame_count)
                                             num_frames))))
                      (Py.range num_frames)).
Proof.
  unfold uniform_frame_indices. cbv zeta.
  now rewrite (extract_bounds frame_count).
Qed.

Lemma random_sample_args_eq (num_frames frame_count : Z) :
  random_sample_args num_frames frame_count
  = (Py.range2 (usable_start frame_count) (usable_stop frame_count),
     Z.min (num_frames * 3) (usable_count frame_count)).
Proof.
  unfold random_sample_args. cbv zeta.
  now rewrite (extract_bounds frame_count).
Qed.

(** The usable range lies inside the video. *)
Lemma usable_stop_le (frame_count : Z) :
  0 <= frame_count -> usable_stop frame_count <= frame_count.
Proof.
  intros Hfc. unfold usable_stop.
  destruct (usable_range_cases frame_count) as [[_ ->] | (_ & _ & ->)];
    simpl; [lia |].
  rewrite int_ninety_five_percent.
  apply Z.quot_le_upper_bound; lia.
Qed.

Lemma usable_count_pos (frame_count : Z) :
  0 < usable_count frame_count -> 0 <= frame_count.
Proof.
  unfold usable_count, usable_stop, usable_start.
  destruct (usable_range_cases frame_count) as [[_ ->] | (_ & Hfc & ->)];
    simpl; lia.
Qed.

(** The evenly spaced indices in exact arithmetic: the number that is
    truncated is not negative, and its floor lies in the usable range. *)
Lemma uniform_step_bounds (s u n i : Z) :
  0 <= s -> 0 < n -> n < u -> 0 <= i < n ->
  let x := (inject_Z s + inject_Z i * (inject_Z u / inject_Z n))%Q in
  Py.int x = Qfloor x /\ s <= Qfloor x < s + u.
Proof.
  intros Hs Hn Hu Hi x.
  destruct (exact_position u n i) as (Hst & X0 & X1); try lia.
  assert (Qs : (0 <= inject_Z s)%Q) by (apply (proj1 (inject_Z_le 0 s)); lia).
  assert (Hlo : (inject_Z s <= x)%Q) by (unfold x; lra).
  assert (Hhi : (x < inject_Z (s + u))%Q).
  { unfold x. rewrite inject_Z_plus. lra. }
  split; [apply int_nonneg; lra |]. split.
  - rewrite <- (Qfloor_Z s). now apply Qfloor_resp_le.
  - apply (proj2 (inject_Z_lt (Qfloor x) (s + u))).
    eapply Qle_lt_trans; [apply Qfloor_le | exact Hhi].
Qed.

(** The indices that are truncated are not negative, so that [int] is
    the floor of the specification. *)
Lemma uniform_index_floor (frame_count target_count i : Z) :
  0 < target_count -> target_count < usable_count frame_count -> 0 <= i ->
  Py.int (Py.fadd (Py.float_of_int (usable_start frame_count))
                  (Py.fmul (Py.float_of_int i)
                           (Py.truediv (usable_count frame_count)
                                       target_count)))
  = uniform_index frame_count target_count i.
Proof.
  intros Hn Hu Hi. unfold uniform_index. cbv zeta.
  apply int_nonneg. apply index_nonneg; try lia.
  apply usable_start_nonneg.
Qed.

(** For up to [2 ^ 50] frames the indices computed in binary64 lie in the
    usable range. *)
Lemma uniform_index_in_range (frame_count target_count i : Z) :
  frame_count <= 2 ^ 50 ->
  0 < target_count -> target_count < usable_count frame_count ->
  0 <= i < target_count ->
  usable_start frame_count <= uniform_index frame_count target_count i
  < usable_stop frame_count.
Proof.
  intros Hfc Hn Hu Hi.
  assert (Hpos : 0 <= frame_count) by (apply usable_count_pos; lia).
  pose proof (usable_stop_le frame_count Hpos) as Hstop.
  pose proof (usable_start_nonneg frame_count) as Hstart.
  assert (Hsum : usable_stop frame_count
                 = usable_start frame_count + usable_count frame_count)
    by (unfold usable_count; lia).
  destruct (binary64_index_bounds (usable_start frame_count)
              (usable_count frame_count) target_count i)
    as [_ Hb]; try lia.
  unfold uniform_index. cbv zeta in *. lia.
Qed.

(** The arithmetic of the indices is the binary64 one: with 22 indices
    asked from a video of 33 frames, index number 11 is 15, where exact
    arithmetic gives [1 + 11 * (30 / 22) = 16]. *)
Lemma uniform_index_rounding :
  uniform_frame_indices 22 33 <> exact_uniform_indices 22 33
  /\ uniform_index 33 22 11 = 15
  /\ Qfloor (1 + 11 * (30 / 22)) = 16.
Proof.
  split; [| split]; [| vm_compute; reflexivity | vm_compute; reflexivity].
  intros H. vm_compute in H. discriminate H.
Qed.

(** The formal reading of the second half of C7 fails for
    [target_count = 0]: with 100 frames the usable range has 90 indices,
    and the division by [num_frames] raises. *)
Lemma uniform_zero_target_counterexample :
  0 < usable_count 100
  /\ uniform_frame_indices 0 100 = None
  /\ ~ (forall frame_count target_count : Z,
           target_count < usable_count frame_count ->
           uniform_frame_indices target_count frame_count
           = Some (List.map (uniform_index frame_count target_count)
                            (Py.range target_count))).
Proof.
  split; [reflexivity |]. split; [reflexivity |].
  intros H. specialize (H 100 0 eq_refl). discriminate H.
Qed.

(** C7, amended.  For every [frame_count] and [target_count]:
    when [target_count >= usable_count], uniform sampling proposes the
    indices of the usable range, each once and in ascending order;
    otherwise, when [target_count] is not 0, it proposes the
    [target_count] indices [floor(start + i * step)] for
    [i = 0 .. target_count - 1], with [step = usable_count / target_count],
    the product and the sum computed in floating point (binary64), and
    for up to [2 ^ 50] frames all of them lie in the usable range; and
    when [target_count] is 0 and the usable range is not empty, the
    division that computes [step] raises. *)
Theorem uniform_sampling_indices (frame_count target_count : Z) :
  (usable_count frame_count <= target_count ->
   exists indices,
     uniform_frame_indices target_count frame_count = Some indices
     /\ indices = Py.range2 (usable_start frame_count)
                            (usable_stop frame_count)
     /\ (forall i, In i indices
                   <-> usable_start frame_count <= i
                       < usable_stop frame_count)
     /\ StronglySorted Z.lt indices)
  /\ (target_count < usable_count frame_count -> target_count <> 0 ->
      uniform_frame_indices target_count frame_count
      = Some (List.map (uniform_index frame_count target_count)
                       (Py.range target_count))
      /\ length (Py.range target_count) = Z.to_nat target_count
      /\ (frame_count <= 2 ^ 50 ->
          forall i, In i (Py.range target_count) ->
                    usable_start frame_count
                    <= uniform_index frame_count target_count i
                    < usable_stop frame_count))
  /\ (target_count = 0 -> 0 < usable_count frame_count ->
      uniform_frame_indices target_count frame_count = None).
Proof.
  rewrite uniform_frame_indices_eq. split; [| split].
  - intros Hge.
    rewrite (proj2 (Z.leb_le _ _) Hge).
    eexists. split; [reflexivity |]. split; [reflexivity |]. split.
    + intros i. apply range2_In.
    + apply range3_sorted. lia.
  - intros Hlt Hne.
    rewrite (proj2 (Z.leb_gt _ _) Hlt), (proj2 (Z.eqb_neq _ _) Hne).
    assert (Hin : forall i, In i (Py.range target_count) ->
                            0 < target_count /\ 0 <= i < target_count).
    { intros i Hi. apply range2_In in Hi. lia. }
    split; [| split].
    + f_equal. apply map_ext_in. intros i Hi.
      destruct (Hin i Hi) as [Hpos Hi'].
      apply uniform_index_floor; lia.
    + unfold Py.range. rewrite range2_length. now rewrite Z.sub_0_r.
    + intros Hfc i Hi. destruct (Hin i Hi) as [Hpos Hi'].
      now apply uniform_index_in_range.
  - intros -> Hpos.
    now rewrite (proj2 (Z.leb_gt _ _) Hpos).
Qed.

End Uniform.

Lemma uniform_sampling_indices_witness :
  ThumbnailGenerator.uniform_frame_indices 5 100
  = Some [5; 23; 41; 59; 77]%Z
  /\ ThumbnailGenerator.uniform_frame_indices 90 100
     = Some (Py.range2 5 95).
Proof.
  split.
  - rewrite (proj1 (proj1 (proj2 (uniform_sampling_indices 100 5))
                      eq_refl ltac:(discriminate))).
    vm_compute. reflexivity.
  - destruct (proj1 (uniform_sampling_indices 100 90) ltac:(discriminate))
      as (indices & -> & -> & _).
    reflexivity.
Defined.

(** ** The fall-back to the full range *)

Section Fallback.
Import ThumbnailGenerator Sampling.

Local Open Scope Z_scope.

Lemma exact_uniform_in_usable_range (num_frames frame_count : Z)
    (indices : list Z) (i : Z) :
  exact_uniform_indices num_frames frame_count = Some indices ->
  In i indices ->
  usable_start frame_count <= i < usable_stop frame_count.
Proof.
  unfold exact_uniform_indices.
  destruct (Z.leb_spec (usable_count frame_count) num_frames) as [Hge | Hlt].
  - intros [= <-]. apply range2_In.
  - destruct (Z.eqb_spec num_frames 0) as [Hz | Hnz]; [discriminate |].
    intros [= <-] Hi. apply in_map_iff in Hi as (k & <- & Hk).
    apply range2_In in Hk.
    destruct (uniform_step_bounds (usable_start frame_count)
                (usable_count frame_count) num_frames k)
      as [Hint Hb]; try lia; [apply usable_start_nonneg |].
    cbv zeta in Hint, Hb. rewrite Hint.
    assert (Hstop : usable_stop frame_count
                    = usable_start frame_count + usable_count frame_count)
      by (unfold usable_count; lia).
    rewrite Hstop. exact Hb.
Qed.

Lemma uniform_in_usable_range (num_frames frame_count : Z)
    (indices : list Z) (i : Z) :
  frame_count <= 2 ^ 50 ->
  uniform_frame_indices num_frames frame_count = Some indices ->
  In i indices ->
  usable_start frame_count <= i < usable_stop frame_count.
Proof.
  intros Hfc. rewrite uniform_frame_indices_eq.
  destruct (Z.leb_spec (usable_count frame_count) num_frames) as [Hge | Hlt].
  - intros [= <-]. apply range2_In.
  - destruct (Z.eqb_spec num_frames 0) as [Hz | Hnz]; [discriminate |].
    intros [= <-] Hi. apply in_map_iff in Hi as (k & <- & Hk).
    apply range2_In in Hk.
    rewrite uniform_index_floor by lia.
    apply uniform_index_in_range; lia.
Qed.

(** C4.  The uniform and the random strategy restrict the indices to the
    usable range, which is the whole of [[0, frame_count)] when the range
    without the first and last 5% is empty: the indices of the uniform
    strategy lie in it in exact arithmetic, and so do those the code
    computes in binary64, for up to [2 ^ 50] frames.  The key-moment
    strategy restricts its probes to the range without the first and last
    5% and has no fall-back: for a video of one frame that range is
    empty, the uniform and the random strategy propose from [[0, 1)],
    and the key-moment strategy probes nothing. *)
Theorem key_moment_has_no_fallback :
  (forall num_frames frame_count indices i,
      exact_uniform_indices num_frames frame_count = Some indices ->
      In i indices ->
      usable_start frame_count <= i < usable_stop frame_count)
  /\ (forall num_frames frame_count indices i,
         frame_count <= 2 ^ 50 ->
         uniform_frame_indices num_frames frame_count = Some indices ->
         In i indices ->
         usable_start frame_count <= i < usable_stop frame_count)
  /\ (forall num_frames frame_count,
         fst (random_sample_args num_frames frame_count)
         = Py.range2 (usable_start frame_count) (usable_stop frame_count))
  /\ (forall frame_count p,
         In p (key_moment_probes frame_count) ->
         Py.int (inject_Z frame_count * 0.05) <= p
         < Py.int (inject_Z frame_count * 0.95))
  /\ restricted_count 1 = 0
  /\ usable_range 1 = (0, 1)
  /\ uniform_frame_indices 1 1 = Some [0]
  /\ fst (random_sample_args 1 1) = [0]
  /\ key_moment_probes 1 = [].
Proof.
  split; [exact exact_uniform_in_usable_range |].
  split; [exact uniform_in_usable_range |].
  split; [intros n fc; now rewrite random_sample_args_eq |].
  split.
  - intros fc p Hp. unfold key_moment_probes in Hp.
    apply range3_In in Hp; [tauto | apply key_moment_sample_rate_pos].
  - repeat split; vm_compute; reflexivity.
Qed.

End Fallback.


(** * Further properties of the code *)

(** ** More on the complement *)

Section ComplementMore.
Import VideoEditor Timeline Intervals.

Lemma gaps_from_positive (D : Q) (r : list Segment) :
  forall t, positive_duration (gaps_from t r D) = true.
Proof.
  induction r as [| x r IH]; intros t; simpl.
  - destruct (Py.Qltb t D) eqn:E; simpl; [now rewrite E | reflexivity].
  - destruct (Py.Qltb t (start_time x)) eqn:E; simpl.
    + rewrite E. apply IH.
    + apply IH.
Qed.


Lemma filter_forallb {A} (f : A -> bool) (l : list A) :
  forallb f l = true -> List.filter f l = l.
Proof.
  induction l as [| a l IH]; simpl; [reflexivity |].
  intros H. apply andb_true_iff in H as [Ha Hl].
  rewrite Ha. f_equal. now apply IH.
Qed.



Lemma total_duration_app (a b : list Segment) :
  total_duration (a ++ b) == total_duration a + total_duration b.
Proof.
  induction a as [| x a IH]; simpl; [lra |]. rewrite IH. lra.
Qed.

Lemma gaps_from_duration (D : Q) (r : list Segment) :
  forall t, chain t r D ->
            total_duration (gaps_from t r D) + total_duration r == D - t.
Proof.
  induction r as [| x r IH]; intros t Hc; simpl in *.
  - destruct (Qltb_spec t D); simpl; lra.
  - destruct Hc as (Htx & Hx & Hc). specialize (IH _ Hc).
    rewrite total_duration_app.
    destruct (Qltb_spec t (start_time x)); simpl; lra.
Qed.

(** X2.  For a well-formed list of segments to remove (sorted by start,
    pairwise non-overlapping, of positive durations, within [[0, D)]),
    the durations of the complement and of the removed segments add up
    to the duration of the video. *)
Theorem complement_duration (remove : list Segment) (D : Q) :
  0 <= D ->
  sorted_by_start remove = true ->
  non_overlapping remove = true ->
  positive_duration remove = true ->
  within D remove = true ->
  total_duration (_get_segments_to_keep remove D) + total_duration remove
  == D.
Proof.
  intros HD Hs Hn Hp Hw.
  destruct remove as [| x r]; [simpl; lra |].
  rewrite keep_gaps.
  rewrite (gaps_from_duration D (x :: r) 0); [lra |].
  apply chain_intro; auto.
  intros y Hy. injection Hy as <-.
  simpl in Hw. apply andb_true_iff in Hw as [Hw _].
  apply andb_true_iff in Hw as [Hw _].
  now apply negb_true_iff, Qltb_ge in Hw.
Qed.

Lemma complement_duration_witness :
  let remove := [ mkSegment 6 12; mkSegment 18 24 ] in
  total_duration (_get_segments_to_keep remove 30) + total_duration remove
  == 30.
Proof.
  apply complement_duration; [discriminate | | | |]; reflexivity.
Defined.

Lemma tiles_gaps_empty (D : Q) (r : list Segment) :
  forall t, tiles_from t D r = true -> gaps_from t r D = [].
Proof.
  induction r as [| x r IH]; intros t Ht; simpl in *.
  - apply Qeq_bool_iff in Ht. destruct (Qltb_spec t D); [lra | reflexivity].
  - apply andb_true_iff in Ht as [Ht Hr].
    apply andb_true_iff in Ht as [Ht _].
    apply Qeq_bool_iff in Ht. rewrite (IH _ Hr).
    destruct (Qltb_spec t (start_time x)); [lra | reflexivity].
Qed.

Lemma gaps_empty_tiles (D : Q) (r : list Segment) :
  forall t, chain t r D -> gaps_from t r D = [] -> tiles_from t D r = true.
Proof.
  induction r as [| x r IH]; intros t Hc Hg; simpl in *.
  - apply Qeq_bool_iff. destruct (Qltb_spec t D); [discriminate | lra].
  - destruct Hc as (Htx & Hx & Hc).
    apply app_eq_nil in Hg as [Hg1 Hg2].
    rewrite (IH _ Hc Hg2), (proj2 (Qltb_lt _ _) Hx).
    destruct (Qltb_spec t (start_time x)); [discriminate |].
    assert (Heq : start_time x == t) by lra.
    apply Qeq_bool_iff in Heq. now rewrite Heq.
Qed.

(** X3.  Nothing is kept exactly when the segments to remove cover the
    whole video: for a non-empty list that tiles [[0, D)] the complement
    is empty, and for a well-formed non-empty list an empty complement
    means that the list tiles [[0, D)]. *)
Theorem complement_empty_iff (remove : list Segment) (D : Q) :
  remove <> [] ->
  (tiles D remove = true -> _get_segments_to_keep remove D = [])
  /\ (0 <= D ->
      sorted_by_start remove = true ->
      non_overlapping remove = true ->
      positive_duration remove = true ->
      within D remove = true ->
      _get_segments_to_keep remove D = [] ->
      tiles D remove = true).
Proof.
  intros Hne. destruct remove as [| x r]; [contradiction |].
  rewrite keep_gaps. split.
  - apply tiles_gaps_empty.
  - intros HD Hs Hn Hp Hw. apply gaps_empty_tiles.
    apply chain_intro; auto.
    intros y Hy. injection Hy as <-.
    simpl in Hw. apply andb_true_iff in Hw as [Hw _].
    apply andb_true_iff in Hw as [Hw _].
    now apply negb_true_iff, Qltb_ge in Hw.
Qed.

Lemma complement_empty_iff_witness :
  _get_segments_to_keep [ mkSegment 0 12; mkSegment 12 30 ] 30 = [].
Proof.
  apply (complement_empty_iff [ mkSegment 0 12; mkSegment 12 30 ] 30);
    [discriminate | reflexivity].
Defined.

End ComplementMore.

(** ** More on merging short segments *)

Section MergeMore.
Import VideoEditor MergeSpec Intervals.

Variable min_duration : Q.

Lemma merge_short_output_separated (first : Segment) (rest : list Segment) :
  separated min_duration (merge_short min_duration first rest) = true.
Proof.
  unfold merge_short.
  apply (merge_short_separated min_duration rest [] first). reflexivity.
Qed.

(** X4.  The lists that [_merge_short_segments] returns unchanged are
    exactly those in which no two neighbours are both shorter than
    [min_duration], the duration of a segment being the float difference
    [end_time - start_time] that the code computes. *)
Theorem merge_short_fixed_iff (segments : list Segment) :
  _merge_short_segments min_duration segments = Some segments
  <-> separated min_duration segments = true.
Proof.
  split; [| apply merge_short_fixed].
  destruct segments as [| first rest]; [reflexivity |].
  rewrite merge_short_refines. intros [= H]. rewrite <- H at 1.
  apply merge_short_output_separated.
Qed.

(** A group of successive segments, as its first segment and the ones
    behind it, and the one segment that spans it. *)
Definition members (g : Segment * list Segment) : list Segment :=
  fst g :: snd g.

Definition span (g : Segment * list Segment) : Segment :=
  {| start_time := start_time (fst g);
     end_time := end_time (List.last (snd g) (fst g)) |}.

Lemma span_single (s : Segment) : span (s, []) = s.
Proof. now destruct s. Qed.

Lemma span_snoc (a : Segment) (r : list Segment) (s : Segment) :
  span (a, r ++ [s]) = extend (span (a, r)) s.
Proof. unfold span, extend. simpl. now rewrite last_last. Qed.

Lemma merge_short_groups_acc (rest : list Segment) :
  forall (gs : list (Segment * list Segment)) (g : Segment * list Segment),
  exists groups,
    (let (c, l') :=
       fold_left (merge_short_step min_duration) rest
                 (List.map span gs, span g) in
     c ++ [l']) = List.map span groups
    /\ concat (List.map members groups)
       = concat (List.map members (gs ++ [g])) ++ rest.
Proof.
  induction rest as [| s rest IH]; intros gs g.
  - exists (gs ++ [g]). simpl. rewrite map_app, app_nil_r. split; reflexivity.
  - change (fold_left (merge_short_step min_duration) (s :: rest)
              (List.map span gs, span g))
      with (fold_left (merge_short_step min_duration) rest
              (merge_short_step min_duration (List.map span gs, span g) s)).
    unfold merge_short_step at 2.
    destruct (short min_duration s && short min_duration (span g)).
    + destruct g as [a r]. rewrite <- span_snoc.
      destruct (IH gs (a, r ++ [s])) as (groups & Hm & Hc).
      exists groups. split; [exact Hm |]. rewrite Hc.
      rewrite !map_app, !concat_app. simpl. unfold members. simpl.
      rewrite !app_nil_r, <- !app_assoc. simpl.
      now rewrite <- !app_assoc.
    + replace (List.map span gs ++ [span g], s)
        with (List.map span (gs ++ [g]), span (s, []))
        by (now rewrite map_app, span_single).
      destruct (IH (gs ++ [g]) (s, [])) as (groups & Hm & Hc).
      exists groups. split; [exact Hm |]. rewrite Hc.
      rewrite !map_app, !concat_app. simpl. unfold members. simpl.
      rewrite !app_nil_r, <- !app_assoc. reflexivity.
Qed.

(** X5.  The result of [_merge_short_segments] is the input cut into
    groups of successive segments, each group replaced by the one segment
    that runs from the start of its first member to the end of its last
    member: no segment is dropped, reordered or split. *)
Theorem merge_short_groups (segments : list Segment) :
  exists groups : list (Segment * list Segment),
    _merge_short_segments min_duration segments
    = Some (List.map span groups)
    /\ concat (List.map members groups) = segments.
Proof.
  destruct segments as [| first rest].
  - exists []. split; reflexivity.
  - rewrite merge_short_refines. unfold merge_short.
    destruct (merge_short_groups_acc rest [] (first, []))
      as (groups & Hm & Hc).
    exists groups. simpl in Hm. rewrite span_single in Hm.
    split; [now rewrite Hm | exact Hc].
Qed.

(** Chronological order from [t] on, as a proposition. *)
Fixpoint chron (t : Q) (l : list Segment) : Prop :=
  match l with
  | [] => True
  | a :: r =>
      t <= start_time a /\ start_time a < end_time a /\ chron (end_time a) r
  end.

Lemma chronological_from_chron (l : list Segment) :
  forall t, chronological_from t l = true <-> chron t l.
Proof.
  induction l as [| a r IH]; intros t; simpl; [tauto |].
  rewrite !andb_true_iff, negb_true_iff, Qltb_ge, Qltb_lt, IH. tauto.
Qed.

Lemma chron_middle (closed : list Segment) (cur s : Segment)
    (rest : list Segment) :
  forall t, chron t (closed ++ cur :: s :: rest) ->
            chron t (closed ++ extend cur s :: rest)
            /\ start_time cur < end_time cur
            /\ end_time cur <= start_time s
            /\ start_time s < end_time s.
Proof.
  induction closed as [| a closed IH]; intros t H; simpl in *.
  - destruct H as (H1 & H2 & H3 & H4 & H5). repeat split; auto; lra.
  - destruct H as (H1 & H2 & H3). destruct (IH _ H3) as (H4 & H5).
    repeat split; tauto.
Qed.

Lemma inside_extend (cur s x : Segment) :
  start_time cur < end_time cur -> end_time cur <= start_time s ->
  start_time s < end_time s ->
  inside x cur \/ x = s -> inside x (extend cur s).
Proof.
  unfold inside, extend. simpl. intros H1 H2 H3 [[H4 H5] | ->]; lra.
Qed.

Lemma merge_short_chron_acc (rest : list Segment) :
  forall (closed : list Segment) (cur : Segment) (t : Q)
         (processed : list Segment) (c : list Segment) (l' : Segment),
    chron t (closed ++ cur :: rest) ->
    Forall (fun x => Exists (inside x) (closed ++ [cur])) processed ->
    fold_left (merge_short_step min_duration) rest (closed, cur) = (c, l') ->
    chron t (c ++ [l'])
    /\ Forall (fun x => Exists (inside x) (c ++ [l'])) (processed ++ rest).
Proof.
  induction rest as [| s rest IH];
    intros closed cur t processed c l' Hc Hin Hf.
  - injection Hf as <- <-. rewrite app_nil_r. auto.
  - change (fold_left (merge_short_step min_duration) (s :: rest)
              (closed, cur))
      with (fold_left (merge_short_step min_duration) rest
              (merge_short_step min_duration (closed, cur) s)) in Hf.
    unfold merge_short_step at 2 in Hf.
    replace (processed ++ s :: rest) with ((processed ++ [s]) ++ rest)
      by (now rewrite <- app_assoc).
    destruct (short min_duration s && short min_duration cur).
    + destruct (chron_middle _ _ _ _ _ Hc) as (Hc' & H1 & H2 & H3).
      apply (IH closed (extend cur s) t); auto.
      apply Forall_app. split.
      * eapply List.Forall_impl; [| exact Hin]. intros x Hx.
        apply List.Exists_app in Hx as [Hx | Hx];
          apply List.Exists_app; [now left | right].
        apply Exists_cons in Hx as [Hx | Hx]; [| now apply Exists_nil in Hx].
        constructor. apply inside_extend; auto.
      * constructor; [| constructor].
        apply List.Exists_app. right. constructor.
        apply inside_extend; auto.
    + apply (IH (closed ++ [cur]) s t); auto.
      * now rewrite <- app_assoc.
      * apply Forall_app. split.
        -- eapply List.Forall_impl; [| exact Hin]. intros x Hx.
           apply List.Exists_app. now left.
        -- constructor; [| constructor].
           apply List.Exists_app. right. constructor.
           unfold inside. lra.
Qed.

Lemma groups_length (groups : list (Segment * list Segment)) :
  (length groups <= length (concat (List.map members groups)))%nat.
Proof.
  induction groups as [| g groups IH]; [reflexivity |].
  cbn [List.map concat]. rewrite length_app.
  unfold members at 1. cbn [length]. lia.
Qed.

(** X6.  On segments in chronological order (each of positive duration,
    each starting at or after the end of the one before it),
    [_merge_short_segments] returns segments in chronological order
    again, at most as many as it was given, and every segment it was
    given lies inside one of those it returns: merging loses no kept
    time. *)
Theorem merge_short_chronological (segments : list Segment) :
  chronological segments = true ->
  exists merged : list Segment,
    _merge_short_segments min_duration segments = Some merged
    /\ chronological merged = true
    /\ Forall (fun x => Exists (inside x) merged) segments
    /\ (length merged <= length segments)%nat.
Proof.
  intros Hc. destruct segments as [| first rest].
  - exists []. repeat split; auto.
  - rewrite merge_short_refines. eexists. split; [reflexivity |].
    assert (Hlen : (length (merge_short min_duration first rest)
                    <= length (first :: rest))%nat).
    { destruct (merge_short_groups_acc rest [] (first, []))
        as (groups & Hm & Hg).
      unfold merge_short. cbn [List.map] in Hm.
      rewrite span_single in Hm.
      rewrite Hm, length_map.
      change (first :: rest)
        with (concat (List.map members ([] ++ [(first, [])])) ++ rest).
      rewrite <- Hg. apply groups_length. }
    split; [| split; [| exact Hlen]].
    + unfold merge_short.
      destruct (fold_left (merge_short_step min_duration) rest ([], first))
        as [c l'] eqn:Hf.
      apply (chronological_from_chron _ (start_time first)) in Hc.
      destruct (merge_short_chron_acc rest [] first _ [] c l' Hc
                  (List.Forall_nil _) Hf) as [Hc' _].
      destruct (c ++ [l']) as [| a r]; [reflexivity |].
      apply chronological_from_chron. simpl in *.
      destruct Hc' as (_ & H2 & H3). repeat split; auto; lra.
    + unfold merge_short.
      destruct (fold_left (merge_short_step min_duration) rest ([], first))
        as [c l'] eqn:Hf.
      apply (chronological_from_chron _ (start_time first)) in Hc.
      destruct (merge_short_chron_acc rest [] first _ [first] c l' Hc)
        as [_ Hin]; auto.
      constructor; [| constructor]. constructor. unfold inside. lra.
Qed.

End MergeMore.

Lemma merge_short_chronological_witness :
  let a := VideoEditor.mkSegment 0 6 in
  let b := VideoEditor.mkSegment 12 18 in
  let c := VideoEditor.mkSegment 24 30 in
  exists merged,
    VideoEditor._merge_short_segments 10 [a; b; c] = Some merged
    /\ merged = [VideoEditor.mkSegment 0 18; c]
    /\ Intervals.chronological merged = true.
Proof.
  intros a b c.
  destruct (merge_short_chronological 10 [a; b; c] eq_refl)
    as (merged & Hm & Hc & _).
  exists merged. split; [exact Hm |]. split; [| exact Hc].
  vm_compute in Hm. now injection Hm as <-.
Defined.

(** ** The segmentation of [edit_video] from end to end *)

Section EditVideoMore.
Import VideoEditor Timeline Intervals.

Variable video_duration : Q.

Abbreviation validate := (fun s => validate_segment s video_duration).

(** Two segments that share no point. *)
Definition disjoint (a b : Segment) : Prop := overlap a b = false.

Lemma disjoint_sym (a b : Segment) : disjoint a b -> disjoint b a.
Proof. unfold disjoint, overlap. now rewrite andb_comm. Qed.

Lemma non_overlapping_pairs (l : list Segment) :
  non_overlapping l = true <-> ForallOrdPairs disjoint l.
Proof.
  induction l as [| a l IH]; simpl.
  - split; [constructor | reflexivity].
  - rewrite andb_true_iff, IH, forallb_forall. split.
    + intros [Ha Hl]. constructor; [| exact Hl].
      apply List.Forall_forall. intros b Hb.
      now apply negb_true_iff, Ha.
    + intros H. inversion H as [| ? ? Ha Hl]; subst. split; [| exact Hl].
      intros b Hb. apply negb_true_iff.
      now apply (proj1 (List.Forall_forall _ _) Ha).
Qed.

Lemma pairs_perm {A} (R : A -> A -> Prop) (l l' : list A) :
  (forall a b, R a b -> R b a) ->
  Permutation l l' -> ForallOrdPairs R l -> ForallOrdPairs R l'.
Proof.
  intros Hsym. induction 1 as [| x l l' Hp IH | x y l | l l' l'' _ IH1 _ IH2];
    intros H.
  - exact H.
  - inversion H as [| ? ? Hx Hl]; subst.
    constructor; [now apply (Permutation_Forall Hp) | now apply IH].
  - inversion H as [| ? ? Hy Hl]; subst.
    inversion Hl as [| ? ? Hx Hl']; subst.
    apply Forall_cons_1 in Hy as [Hyx Hy].
    constructor; [constructor; auto |]. now constructor.
  - auto.
Qed.

Lemma pairs_fmap {A B} (R : A -> A -> Prop) (R' : B -> B -> Prop)
    (f : A -> B) (l : list A) :
  (forall a b, R a b -> R' (f a) (f b)) ->
  ForallOrdPairs R l -> ForallOrdPairs R' (f <$> l).
Proof.
  intros Hf. induction 1 as [| a l Ha _ IH]; csimpl; constructor; auto.
  clear IH. induction Ha as [| b l Hab _ IH]; csimpl; constructor; auto.
Qed.

(** Clamping only shrinks a segment. *)
Lemma validate_disjoint (a b : Segment) :
  disjoint a b -> disjoint (validate a) (validate b).
Proof.
  unfold disjoint, overlap. cbv beta.
  rewrite !validate_segment_fields. simpl.
  intros H. apply andb_false_iff in H.
  apply andb_false_iff.
  destruct H as [H | H]; apply Qltb_ge in H; [left | right];
    apply Qltb_ge; cmp_cases; lra.
Qed.

Lemma validate_positive (s : Segment) :
  0 < video_duration ->
  start_time s < end_time s -> start_time s < video_duration ->
  0 < end_time s ->
  start_time (validate s) < end_time (validate s).
Proof.
  intros HD H1 H2 H3. cbv beta. rewrite validate_segment_fields. simpl.
  cmp_cases; lra.
Qed.

Lemma sorted_by_start_of_sorted (l : list Segment) :
  StronglySorted le_start l -> sorted_by_start l = true.
Proof.
  induction 1 as [| a l _ IH Ha]; [reflexivity |].
  destruct l as [| b l]; [reflexivity |].
  simpl. apply andb_true_iff. split; [| exact IH].
  apply negb_true_iff, Qltb_ge.
  apply Forall_cons_1 in Ha as [Hab _]. exact Hab.
Qed.

Lemma keyed_deref (h : gmap loc Segment) (segments : list loc)
    (keyed : list (loc * Segment)) :
  mapM (fun r => (fun s => (r, s)) <$> h !! r) segments = Some keyed ->
  deref h segments = Some (snd <$> keyed).
Proof.
  unfold deref. revert keyed.
  induction segments as [| r0 rest IH]; intros keyed Hk.
  - injection Hk as <-. reflexivity.
  - change (mapM (fun r => (fun s => (r, s)) <$> h !! r) (r0 :: rest))
      with (x ← (fun s => (r0, s)) <$> h !! r0;
            k ← mapM (fun r => (fun s => (r, s)) <$> h !! r) rest;
            mret (x :: k)) in Hk.
    change (mapM (fun r => h !! r) (r0 :: rest))
      with (x ← h !! r0; k ← mapM (fun r => h !! r) rest; mret (x :: k)).
    destruct (h !! r0) as [s0 |]; [| discriminate]. simpl in Hk.
    destruct (mapM (fun r => (fun s => (r, s)) <$> h !! r) rest)
      as [keyed' |] eqn:E; [| discriminate].
    injection Hk as <-. simpl. now rewrite (IH keyed' eq_refl).
Qed.

Lemma deref_is_Some (h : gmap loc Segment) (segments : list loc)
    (values : list Segment) :
  deref h segments = Some values ->
  forall r, In r segments -> is_Some (h !! r).
Proof.
  unfold deref. revert values.
  induction segments as [| r0 rest IH]; intros values Hd r Hr.
  - contradiction.
  - change (mapM (fun r => h !! r) (r0 :: rest))
      with (x ← h !! r0; k ← mapM (fun r => h !! r) rest; mret (x :: k))
      in Hd.
    destruct (h !! r0) as [s0 |] eqn:E0; [| discriminate]. simpl in Hd.
    destruct (mapM (fun r => h !! r) rest) as [values' |] eqn:E;
      [| discriminate].
    destruct Hr as [<- | Hr]; [rewrite E0; eauto |].
    now apply (IH values' eq_refl).
Qed.

(** The list handed to [_get_segments_to_keep], in terms of the values
    of the caller's dictionaries: their clamped values, sorted by
    start. *)
Lemma validated_remove_set_perm (h : gmap loc Segment)
    (segments_to_remove : list loc) (raw : list Segment) :
  deref h segments_to_remove = Some raw ->
  exists h' removed,
    validated_remove_set h segments_to_remove video_duration
    = Some (h', removed)
    /\ Permutation removed (validate <$> raw)
    /\ StronglySorted le_start removed.
Proof.
  intros Hraw.
  pose proof (deref_is_Some h _ _ Hraw) as Hdom.
  destruct (keyed_segments h _ Hdom) as (keyed & Hk & Hfst).
  pose proof (keyed_segments_lookup h _ _ Hk) as Hlook.
  pose proof (keyed_deref h _ _ Hk) as Hraw'.
  rewrite Hraw in Hraw'. injection Hraw' as ->.
  set (key := fun p : loc * Segment => start_time (snd p)).
  assert (Hperm : Permutation (Py.sorted_by_key key keyed) keyed)
    by apply stable_sort_perm.
  assert (Hlook' : Forall (fun p => h !! fst p = Some (snd p))
                          (Py.sorted_by_key key keyed)).
  { now apply (Permutation_Forall (Permutation_sym Hperm)). }
  assert (Hdom' : forall r, In r (fst <$> Py.sorted_by_key key keyed) ->
                            is_Some (h !! r)).
  { intros r Hr. apply Hdom. rewrite <- Hfst.
    apply list_elem_of_In. apply list_elem_of_In in Hr.
    now rewrite <- Hperm. }
  destruct (validate_segments_store video_duration _ h Hdom')
    as (h' & Hv & Hin & _).
  pose proof (deref_keyed h h' validate _ Hlook' Hin) as Hd.
  eexists h', _. unfold validated_remove_set, sorted_by_start_time.
  rewrite Hk. csimpl. fold key. rewrite Hv. csimpl. rewrite Hd. csimpl.
  split; [reflexivity |]. split.
  - rewrite <- list_fmap_compose. now apply fmap_Permutation.
  - eapply StronglySorted_fmap;
      [| apply (stable_sort_sorted
                  (fun a b => negb (Py.Qltb (key b) (key a))))].
    + intros a b Hab. apply validate_segment_mono.
      apply negb_true_iff, Qltb_ge in Hab. exact Hab.
    + intros a b. cmp_cases; simpl; auto; lra.
    + intros a b c Hab Hbc.
      apply negb_true_iff, Qltb_ge in Hab, Hbc.
      apply negb_true_iff, Qltb_ge. lra.
Qed.

Lemma keep_filter_id (remove : list Segment) (D : Q) :
  0 < D ->
  List.filter (fun s => Py.Qltb (start_time s) (end_time s))
              (_get_segments_to_keep remove D)
  = _get_segments_to_keep remove D.
Proof.
  intros HD. apply filter_forallb.
  destruct remove as [| x r].
  - simpl. now rewrite (proj2 (Qltb_lt 0 D) HD).
  - rewrite keep_gaps. apply (gaps_from_positive D (x :: r) 0).
Qed.

Lemma forallb_Forall_iff {A} (f : A -> bool) (l : list A) :
  forallb f l = true <-> Forall (fun a => f a = true) l.
Proof.
  rewrite forallb_forall, List.Forall_forall. reflexivity.
Qed.

(** The clamped and sorted list is well formed when the caller's
    segments are of positive durations, pairwise non-overlapping and
    reach into the video. *)
Lemma removed_well_formed (raw removed : list Segment) :
  0 < video_duration ->
  positive_duration raw = true ->
  non_overlapping raw = true ->
  reaches video_duration raw = true ->
  Permutation removed (validate <$> raw) ->
  StronglySorted le_start removed ->
  sorted_by_start removed = true
  /\ non_overlapping removed = true
  /\ positive_duration removed = true
  /\ within video_duration removed = true.
Proof.
  intros HD Hpos Hno Hreach Hperm Hsorted.
  assert (Hall : forall x, In x removed ->
                           exists s, x = validate s /\ In s raw).
  { intros x Hx. apply (Permutation_in x Hperm) in Hx.
    apply list_elem_of_In, list_elem_of_fmap in Hx as (s & -> & Hs).
    exists s. split; [reflexivity | now apply list_elem_of_In]. }
  split; [now apply sorted_by_start_of_sorted |]. split; [| split].
  - apply non_overlapping_pairs.
    apply (pairs_perm disjoint _ _ disjoint_sym (Permutation_sym Hperm)).
    apply (pairs_fmap disjoint disjoint); [apply validate_disjoint |].
    now apply non_overlapping_pairs.
  - apply forallb_forall. intros x Hx.
    destruct (Hall x Hx) as (s & -> & Hs).
    apply Qltb_lt.
    pose proof (proj1 (forallb_forall _ _) Hpos s Hs) as H1.
    pose proof (proj1 (forallb_forall _ _) Hreach s Hs) as H2.
    apply andb_true_iff in H2 as [H2 H3].
    apply Qltb_lt in H1, H2, H3. now apply validate_positive.
  - apply forallb_forall. intros x Hx.
    destruct (Hall x Hx) as (s & -> & Hs).
    destruct (validate_segment_bounds video_duration s) as [Hb1 Hb2].
    apply andb_true_iff. split; apply negb_true_iff, Qltb_ge; assumption.
Qed.

(** The segmentation of [edit_video] on well-formed segments, with
    merging switched off. *)
Lemma edit_video_segmentation (min_segment_duration : Q) (h : gmap loc Segment)
    (segments_to_remove : list loc) (raw : list Segment) :
  0 < video_duration ->
  min_segment_duration <= 0 ->
  deref h segments_to_remove = Some raw ->
  positive_duration raw = true ->
  non_overlapping raw = true ->
  reaches video_duration raw = true ->
  exists h' removed keep,
    validated_remove_set h segments_to_remove video_duration
    = Some (h', removed)
    /\ Permutation removed (validate <$> raw)
    /\ keep = _get_segments_to_keep removed video_duration
    /\ edit_video min_segment_duration h segments_to_remove video_duration
       = Some (h', match keep with
                   | [] => NoSegmentsRemain
                   | _ => Clips keep
                   end)
    /\ tiles video_duration (timeline keep removed) = true.
Proof.
  intros HD Hm Hraw Hpos Hno Hreach.
  destruct (validated_remove_set_perm h _ raw Hraw)
    as (h' & removed & Hv & Hperm & Hsorted).
  destruct (removed_well_formed raw removed HD Hpos Hno Hreach Hperm Hsorted)
    as (Hs & Hn & Hp & Hw).
  exists h', removed, (_get_segments_to_keep removed video_duration).
  split; [exact Hv |]. split; [exact Hperm |]. split; [reflexivity |]. split.
  - unfold edit_video. rewrite Hv. csimpl.
    rewrite (proj2 (Qltb_ge 0 min_segment_duration) Hm). csimpl.
    now rewrite (keep_filter_id removed video_duration HD).
  - destruct removed as [| x r].
    + simpl. unfold tiles, timeline. simpl.
      rewrite !Qeq_bool_refl. now rewrite (proj2 (Qltb_lt _ _) HD).
    + rewrite keep_gaps. unfold tiles.
      apply (gaps_tile video_duration (x :: r)).
      * apply chain_intro; auto; [lra |].
        intros y Hy. injection Hy as <-.
        simpl in Hw. apply andb_true_iff in Hw as [Hw _].
        apply andb_true_iff in Hw as [Hw _].
        now apply negb_true_iff, Qltb_ge in Hw.
      * apply stable_sort_perm.
      * apply timeline_sorted.
Qed.

(** X7.  With merging switched off ([min_segment_duration <= 0]) and a
    video of positive duration: when the caller's segments to remove have
    positive durations, do not overlap one another and each reach into
    [[0, video_duration)], in whatever order they are given, then the
    spans [edit_video] extracts are exactly the complement of the clamped
    segments, and these spans and the clamped segments together tile
    [[0, video_duration)]; the call raises "No segments remain" exactly
    when that complement is empty. *)
Theorem edit_video_tiles (min_segment_duration : Q) (h : gmap loc Segment)
    (segments_to_remove : list loc) (raw : list Segment) :
  0 < video_duration ->
  min_segment_duration <= 0 ->
  deref h segments_to_remove = Some raw ->
  positive_duration raw = true ->
  non_overlapping raw = true ->
  reaches video_duration raw = true ->
  exists h' removed keep,
    validated_remove_set h segments_to_remove video_duration
    = Some (h', removed)
    /\ Permutation removed (validate <$> raw)
    /\ keep = _get_segments_to_keep removed video_duration
    /\ edit_video min_segment_duration h segments_to_remove video_duration
       = Some (h', match keep with
                   | [] => NoSegmentsRemain
                   | _ => Clips keep
                   end)
    /\ tiles video_duration (timeline keep removed) = true.
Proof. apply edit_video_segmentation. Qed.

End EditVideoMore.

Lemma edit_video_tiles_witness :
  let h : gmap VideoEditor.loc VideoEditor.Segment :=
    {[ 1%positive := VideoEditor.mkSegment 18 40;
       2%positive := VideoEditor.mkSegment (-3) 12 ]} in
  exists h',
    VideoEditor.edit_video 0 h [1%positive; 2%positive] 30
    = Some (h', VideoEditor.Clips [VideoEditor.mkSegment 12 18]).
Proof.
  intros h.
  destruct (edit_video_tiles 30 0 h [1%positive; 2%positive]
              [VideoEditor.mkSegment 18 40; VideoEditor.mkSegment (-3) 12])
    as (h' & removed & keep & Hv & _ & Hk & He & _);
    try reflexivity; try discriminate.
  exists h'. rewrite He. f_equal. f_equal.
  vm_compute in Hv. injection Hv as _ <-. subst keep. reflexivity.
Defined.

(** ** Editing from a tracklist *)

Section TracklistFacts.
Import VideoEditor Timeline Intervals Tracklist.

Lemma deref_cons (h : gmap loc Segment) (r : loc) (rest : list loc) :
  deref h (r :: rest)
  = match h !! r with
    | None => None
    | Some s =>
        match deref h rest with
        | None => None
        | Some l => Some (s :: l)
        end
    end.
Proof.
  unfold deref.
  change (mapM (fun r => h !! r) (r :: rest))
    with (x ← h !! r; k ← mapM (fun r => h !! r) rest; mret (x :: k)).
  destruct (h !! r); [| reflexivity]. simpl.
  destruct (mapM (fun r => h !! r) rest); reflexivity.
Qed.

Lemma deref_agree (h h' : gmap loc Segment) (refs : list loc) :
  (forall r, In r refs -> h' !! r = h !! r) ->
  deref h' refs = deref h refs.
Proof.
  induction refs as [| r rest IH]; intros H; [reflexivity |].
  rewrite !deref_cons, (H r (or_introl eq_refl)), IH; [reflexivity |].
  intros r' Hr'. apply H. now right.
Qed.

(** The new dictionaries hold the segments, in order, at locations from
    [next] on, and the objects at lower locations are untouched. *)
Lemma alloc_spec (segments : list Segment) :
  forall (next : loc) (h : gmap loc Segment),
    deref (fst (alloc next segments h)) (snd (alloc next segments h))
    = Some segments
    /\ (forall p, (p < next)%positive ->
                  fst (alloc next segments h) !! p = h !! p)
    /\ Forall (fun r => (next <= r)%positive)
              (snd (alloc next segments h)).
Proof.
  induction segments as [| s rest IH]; intros next h.
  - simpl. repeat split; auto.
  - cbn [alloc].
    destruct (IH (Pos.succ next) (<[next := s]> h)) as (Hd & Hlow & Hrefs).
    destruct (alloc (Pos.succ next) rest (<[next := s]> h)) as [h' refs].
    cbn [fst snd] in *. split; [| split].
    + rewrite deref_cons, Hlow by lia.
      rewrite lookup_insert_eq, Hd. reflexivity.
    + intros p Hp. rewrite Hlow by lia. apply lookup_insert_ne. lia.
    + constructor; [lia |].
      eapply List.Forall_impl; [| exact Hrefs]. intros r Hr. simpl in Hr. lia.
Qed.

Lemma edit_video_no_segments (min_segment_duration video_duration : Q)
    (h : gmap loc Segment) :
  0 < video_duration ->
  edit_video min_segment_duration h [] video_duration
  = Some (h, Clips [ {| start_time := 0; end_time := video_duration |} ]).
Proof.
  intros HD. unfold edit_video, validated_remove_set. csimpl.
  destruct (Py.Qltb 0 min_segment_duration); csimpl;
    now rewrite (proj2 (Qltb_lt _ _) HD).
Qed.

(** X8.  A tracklist in which no track is both blocked and given with
    its two times leaves a video of positive duration whole: the only
    span extracted is [[0, video_duration)], whatever the merge
    threshold. *)
Theorem tracklist_without_blocked_tracks (min_segment_duration : Q)
    (tracks : list Track) (video_duration : Q) :
  0 < video_duration ->
  Forall (fun track => is_blocked track = false
                       \/ track_start_time track = None
                       \/ track_end_time track = None) tracks ->
  edit_video_from_tracklist min_segment_duration tracks video_duration
  = Some (Clips [ {| start_time := 0; end_time := video_duration |} ]).
Proof.
  intros HD Hall.
  assert (Hnone : blocked_segments tracks = []).
  { unfold blocked_segments. induction Hall as [| t l Ht _ IH]; simpl.
    - reflexivity.
    - rewrite IH, app_nil_r. unfold track_segment.
      destruct (is_blocked t); [| reflexivity].
      destruct Ht as [Ht | [-> | Ht]]; [discriminate | reflexivity |].
      rewrite Ht. now destruct (track_start_time t). }
  unfold edit_video_from_tracklist. rewrite Hnone. simpl.
  now rewrite edit_video_no_segments.
Qed.

Lemma tracklist_without_blocked_tracks_witness :
  edit_video_from_tracklist 5
    [ mkTrack (Some available) (Some (Some blocked)) (Some 0) (Some 6);
      mkTrack (Some blocked) None None (Some 12);
      mkTrack None (Some None) (Some 12) (Some 18) ] 30
  = Some (Clips [ mkSegment 0 30 ]).
Proof.
  apply tracklist_without_blocked_tracks; [reflexivity |].
  constructor; [left; reflexivity |].
  constructor; [right; left; reflexivity |].
  constructor; [left; reflexivity | constructor].
Defined.

(** X9.  What the ['compatibility'] entry of a track says is only looked
    at when the track has no ['status'] entry: for a track with a
    ['status'] entry, changing or removing ['compatibility'] changes
    nothing in the segments to remove. *)
Theorem status_precedes_compatibility (before after : list Track)
    (track : Track) (c : option (option String.string)) :
  status track <> None ->
  blocked_segments
    (before
     ++ mkTrack (status track) c (track_start_time track)
                (track_end_time track)
     :: after)
  = blocked_segments (before ++ track :: after).
Proof.
  intros Hs. unfold blocked_segments.
  rewrite !flat_map_app. simpl. f_equal. f_equal.
  unfold track_segment, is_blocked. simpl.
  destruct (status track); [reflexivity | contradiction].
Qed.

Lemma status_precedes_compatibility_witness :
  blocked_segments
    [ mkTrack (Some available) (Some (Some blocked)) (Some 6) (Some 12) ]
  = blocked_segments
    [ mkTrack (Some available) None (Some 6) (Some 12) ]
  /\ blocked_segments
       [ mkTrack (Some available) None (Some 6) (Some 12) ] = [].
Proof.
  split; [| reflexivity].
  apply (status_precedes_compatibility [] []
           (mkTrack (Some available) None (Some 6) (Some 12))).
  discriminate.
Defined.

(** X10.  With merging switched off and a video of positive duration:
    when the blocked tracks of a tracklist have positive durations, do
    not overlap one another and each reach into [[0, video_duration)],
    the spans extracted are the complement of the clamped blocked
    tracks, and together with them they tile [[0, video_duration)]. *)
Theorem tracklist_tiles (min_segment_duration : Q) (tracks : list Track)
    (video_duration : Q) :
  0 < video_duration ->
  min_segment_duration <= 0 ->
  positive_duration (blocked_segments tracks) = true ->
  non_overlapping (blocked_segments tracks) = true ->
  reaches video_duration (blocked_segments tracks) = true ->
  exists removed keep,
    Permutation removed
      ((fun s => validate_segment s video_duration)
         <$> blocked_segments tracks)
    /\ keep = _get_segments_to_keep removed video_duration
    /\ edit_video_from_tracklist min_segment_duration tracks video_duration
       = Some (match keep with
               | [] => NoSegmentsRemain
               | _ => Clips keep
               end)
    /\ tiles video_duration (timeline keep removed) = true.
Proof.
  intros HD Hm Hpos Hno Hreach.
  unfold edit_video_from_tracklist.
  destruct (alloc_spec (blocked_segments tracks) 1%positive ∅)
    as (Hd & _ & _).
  destruct (alloc 1%positive (blocked_segments tracks) ∅) as [h refs].
  simpl in Hd.
  destruct (edit_video_segmentation video_duration min_segment_duration
              h refs _ HD Hm Hd Hpos Hno Hreach)
    as (h' & removed & keep & _ & Hperm & Hk & He & Ht).
  exists removed, keep. rewrite He. auto.
Qed.

Lemma tracklist_tiles_witness :
  let tracks :=
    [ mkTrack (Some available) None (Some 0) (Some 6);
      mkTrack (Some blocked) None (Some 18) (Some 24);
      mkTrack None (Some (Some blocked)) (Some 6) (Some 12) ] in
  edit_video_from_tracklist 0 tracks 30
  = Some (Clips [ mkSegment 0 6; mkSegment 12 18; mkSegment 24 30 ])
  /\ exists removed keep,
       edit_video_from_tracklist 0 tracks 30
       = Some (match keep with [] => NoSegmentsRemain | _ => Clips keep end)
       /\ tiles 30 (timeline keep removed) = true.
Proof.
  intros tracks. split; [reflexivity |].
  destruct (tracklist_tiles 0 tracks 30 eq_refl ltac:(discriminate)
              eq_refl eq_refl eq_refl)
    as (removed & keep & _ & _ & He & Ht).
  exists removed, keep. split; assumption.
Defined.

End TracklistFacts.

(** ** More on the sampling strategies *)

Section SamplingMore.
Import ThumbnailGenerator Sampling FrameLoops.

Local Open Scope Z_scope.

Lemma StronglySorted_map_in {A B} (R : A -> A -> Prop) (R' : B -> B -> Prop)
    (f : A -> B) (l : list A) :
  StronglySorted R l ->
  (forall a b, In a l -> In b l -> R a b -> R' (f a) (f b)) ->
  StronglySorted R' (List.map f l).
Proof.
  induction 1 as [| a l _ IH Ha]; intros Hf; simpl; constructor.
  - apply IH. intros x y Hx Hy. apply Hf; now right.
  - apply List.Forall_forall. intros y Hy.
    apply in_map_iff in Hy as (b & <- & Hb).
    apply Hf; [now left | now right |].
    now apply (proj1 (List.Forall_forall _ _) Ha).
Qed.

(** X11.  For a video of up to [2 ^ 25] frames, whenever
    [_extract_uniform_frames] computes its indices, they are strictly
    ascending (no frame is read twice), also with the rounding of the
    float arithmetic, and there are [min(num_frames, usable_count)] of
    them, none when that is negative. *)
Theorem uniform_indices_ascending (num_frames frame_count : Z)
    (indices : list Z) :
  frame_count <= 2 ^ 25 ->
  uniform_frame_indices num_frames frame_count = Some indices ->
  StronglySorted Z.lt indices
  /\ length indices
     = Z.to_nat (Z.min num_frames (usable_count frame_count)).
Proof.
  intros Hfc. rewrite uniform_frame_indices_eq.
  destruct (Z.leb_spec (usable_count frame_count) num_frames) as [Hge | Hlt].
  - intros [= <-]. split; [apply range3_sorted; lia |].
    rewrite range2_length. unfold usable_count in *. f_equal. lia.
  - destruct (Z.eqb_spec num_frames 0) as [Hz | Hnz]; [discriminate |].
    intros [= <-]. split.
    + apply (StronglySorted_map_in Z.lt); [apply range3_sorted; lia |].
      intros i j Hi Hj Hij. apply range2_In in Hi, Hj.
      assert (Hpos : 0 <= frame_count) by (apply usable_count_pos; lia).
      pose proof (usable_stop_le frame_count Hpos) as Hstop.
      apply binary64_index_increasing; try lia.
      * apply usable_start_nonneg.
      * unfold usable_count in *. lia.
    + rewrite length_map. unfold Py.range. rewrite range2_length.
      f_equal. lia.
Qed.

Lemma uniform_indices_ascending_witness :
  uniform_frame_indices 22 33
  = Some [1; 2; 3; 5; 6; 7; 9; 10; 11; 13; 14; 15; 17; 18; 20; 21; 22; 24;
          25; 26; 28; 29]
  /\ StronglySorted Z.lt
       [1; 2; 3; 5; 6; 7; 9; 10; 11; 13; 14; 15; 17; 18; 20; 21; 22; 24;
        25; 26; 28; 29].
Proof.
  assert (H : uniform_frame_indices 22 33
              = Some [1; 2; 3; 5; 6; 7; 9; 10; 11; 13; 14; 15; 17; 18; 20;
                      21; 22; 24; 25; 26; 28; 29])
    by (vm_compute; reflexivity).
  split; [exact H |].
  apply (uniform_indices_ascending 22 33 _ ltac:(lia) H).
Defined.

(** X12.  The request that [_extract_random_frames] makes to
    [random.sample] is valid (a sample size that is neither negative nor
    larger than the population) exactly when neither [num_frames] nor
    [frame_count] is negative; the population then holds each index of
    the usable range once. *)
Theorem random_sample_request (num_frames frame_count : Z) :
  let population := fst (random_sample_args num_frames frame_count) in
  let k := snd (random_sample_args num_frames frame_count) in
  (0 <= k <= Z.of_nat (length population)
   <-> 0 <= num_frames /\ 0 <= frame_count)
  /\ (0 <= frame_count ->
      Z.of_nat (length population) = usable_count frame_count)
  /\ StronglySorted Z.lt population.
Proof.
  rewrite random_sample_args_eq. cbn [fst snd].
  rewrite range2_length.
  assert (Hu : 0 <= frame_count <-> 0 <= usable_count frame_count).
  { unfold usable_count, usable_stop, usable_start.
    destruct (usable_range_cases frame_count)
      as [[Hr ->] | (Hr & Hfc & ->)]; cbn [fst snd].
    - lia.
    - unfold restricted_count in Hr. lia. }
  fold (usable_count frame_count).
  split; [| split].
  - lia.
  - lia.
  - apply range3_sorted. lia.
Qed.

End SamplingMore.

(** ** The loops over the frames *)

Section LoopFacts.
Import ThumbnailGenerator Sampling FrameLoops.

Context {Frame : Type}.
Variable read : Z -> option Frame.
Variable good : Frame -> bool.
Variable fps : Q.

(** The frames that can be read and pass the quality gate, with their
    timestamps, in the order of the indices. *)
Definition accepted (frame_indices : list Z) : list (Frame * Q) :=
  uniform_loop read good fps frame_indices.

Lemma random_loop_firstn (num_frames : Z) (frame_indices : list Z) :
  forall frames : list (Frame * Q),
    (Z.of_nat (length frames) < Z.max 1 num_frames)%Z ->
    random_loop read good fps num_frames frame_indices frames
    = firstn (Z.to_nat (Z.max 1 num_frames))
             (frames ++ accepted frame_indices).
Proof.
  induction frame_indices as [| i rest IH]; intros frames Hlen; simpl.
  - rewrite app_nil_r. symmetry. apply firstn_all2. lia.
  - unfold accepted in *. simpl.
    destruct (read i) as [frame |]; [| now apply IH].
    destruct (good frame); [| now apply IH].
    destruct (Z.leb_spec num_frames
                (Z.of_nat (length (frames ++ [(frame, timestamp fps i)]))))
      as [Hstop | Hgo].
    + rewrite length_app in Hstop. simpl in Hstop.
      change ((frame, timestamp fps i) :: uniform_loop read good fps rest)
        with ([(frame, timestamp fps i)] ++ uniform_loop read good fps rest).
      rewrite app_assoc.
      replace (Z.to_nat (Z.max 1 num_frames))
        with (length (frames ++ [(frame, timestamp fps i)]) + 0)%nat
        by (rewrite length_app; simpl; lia).
      rewrite firstn_app_2. simpl. now rewrite app_nil_r.
    + rewrite IH.
      * now rewrite <- app_assoc.
      * lia.
Qed.

(** X13.  The loop of [_extract_random_frames], which stops as soon as
    [num_frames] frames are collected, returns the first [num_frames]
    (one, when [num_frames] is below 1) of the drawn frames that can be
    read and pass the quality gate, in the order drawn: never more than
    asked for, and never a later accepted frame in place of an earlier
    one. *)
Theorem random_frames_first_accepted (num_frames : Z)
    (frame_indices : list Z) :
  random_frames read good fps num_frames frame_indices
  = firstn (Z.to_nat (Z.max 1 num_frames)) (accepted frame_indices)
  /\ (length (random_frames read good fps num_frames frame_indices)
      <= Z.to_nat (Z.max 1 num_frames))%nat.
Proof.
  assert (H : random_frames read good fps num_frames frame_indices
              = firstn (Z.to_nat (Z.max 1 num_frames))
                       (accepted frame_indices)).
  { unfold random_frames. rewrite random_loop_firstn; [reflexivity |].
    simpl. lia. }
  split; [exact H |]. rewrite H. apply firstn_le_length.
Qed.

End LoopFacts.

(** ** The selection of the key moments *)

Section Selection.
Import ThumbnailGenerator Sampling FrameLoops.

Context {Frame : Type}.

Lemma getitem_nonneg {A} (l : list A) (i : Z) :
  (0 <= i)%Z -> getitem l i = l !! Z.to_nat i.
Proof.
  intros H. unfold getitem.
  now rewrite (proj2 (Z.ltb_ge i 0) H).
Qed.

Lemma gather_lookup {A} (l : list A) (indices : list Z) :
  Forall (fun i => (0 <= i < Z.of_nat (length l))%Z) indices ->
  exists sel,
    gather l indices = Some sel
    /\ Forall2 (fun i x => l !! Z.to_nat i = Some x) indices sel.
Proof.
  induction 1 as [| i rest Hi _ IH]; simpl.
  - exists []. split; [reflexivity | constructor].
  - destruct IH as (xs & -> & Hxs).
    rewrite getitem_nonneg by lia.
    destruct (lookup_lt_is_Some_2 l (Z.to_nat i)) as [x Hx]; [lia |].
    rewrite Hx. exists (x :: xs). split; [reflexivity | now constructor].
Qed.

Lemma StronglySorted_lookup {A} (R : A -> A -> Prop) (l : list A) :
  StronglySorted R l ->
  forall (a b : nat) (x y : A),
    (a < b)%nat -> l !! a = Some x -> l !! b = Some y -> R x y.
Proof.
  induction 1 as [| h t _ IH Hh]; intros a b x y Hab Hx Hy.
  - discriminate.
  - destruct b as [| b]; [lia |]. simpl in Hy.
    destruct a as [| a]; simpl in Hx.
    + injection Hx as <-.
      apply (proj1 (List.Forall_forall _ _) Hh).
      apply list_elem_of_In. now apply (list_elem_of_lookup_2 t b).
    + apply (IH a b); auto. lia.
Qed.

(** Entries taken at ascending positions of a sorted list are sorted. *)
Lemma gathered_sorted {A} (R : A -> A -> Prop) (l : list A)
    (indices : list Z) (sel : list A) :
  StronglySorted R l ->
  StronglySorted Z.lt indices ->
  Forall (fun i => (0 <= i)%Z) indices ->
  Forall2 (fun i x => l !! Z.to_nat i = Some x) indices sel ->
  StronglySorted R sel.
Proof.
  intros Hl Hs Hpos H2. revert Hs Hpos.
  induction H2 as [| i x rest xs Hix Hrest IH]; intros Hs Hpos.
  - constructor.
  - apply StronglySorted_inv in Hs as [Hs Hi].
    apply Forall_cons_1 in Hpos as [Hi0 Hpos].
    constructor; [now apply IH |].
    clear IH Hs. induction Hrest as [| j y rest xs Hjy _ IH].
    + constructor.
    + apply Forall_cons_1 in Hi as [Hij Hi].
      apply Forall_cons_1 in Hpos as [Hj0 Hpos].
      constructor; [| now apply IH].
      apply (StronglySorted_lookup R l Hl (Z.to_nat i) (Z.to_nat j)); auto.
      lia.
Qed.

Lemma gathered_In {A} (l : list A) (indices : list Z) (sel : list A) :
  Forall2 (fun i x => l !! Z.to_nat i = Some x) indices sel ->
  forall x, In x sel -> In x l.
Proof.
  induction 1 as [| i y rest xs Hiy _ IH]; intros x Hx.
  - contradiction.
  - destruct Hx as [<- | Hx]; [| now apply IH].
    apply list_elem_of_In. now apply (list_elem_of_lookup_2 l (Z.to_nat i)).
Qed.

Lemma firstn_In_le {A} (l : list A) (k k' : nat) (x : A) :
  (k <= k')%nat -> In x (firstn k l) -> In x (firstn k' l).
Proof.
  revert k k'. induction l as [| a l IH]; intros k k' Hk Hx.
  - now rewrite firstn_nil in *.
  - destruct k as [| k]; [contradiction |].
    destruct k' as [| k']; [lia |]. simpl in *.
    destruct Hx as [-> | Hx]; [now left | right].
    apply (IH k k'); [lia | exact Hx].
Qed.

(** The positions are computed in binary64: with 30 entries and 22
    frames, position number 11 is 14, where exact arithmetic gives
    [11 * (30 / 22) = 15]. *)
Lemma selected_position_rounding :
  Py.int (Py.fmul (Py.float_of_int 11) (Py.truediv 30 22)) = 14%Z
  /\ Py.int (11 * (30 / 22)) = 15%Z.
Proof. split; vm_compute; reflexivity. Qed.

(** For a list of up to [2 ^ 25] entries the truncated positions
    [int(i * step)] are inside the list and ascend. *)
Lemma selected_indices_spec (len n : Z) :
  (0 < n)%Z -> (n < len)%Z -> (len <= 2 ^ 25)%Z ->
  let selected :=
    List.map (fun i => Py.int (Py.fmul (Py.float_of_int i)
                                       (Py.truediv len n)))
             (Py.range n) in
  Forall (fun k => (0 <= k < len)%Z) selected
  /\ StronglySorted Z.lt selected
  /\ length selected = Z.to_nat n.
Proof.
  intros Hn Hlen Hb selected.
  split; [| split].
  - apply List.Forall_forall. intros k Hk.
    apply in_map_iff in Hk as (i & <- & Hi). apply range2_In in Hi.
    destruct (binary64_position_bounds len n i) as [-> Hp]; lia.
  - apply (StronglySorted_map_in Z.lt); [apply range3_sorted; lia |].
    intros i j Hi Hj Hij. apply range2_In in Hi, Hj.
    apply binary64_position_increasing; lia.
  - unfold selected. rewrite length_map. unfold Py.range.
    rewrite range2_length. f_equal. lia.
Qed.

Lemma key_moment_loop_length (good : Frame -> bool) (fps : Q)
    (top_frames : list (Z * Q * Frame)) :
  (length (key_moment_loop good fps top_frames) <= length top_frames)%nat.
Proof.
  induction top_frames as [| [[i s] frame] rest IH]; simpl; [lia |].
  destruct (good frame); simpl; lia.
Qed.

(** X14.  On up to [2 ^ 25] scored frames (the probes of
    [_extract_key_moment_frames] give at most 899) the selection of the
    key moments never raises, whatever [num_frames] and the scores, with
    the step and the positions [int(i * step)] computed in binary64: it
    returns at most [num_frames] entries (none when [num_frames] is not
    positive), in ascending order of frame index, each of them among the
    [2 * num_frames] entries with the highest scores; so
    [_extract_key_moment_frames] returns at most [num_frames] frames. *)
Theorem key_moment_selection (good : Frame -> bool) (fps : Q)
    (num_frames : Z) (frame_diffs : list (Z * Q * Frame)) :
  (Z.of_nat (length frame_diffs) <= 2 ^ 25)%Z ->
  exists top_frames,
    key_moment_top_frames num_frames frame_diffs = Some top_frames
    /\ (length top_frames <= Z.to_nat num_frames)%nat
    /\ StronglySorted (fun a b => (frame_idx a <= frame_idx b)%Z) top_frames
    /\ (forall x,
           In x top_frames ->
           In x (firstn (Z.to_nat (num_frames * 2))
                        (Py.sort_by_key_reverse score frame_diffs)))
    /\ (length (key_moment_loop good fps top_frames)
        <= Z.to_nat num_frames)%nat.
Proof.
  intros Hsize. unfold key_moment_top_frames.
  set (ranked := Py.sort_by_key_reverse (fun x => snd (fst x)) frame_diffs).
  set (cut := slice_to ranked
                (Z.min (num_frames * 2) (Z.of_nat (length ranked)))).
  set (top := Py.sorted_by_key (fun x => inject_Z (fst (fst x))) cut).
  cbv zeta.
  assert (Hperm : Permutation top cut) by apply stable_sort_perm.
  assert (Hlength : (length top <= length frame_diffs)%nat).
  { rewrite (Permutation_length Hperm).
    assert (Hr : length ranked = length frame_diffs)
      by (apply Permutation_length, stable_sort_perm).
    rewrite <- Hr. unfold cut, slice_to.
    destruct (Z.min (num_frames * 2) (Z.of_nat (length ranked)) <? 0)%Z;
      rewrite length_firstn; lia. }
  assert (Hsorted : StronglySorted
                      (fun a b => (frame_idx a <= frame_idx b)%Z) top).
  { eapply StronglySorted_weaken; [| apply stable_sort_sorted].
    - intros a b Hab. apply negb_true_iff, Qltb_ge in Hab.
      now apply (proj2 (inject_Z_le _ _)).
    - intros a b. cmp_cases; simpl; auto; lra.
    - intros a b c Hab Hbc.
      apply negb_true_iff, Qltb_ge in Hab, Hbc.
      apply negb_true_iff, Qltb_ge. lra. }
  assert (Htop : (0 <= num_frames)%Z ->
                 forall x, In x top ->
                           In x (firstn (Z.to_nat (num_frames * 2)) ranked)).
  { intros Hn x Hx. apply (Permutation_in x Hperm) in Hx.
    unfold cut, slice_to in Hx.
    rewrite (proj2 (Z.ltb_ge _ 0)) in Hx by lia.
    eapply firstn_In_le; [| exact Hx]. lia. }
  assert (Hfinal : forall sel,
             (length sel <= Z.to_nat num_frames)%nat ->
             (length (key_moment_loop good fps sel)
              <= Z.to_nat num_frames)%nat).
  { intros sel Hsel. pose proof (key_moment_loop_length good fps sel). lia. }
  destruct (Z.ltb_spec num_frames (Z.of_nat (length top))) as [Hlt | Hge].
  - destruct (Z.eqb_spec num_frames 0) as [Hz | Hnz].
    + exfalso. subst num_frames. clearbody top.
      destruct top as [| x t]; [simpl in Hlt; lia |].
      apply (Htop (Z.le_refl 0) x). now left.
    + destruct (Z.lt_ge_cases num_frames 0) as [Hneg | Hpos].
      * assert (Hr : Py.range num_frames = []).
        { unfold Py.range, Py.range2, Py.range3, Py.range_len.
          now rewrite (proj2 (Z.ltb_ge 0 num_frames)) by lia. }
        rewrite Hr. simpl. exists []. repeat split; simpl; try lia.
        constructor.
      * destruct (selected_indices_spec (Z.of_nat (length top)) num_frames)
          as (Hin & Hasc & Hlen); try lia.
        destruct (gather_lookup top _ Hin) as (sel & Hg & H2).
        exists sel. split; [exact Hg |].
        assert (Hsel : (length sel <= Z.to_nat num_frames)%nat).
        { rewrite <- (Forall2_length _ _ _ H2), Hlen. lia. }
        split; [exact Hsel |]. split; [| split].
        -- eapply gathered_sorted; eauto.
           eapply List.Forall_impl; [| exact Hin]. intros k Hk. simpl in Hk. lia.
        -- intros x Hx. apply Htop; [lia |]. eapply gathered_In; eauto.
        -- now apply Hfinal.
  - exists top. split; [reflexivity |].
    assert (Hsel : (length top <= Z.to_nat num_frames)%nat) by lia.
    repeat split; auto. apply Htop. lia.
Qed.

End Selection.

Lemma key_moment_selection_witness :
  let entry (i : Z) (s : Q) : Z * Q * Z := (i, s, i) in
  let frame_diffs :=
    [entry 10%Z 3; entry 20%Z 5; entry 30%Z 1; entry 40%Z 4;
     entry 50%Z 2] in
  FrameLoops.key_moment_top_frames 3 frame_diffs
  = Some [entry 10%Z 3; entry 20%Z 5; entry 40%Z 4]
  /\ exists top_frames,
       FrameLoops.key_moment_top_frames 3 frame_diffs = Some top_frames
       /\ (length top_frames <= 3)%nat.
Proof.
  intros entry frame_diffs. split; [vm_compute; reflexivity |].
  destruct (key_moment_selection (fun _ => true) 30 3 frame_diffs)
    as (top_frames & H & Hlen & _); [vm_compute; discriminate |].
  exists top_frames. split; [exact H | exact Hlen].
Defined.

(** ** The cost of the key-moment probes *)

Section ProbeCount.
Import ThumbnailGenerator Sampling.

Local Open Scope Z_scope.

Lemma key_moment_range_len (frame_count : Z) :
  Py.range_len (Py.int (inject_Z frame_count * 0.05))
               (Py.int (inject_Z frame_count * 0.95))
               (key_moment_sample_rate frame_count) <= 900.
Proof.
  unfold key_moment_sample_rate.
  rewrite int_five_percent, int_ninety_five_percent, int_five_hundredth.
  unfold Py.range_len.
  destruct (Z.ltb_spec (frame_count * 5 ÷ 100) (frame_count * 95 ÷ 100))
    as [Hlt | Hge]; [| lia].
  assert (Hfc : 0 <= frame_count).
  { destruct (Z.le_gt_cases 0 frame_count) as [H | H]; [exact H |].
    assert (frame_count * 95 ÷ 100 <= frame_count * 5 ÷ 100)
      by (apply Z.quot_le_mono; lia).
    lia. }
  rewrite !Z.quot_div_nonneg in * by lia.
  set (a := frame_count * 5 / 100) in *.
  set (b := frame_count * 95 / 100) in *.
  set (k := frame_count / 500) in *.
  assert (Ha : 100 * a <= frame_count * 5 < 100 * a + 100).
  { unfold a. pose proof (Z.mul_div_le (frame_count * 5) 100).
    pose proof (Z.mul_succ_div_gt (frame_count * 5) 100). lia. }
  assert (Hb : 100 * b <= frame_count * 95).
  { unfold b. pose proof (Z.mul_div_le (frame_count * 95) 100). lia. }
  assert (Hk : 500 * k <= frame_count < 500 * k + 500).
  { unfold k. pose proof (Z.mul_div_le frame_count 500).
    pose proof (Z.mul_succ_div_gt frame_count 500). lia. }
  assert (Hk0 : 0 <= k) by (unfold k; apply Z.div_pos; lia).
  assert (Hstride : 0 < Z.max 1 k) by lia.
  assert (Hnum : b - a - 1 < Z.max 1 k * 900).
  { destruct (Z.le_gt_cases k 0) as [Hk1 | Hk1]; lia. }
  assert ((b - a - 1) / Z.max 1 k < 900)
    by (apply Z.div_lt_upper_bound; lia).
  lia.
Qed.

Lemma probe_loop_length {Frame Gray : Type} (read : Z -> option Frame)
    (cvtColor : Frame -> Gray) (diff_score : Gray -> Gray -> Q)
    (indices : list Z) :
  forall prev,
    (length (probe_loop read cvtColor diff_score indices prev)
     <= match prev with
        | Some _ => length indices
        | None => Nat.pred (length indices)
        end)%nat.
Proof.
  induction indices as [| i rest IH]; intros prev; simpl.
  - destruct prev; simpl; lia.
  - destruct (read i) as [frame |].
    + pose proof (IH (Some (cvtColor frame))) as H. simpl in H.
      destruct prev; simpl; lia.
    + pose proof (IH prev) as H. destruct prev; simpl in *; lia.
Qed.

(** X15.  Whatever the length of the video, the key-moment strategy
    probes at most 900 frames (900 are probed for 999 frames), and scores
    at most 899 of them: the first frame read has no predecessor. *)
Theorem key_moment_probe_count {Frame Gray : Type}
    (read : Z -> option Frame) (cvtColor : Frame -> Gray)
    (diff_score : Gray -> Gray -> Q) (frame_count : Z) :
  (length (key_moment_probes frame_count) <= 900)%nat
  /\ (length (frame_diffs read cvtColor diff_score frame_count) <= 899)%nat
  /\ length (key_moment_probes 999) = 900%nat.
Proof.
  assert (H : (length (key_moment_probes frame_count) <= 900)%nat).
  { unfold key_moment_probes, Py.range3. cbv zeta.
    rewrite length_map, length_seq.
    pose proof (key_moment_range_len frame_count). lia. }
  split; [exact H |]. split; [| vm_compute; reflexivity].
  unfold frame_diffs.
  pose proof (probe_loop_length read cvtColor diff_score
                (key_moment_probes frame_count) None) as Hl.
  simpl in Hl. lia.
Qed.

End ProbeCount.

(** ** Validation, once more *)

Section ValidationMore.
Import VideoEditor.

Lemma validate_segments_dom (segments : list loc) (video_duration : Q) :
  forall h : gmap loc Segment,
    is_Some (_validate_segments segments video_duration h) ->
    forall r, In r segments -> is_Some (h !! r).
Proof.
  induction segments as [| r0 rest IH]; intros h Hs r Hr.
  - contradiction.
  - simpl in Hs. destruct (h !! r0) as [s0 |] eqn:E0.
    + destruct Hr as [<- | Hr]; [rewrite E0; eauto |].
      specialize (IH _ Hs r Hr).
      destruct (decide (r0 = r)) as [-> | Hne]; [rewrite E0; eauto |].
      now rewrite lookup_insert_ne in IH by exact Hne.
    + destruct Hs as [x Hx]. discriminate.
Qed.

(** X16.  Validating a list of segments a second time changes nothing:
    whenever [_validate_segments] has run on a store, running it again
    with the same list and duration leaves every dictionary as it is. *)
Theorem validate_segments_idempotent (segments : list loc)
    (video_duration : Q) (h h' : gmap loc Segment) :
  _validate_segments segments video_duration h = Some h' ->
  _validate_segments segments video_duration h' = Some h'.
Proof.
  intros Hv.
  assert (Hdom : forall r, In r segments -> is_Some (h !! r)).
  { apply (validate_segments_dom segments video_duration). eauto. }
  destruct (validate_segments_store video_duration segments h Hdom)
    as (h1 & Hv1 & Hin & Hout).
  rewrite Hv in Hv1. injection Hv1 as <-.
  assert (Hdom' : forall r, In r segments -> is_Some (h' !! r)).
  { intros r Hr. rewrite (Hin r Hr). destruct (Hdom r Hr) as [s ->].
    simpl. eauto. }
  destruct (validate_segments_store video_duration segments h' Hdom')
    as (h2 & Hv2 & Hin2 & Hout2).
  rewrite Hv2. f_equal. apply map_eq. intros r.
  destruct (in_dec Pos.eq_dec r segments) as [Hr | Hr].
  - rewrite (Hin2 r Hr), (Hin r Hr).
    destruct (h !! r) as [s |]; simpl; [| reflexivity].
    now rewrite validate_segment_idem.
  - apply (Hout2 r Hr).
Qed.

Lemma validate_segments_idempotent_witness :
  let h : gmap loc Segment :=
    {[ 1%positive := mkSegment (-3) 12; 2%positive := mkSegment 18 40 ]} in
  let h' : gmap loc Segment :=
    {[ 1%positive := mkSegment 0 12; 2%positive := mkSegment 18 30 ]} in
  _validate_segments [1%positive; 2%positive; 1%positive] 30 h = Some h'
  /\ _validate_segments [1%positive; 2%positive; 1%positive] 30 h' = Some h'.
Proof.
  intros h h'.
  assert (H : _validate_segments [1%positive; 2%positive; 1%positive] 30 h
              = Some h') by (vm_compute; reflexivity).
  split; [exact H |].
  exact (validate_segments_idempotent _ 30 h h' H).
Defined.

End ValidationMore.

(** ** The frames of the uniform strategy *)

Section UniformFrames.
Import ThumbnailGenerator Sampling FrameLoops.

Context {Frame : Type}.
Variable read : Z -> option Frame.
Variable good : Frame -> bool.
Variable fps : Q.

(** [_extract_uniform_frames]: the indices, then the loop over them. *)
Definition uniform_frames (num_frames frame_count : Z)
  : option (list (Frame * Q)) :=
  uniform_loop read good fps <$> uniform_frame_indices num_frames frame_count.

Lemma uniform_loop_length (indices : list Z) :
  (length (uniform_loop read good fps indices) <= length indices)%nat.
Proof.
  induction indices as [| i rest IH]; simpl; [lia |].
  destruct (read i) as [frame |]; [| lia].
  destruct (good frame); simpl; lia.
Qed.

Lemma uniform_loop_In (indices : list Z) (p : Frame * Q) :
  In p (uniform_loop read good fps indices) ->
  exists i, In i indices /\ snd p = timestamp fps i.
Proof.
  induction indices as [| i rest IH]; simpl; [contradiction |].
  intros Hp.
  assert (Hrest : In p (uniform_loop read good fps rest) ->
                  exists j, (i = j \/ In j rest) /\ snd p = timestamp fps j).
  { intros H. destruct (IH H) as (j & Hj & Ht). eauto. }
  destruct (read i) as [frame |]; [| auto].
  destruct (good frame); [| auto].
  destruct Hp as [<- | Hp]; [| auto].
  exists i. split; [now left | reflexivity].
Qed.

(** The timestamps [frame_idx / fps] grow with the index, also after
    the rounding of the quotient: for indices up to [2 ^ 25] the quotients
    of two indices differ by more than the rounding can move them. *)
Lemma timestamp_increasing (i j : Z) :
  2 ^ (-64) <= fps -> fps <= 2 ^ 64 ->
  (0 <= i)%Z -> (i < j)%Z -> (j <= 2 ^ 25)%Z ->
  timestamp fps i < timestamp fps j.
Proof.
  intros Hlo Hhi Hi Hij Hj. unfold timestamp.
  assert (Hfps : 0 < fps) by (eapply Qlt_le_trans; [| exact Hlo]; reflexivity).
  rewrite (proj2 (Qltb_lt 0 fps) Hfps).
  assert (Hr : 0 < / fps) by now apply Qinv_lt_0_compat.
  assert (Hr' : 2 ^ (-64) <= / fps).
  { apply Qle_shift_inv_l; [exact Hfps |].
    apply Qle_trans with (2 ^ (-64) * 2 ^ 64).
    - apply Qmult_le_l; [reflexivity | exact Hhi].
    - apply Qle_bool_iff. vm_compute. reflexivity. }
  assert (Qi : 0 <= inject_Z i)
    by (change 0 with (inject_Z 0); rewrite <- Zle_Qle; lia).
  assert (Qij : inject_Z i + 1 <= inject_Z j).
  { change 1 with (inject_Z 1). rewrite <- inject_Z_plus, <- Zle_Qle. lia. }
  assert (Qj : inject_Z j <= 33554432).
  { change 33554432 with (inject_Z (2 ^ 25)). rewrite <- Zle_Qle. exact Hj. }
  assert (Hquot : forall k, (0 <= k <= 2 ^ 25)%Z ->
            Py.fdiv (Py.float_of_int k) fps
            == Py.round64 (inject_Z k * / fps)
            /\ (inject_Z k * / fps == 0 \/ 2 ^ (-1022) <= inject_Z k * / fps)).
  { intros k Hk.
    assert (Qk : 0 <= inject_Z k)
      by (change 0 with (inject_Z 0); rewrite <- Zle_Qle; lia).
    assert (Hfk : Py.float_of_int k == inject_Z k)
      by (apply float_of_int_exact; lia).
    split.
    - unfold Py.fdiv, Qdiv. apply round64_nonneg_comp.
      + rewrite Hfk. apply Qmult_le_0_compat; lra.
      + now rewrite Hfk.
    - destruct (Z.eq_dec k 0%Z) as [-> | Hk0]; [left; ring | right].
      assert (Qk1 : 1 <= inject_Z k)
        by (change 1 with (inject_Z 1); rewrite <- Zle_Qle; lia).
      apply Qle_trans with (2 ^ (-64)); [discriminate |].
      assert (0 <= (inject_Z k - 1) * / fps)
        by (apply Qmult_le_0_compat; lra).
      lra. }
  destruct (Hquot i) as [Ei Ci]; [lia |].
  destruct (Hquot j) as [Ej Cj]; [lia |].
  rewrite Ei, Ej.
  destruct (round64_error0 _ Ci) as [_ Ui].
  destruct (round64_error0 _ Cj) as [Lj _].
  unfold eps in Ui, Lj.
  change (2 ^ (-53)) with (1 # 9007199254740992) in Ui, Lj.
  assert (Hgap : 0 < / fps * (inject_Z j * (1 - (1 # 9007199254740992))
                              - inject_Z i * (1 + (1 # 9007199254740992)))).
  { apply Qmult_lt_0_compat; [exact Hr | lra]. }
  lra.
Qed.

Lemma uniform_loop_ascending (indices : list Z) :
  2 ^ (-64) <= fps -> fps <= 2 ^ 64 ->
  Forall (fun i => (0 <= i <= 2 ^ 25)%Z) indices ->
  StronglySorted Z.lt indices ->
  StronglySorted Qlt (List.map snd (uniform_loop read good fps indices)).
Proof.
  intros Hlo Hhi Hall. induction 1 as [| i rest Hs IH Hi]; simpl.
  - constructor.
  - apply Forall_cons_1 in Hall as [Hi0 Hall]. specialize (IH Hall).
    destruct (read i) as [frame |]; [| exact IH].
    destruct (good frame); [| exact IH].
    simpl. constructor; [exact IH |].
    apply List.Forall_forall. intros t Ht.
    apply in_map_iff in Ht as (p & <- & Hp).
    apply uniform_loop_In in Hp as (j & Hj & ->).
    pose proof (proj1 (List.Forall_forall _ _) Hi j Hj) as Hij.
    pose proof (proj1 (List.Forall_forall _ _) Hall j Hj) as Hj0.
    simpl in Hj0. apply timestamp_increasing; auto; lia.
Qed.

(** X17.  For a video of up to [2 ^ 25] frames, whenever
    [_extract_uniform_frames] returns, it returns at most [num_frames]
    frames; their timestamps, the rounded quotients [frame_idx / fps],
    strictly ascend for a frame rate between [2 ^ -64] and [2 ^ 64], and
    are all 0 when the frame rate is not positive. *)
Theorem uniform_frames_ordered (num_frames frame_count : Z)
    (frames : list (Frame * Q)) :
  (frame_count <= 2 ^ 25)%Z ->
  uniform_frames num_frames frame_count = Some frames ->
  (length frames <= Z.to_nat num_frames)%nat
  /\ (2 ^ (-64) <= fps -> fps <= 2 ^ 64 ->
      StronglySorted Qlt (List.map snd frames))
  /\ (fps <= 0 -> Forall (fun p => snd p = 0) frames).
Proof.
  intros Hfc. unfold uniform_frames.
  destruct (uniform_frame_indices num_frames frame_count)
    as [indices |] eqn:E; [| discriminate].
  intros [= <-].
  assert (Hrange : Forall (fun i => (0 <= i <= 2 ^ 25)%Z) indices).
  { apply List.Forall_forall. intros i Hi.
    assert (Hin : (usable_start frame_count <= i
                   < usable_stop frame_count)%Z).
    { apply (uniform_in_usable_range num_frames frame_count indices);
        auto. lia. }
    pose proof (usable_start_nonneg frame_count) as Hstart.
    assert (Hpos : (0 <= frame_count)%Z).
    { apply usable_count_pos. unfold usable_count. lia. }
    pose proof (usable_stop_le frame_count Hpos). simpl. lia. }
  assert (Hs : StronglySorted Z.lt indices
               /\ length indices
                  = Z.to_nat (Z.min num_frames (usable_count frame_count))).
  { revert E. rewrite uniform_frame_indices_eq.
    destruct (Z.leb_spec (usable_count frame_count) num_frames)
      as [Hge | Hlt].
    - intros [= <-]. split; [apply range3_sorted; lia |].
      rewrite range2_length. unfold usable_count in *. f_equal. lia.
    - destruct (Z.eqb_spec num_frames 0) as [Hz | Hnz]; [discriminate |].
      intros [= <-]. split.
      + apply (StronglySorted_map_in Z.lt); [apply range3_sorted; lia |].
        intros i j Hi Hj Hij. apply range2_In in Hi, Hj.
        assert (Hpos : (0 <= frame_count)%Z)
          by (apply usable_count_pos; lia).
        pose proof (usable_stop_le frame_count Hpos) as Hstop.
        apply binary64_index_increasing; try lia.
        * apply usable_start_nonneg.
        * unfold usable_count in *. lia.
      + rewrite length_map. unfold Py.range. rewrite range2_length.
        f_equal. lia. }
  destruct Hs as [Hs Hl]. split; [| split].
  - pose proof (uniform_loop_length indices). lia.
  - intros Hlo Hhi. now apply uniform_loop_ascending.
  - intros Hfps. apply List.Forall_forall. intros p Hp.
    apply uniform_loop_In in Hp as (i & _ & ->).
    unfold timestamp. now rewrite (proj2 (Qltb_ge 0 fps) Hfps).
Qed.

End UniformFrames.

Lemma uniform_frames_ordered_witness :
  let read : Z -> option Z := fun i => if Z.eqb i 14 then None else Some i in
  let good : Z -> bool := fun frame => negb (Z.eqb frame 7) in
  uniform_frames read good 30 4 30
  = Some [ (1%Z, Py.fdiv 1 30); (21%Z, Py.fdiv 21 30) ]
  /\ (length [ (1%Z, Py.fdiv 1 30); (21%Z, Py.fdiv 21 30) ]
      <= Z.to_nat 4)%nat
  /\ StronglySorted Qlt [ Py.fdiv 1 30; Py.fdiv 21 30 ].
Proof.
  intros read good.
  assert (H : uniform_frames read good 30 4 30
              = Some [ (1%Z, Py.fdiv 1 30); (21%Z, Py.fdiv 21 30) ])
    by (vm_compute; reflexivity).
  destruct (uniform_frames_ordered read good 30 4 30 _ ltac:(lia) H)
    as (Hlen & Hasc & _).
  split; [exact H |]. split; [exact Hlen |].
  apply Hasc; apply Qle_bool_iff; vm_compute; reflexivity.
Defined.

(** ** The segmentation of [edit_video] with merging *)

Section EditVideoMerged.
Import VideoEditor Timeline Intervals MergeSpec.

Variable video_duration : Q.
Variable min_segment_duration : Q.

Lemma chron_weaken (l : list Segment) (t t' : Q) :
  t' <= t -> chron t l -> chron t' l.
Proof.
  destruct l as [| a r]; simpl; [auto |].
  intros Ht (H1 & H2 & H3). repeat split; auto; lra.
Qed.

Lemma chain_le (D : Q) (r : list Segment) :
  forall t, chain t r D -> t <= D.
Proof.
  induction r as [| x r IH]; intros t Hc; simpl in Hc; [exact Hc |].
  destruct Hc as (H1 & H2 & H3). specialize (IH _ H3). lra.
Qed.

(** The complement of a well-formed remove list is in chronological
    order and ends at or before [D]. *)
Lemma gaps_chron (D : Q) (r : list Segment) :
  forall t, chain t r D ->
            chron t (gaps_from t r D)
            /\ Forall (fun s => end_time s <= D) (gaps_from t r D).
Proof.
  induction r as [| x r IH]; intros t Hc.
  - simpl in *. destruct (Qltb_spec t D) as [E | E].
    + split; [simpl; repeat split; auto; lra |].
      constructor; [simpl; lra | constructor].
    + split; [exact I | constructor].
  - destruct Hc as (Htx & Hx & Hc). destruct (IH _ Hc) as [IH1 IH2].
    pose proof (chain_le D r _ Hc) as Hle.
    assert (Hw : chron (start_time x) (gaps_from (end_time x) r D)).
    { apply (chron_weaken _ (end_time x)); [lra | exact IH1]. }
    simpl gaps_from. destruct (Qltb_spec t (start_time x)) as [E | E].
    + split.
      * simpl. repeat split; auto; lra.
      * constructor; [simpl; lra | exact IH2].
    + split; [| exact IH2].
      apply (chron_weaken _ (end_time x)); [lra | exact IH1].
Qed.

Lemma chron_positive (l : list Segment) :
  forall t, chron t l -> positive_duration l = true.
Proof.
  induction l as [| a r IH]; intros t H; simpl in *; [reflexivity |].
  destruct H as (_ & H2 & H3).
  now rewrite (proj2 (Qltb_lt _ _) H2), (IH _ H3).
Qed.

Lemma chron_starts (l : list Segment) :
  forall t, chron t l -> Forall (fun s => t <= start_time s) l.
Proof.
  induction l as [| a r IH]; intros t H; simpl in *; constructor.
  - tauto.
  - destruct H as (H1 & H2 & H3).
    eapply List.Forall_impl; [| exact (IH _ H3)].
    intros s Hs. simpl in Hs. lra.
Qed.

Lemma merge_short_ends (D : Q) (rest : list Segment) :
  forall (closed : list Segment) (cur : Segment)
         (c : list Segment) (l' : Segment),
    Forall (fun s => end_time s <= D) (closed ++ cur :: rest) ->
    fold_left (merge_short_step min_segment_duration) rest (closed, cur)
    = (c, l') ->
    Forall (fun s => end_time s <= D) (c ++ [l']).
Proof.
  induction rest as [| s rest IH]; intros closed cur c l' Hall Hf.
  - now injection Hf as <- <-.
  - change (fold_left (merge_short_step min_segment_duration) (s :: rest)
              (closed, cur))
      with (fold_left (merge_short_step min_segment_duration) rest
              (merge_short_step min_segment_duration (closed, cur) s)) in Hf.
    unfold merge_short_step at 2 in Hf.
    destruct (short min_segment_duration s
              && short min_segment_duration cur).
    + apply (IH closed (extend cur s)); [| exact Hf].
      apply Forall_app in Hall as [H1 H2].
      apply Forall_cons_1 in H2 as [_ H2].
      apply Forall_cons_1 in H2 as [Hs H2].
      apply Forall_app. split; [exact H1 |]. constructor; [exact Hs | exact H2].
    + apply (IH (closed ++ [cur]) s); [| exact Hf].
      now rewrite <- app_assoc.
Qed.

(** Merging a chronological list that starts at or after [t] and ends
    at or before [D]. *)
Lemma merge_short_chron_bounds (t D : Q) (keep : list Segment) :
  chron t keep ->
  Forall (fun s => end_time s <= D) keep ->
  exists clips,
    _merge_short_segments min_segment_duration keep = Some clips
    /\ chron t clips
    /\ Forall (fun k => Exists (inside k) clips) keep
    /\ Forall (fun c => end_time c <= D) clips
    /\ (keep = [] <-> clips = []).
Proof.
  intros Hc Hends. destruct keep as [| first rest].
  - exists []. repeat split; auto.
  - rewrite merge_short_refines. eexists. split; [reflexivity |].
    unfold merge_short.
    destruct (fold_left (merge_short_step min_segment_duration) rest
                ([], first)) as [c l'] eqn:Hf.
    destruct (merge_short_chron_acc min_segment_duration rest [] first t
                [first] c l' Hc) as [Hc' Hin]; auto.
    { constructor; [| constructor]. constructor. unfold inside. lra. }
    split; [exact Hc' |]. split; [exact Hin |]. split.
    + now apply (merge_short_ends D rest [] first).
    + split; [discriminate |]. intros H. now destruct c.
Qed.

(** X18.  With merging switched on ([min_segment_duration > 0], as
    configured) and a video of positive duration: when the caller's
    segments to remove have positive durations, do not overlap one
    another and each reach into [[0, video_duration)], the spans that
    [edit_video] extracts are the merged complement of the clamped
    segments; they are in chronological order without overlap, lie within
    [[0, video_duration]], and every segment of the complement lies
    inside one of them.  The call raises "No segments remain" exactly
    when the complement is empty. *)
Theorem edit_video_merged (h : gmap loc Segment)
    (segments_to_remove : list loc) (raw : list Segment) :
  0 < video_duration ->
  0 < min_segment_duration ->
  deref h segments_to_remove = Some raw ->
  positive_duration raw = true ->
  non_overlapping raw = true ->
  reaches video_duration raw = true ->
  exists h' removed keep clips,
    validated_remove_set h segments_to_remove video_duration
    = Some (h', removed)
    /\ keep = _get_segments_to_keep removed video_duration
    /\ _merge_short_segments min_segment_duration keep = Some clips
    /\ edit_video min_segment_duration h segments_to_remove video_duration
       = Some (h', match clips with
                   | [] => NoSegmentsRemain
                   | _ => Clips clips
                   end)
    /\ chronological_from 0 clips = true
    /\ Forall (fun c => end_time c <= video_duration) clips
    /\ Forall (fun k => Exists (inside k) clips) keep
    /\ (keep = [] <-> clips = []).
Proof.
  intros HD Hm Hraw Hpos Hno Hreach.
  destruct (validated_remove_set_perm video_duration h _ raw Hraw)
    as (h' & removed & Hv & Hperm & Hsorted).
  destruct (removed_well_formed video_duration raw removed HD Hpos Hno
              Hreach Hperm Hsorted) as (Hs & Hn & Hp & Hw).
  assert (Hkeep : chron 0 (_get_segments_to_keep removed video_duration)
                  /\ Forall (fun s => end_time s <= video_duration)
                            (_get_segments_to_keep removed video_duration)).
  { destruct removed as [| x r].
    - simpl. split; [repeat split; auto; lra |].
      constructor; [simpl; lra | constructor].
    - rewrite keep_gaps. apply gaps_chron.
      apply chain_intro; auto; [lra |].
      intros y Hy. injection Hy as <-.
      simpl in Hw. apply andb_true_iff in Hw as [Hw _].
      apply andb_true_iff in Hw as [Hw _].
      now apply negb_true_iff, Qltb_ge in Hw. }
  destruct Hkeep as [Hkc Hke].
  destruct (merge_short_chron_bounds 0 video_duration _ Hkc Hke)
    as (clips & Hmerge & Hcc & Hin & Hce & Hnil).
  exists h', removed, (_get_segments_to_keep removed video_duration), clips.
  split; [exact Hv |]. split; [reflexivity |]. split; [exact Hmerge |].
  split; [| split; [now apply chronological_from_chron | auto]].
  unfold edit_video. rewrite Hv. csimpl.
  rewrite (proj2 (Qltb_lt 0 min_segment_duration) Hm), Hmerge. csimpl.
  now rewrite (filter_forallb _ clips (chron_positive clips 0 Hcc)).
Qed.

End EditVideoMerged.

Lemma edit_video_merged_witness :
  let h : gmap VideoEditor.loc VideoEditor.Segment :=
    {[ 1%positive := VideoEditor.mkSegment 18 24;
       2%positive := VideoEditor.mkSegment 6 12 ]} in
  exists h',
    VideoEditor.edit_video 10 h [1%positive; 2%positive] 30
    = Some (h', VideoEditor.Clips [ VideoEditor.mkSegment 0 18;
                                     VideoEditor.mkSegment 24 30 ]).
Proof.
  intros h.
  destruct (edit_video_merged 30 10 h [1%positive; 2%positive]
              [VideoEditor.mkSegment 18 24; VideoEditor.mkSegment 6 12]
              eq_refl eq_refl eq_refl eq_refl eq_refl eq_refl)
    as (h' & removed & keep & clips & Hv & Hk & Hm & He & _).
  exists h'. rewrite He.
  vm_compute in Hv. injection Hv as _ <-. subst keep.
  vm_compute in Hm. injection Hm as <-. reflexivity.
Defined.
